(** * The photon-noise film-grain table generator

    A shallow embedding of [examples/photon_noise_table.c]: the catalog of
    transfer functions, [find_transfer_function], [generate_photon_noise]
    and the part of [main] that prepares the descriptor.

    The C code computes in [float].  The embedding is written once, over an
    interface of the float operations the source uses, and is read in two
    ways:
    - [Binary32]: IEEE-754 single precision, bit for bit (round to nearest
      even, signed zeros, infinities, NaN), for the operations +, -, *, /,
      comparisons, [sqrtf], [roundf] and the conversions.  [powf], [logf]
      and [exp] are the C library's and stay a parameter there;
    - [Ideal]: the same expressions over the real numbers, without rounding,
      with [powf], [logf] and [exp] the real power, logarithm and
      exponential.

    [int] arithmetic wraps at 32 bits. *)

From Stdlib Require Import ZArith List Sorted Bool String Ascii Lia.
From Stdlib Require Import DecimalString.
From Stdlib Require Import Reals Lra Psatz.
From Stdlib Require Import SpecFloat.
Import ListNotations.

Local Open Scope Z_scope.

(** ** C integers *)

Definition INT_MIN : Z := - 2 ^ 31.
Definition INT_MAX : Z := 2 ^ 31 - 1.

(** The value of a mathematical integer stored in a 32-bit [int]. *)
Definition int_wrap (z : Z) : Z := (z + 2 ^ 31) mod 2 ^ 32 - 2 ^ 31.

(** [a * b] on two [int]s. *)
Definition int_mul (a b : Z) : Z := int_wrap (a * b).

Definition in_int_range (z : Z) : bool := (INT_MIN <=? z) && (z <=? INT_MAX).

(** ** The float operations the source uses *)

Class FloatArith (F : Type) : Type := {
  (** conversion of an [int] to [float] *)
  of_int : Z -> F;
  (** the literal [m]e[e]f, that is m * 10^e written with suffix f *)
  lit : Z -> Z -> F;
  fadd : F -> F -> F;
  fsub : F -> F -> F;
  fmul : F -> F -> F;
  fdiv : F -> F -> F;
  (** [a < b] and [a <= b] *)
  flt : F -> F -> bool;
  fle : F -> F -> bool;
  sqrtf : F -> F;
  roundf : F -> F;
  (** [(int) x]; [None] where the conversion is undefined in C (NaN, or a
      value whose integral part is not an [int]) *)
  to_int : F -> option Z
}.

(** The three functions taken from the C mathematical library. [exp_f x] is
    [(float) exp((double) x)], the form in which [hlg_to_linear] calls it. *)
Class Libm (F : Type) : Type := {
  powf : F -> F -> F;
  logf : F -> F;
  exp_f : F -> F
}.

Declare Scope cfloat_scope.
Delimit Scope cfloat_scope with cf.
Notation "a + b" := (fadd a b) : cfloat_scope.
Notation "a - b" := (fsub a b) : cfloat_scope.
Notation "a * b" := (fmul a b) : cfloat_scope.
Notation "a / b" := (fdiv a b) : cfloat_scope.
Notation "a < b" := (flt a b) : cfloat_scope.
Notation "a <= b" := (fle a b) : cfloat_scope.
Notation "a > b" := (flt b a) : cfloat_scope.

(** ** Data of the program *)

(** [transfer_function_t]: two function pointers and the mid-tone level. *)
Record transfer_function_t (F : Type) : Type := {
  to_linear : F -> F;
  from_linear : F -> F;
  mid_tone : F
}.
Arguments to_linear {F} _ _.
Arguments from_linear {F} _ _.
Arguments mid_tone {F} _.

(** [photon_noise_args_t]. The pointer [transfer_function] always points to
    one of the constant curves, so the field holds the curve. *)
Record photon_noise_args_t (F : Type) : Type := {
  width : Z;
  height : Z;
  iso_setting : Z;
  transfer_function : transfer_function_t F;
  output_filename : option string
}.
Arguments width {F} _.
Arguments height {F} _.
Arguments iso_setting {F} _.
Arguments transfer_function {F} _.
Arguments output_filename {F} _.

(** Modelled from the spec: [aom_film_grain_t], the noise-curve descriptor.
    Its declaration (aom_dsp/grain_synthesis.h) is not among the sources.
    The fields [generate_photon_noise] assigns are taken from its body, with
    [scaling_points_y] an array of 14 rows of two [int]s; the fields it
    never names are the rest of the descriptor (the luma autoregressive
    coefficients, the chroma scaling points, the clipping flag, the bit
    depth and the grain scale shift). *)
Record aom_film_grain_t : Type := {
  apply_grain : Z;
  update_parameters : Z;
  scaling_points_y : list (Z * Z);
  num_y_points : Z;
  scaling_points_cb : list (Z * Z);
  num_cb_points : Z;
  scaling_points_cr : list (Z * Z);
  num_cr_points : Z;
  scaling_shift : Z;
  ar_coeff_lag : Z;
  ar_coeffs_y : list Z;
  ar_coeffs_cb : list Z;
  ar_coeffs_cr : list Z;
  ar_coeff_shift : Z;
  cb_mult : Z;
  cb_luma_mult : Z;
  cb_offset : Z;
  cr_mult : Z;
  cr_luma_mult : Z;
  cr_offset : Z;
  overlap_flag : Z;
  clip_to_restricted_range : Z;
  bit_depth : Z;
  chroma_scaling_from_luma : Z;
  grain_scale_shift : Z;
  random_seed : Z
}.

(** The arrays of a descriptor have the lengths of their declarations. *)
Definition film_grain_wf (fg : aom_film_grain_t) : Prop :=
  List.length (scaling_points_y fg) = 14%nat /\
  List.length (ar_coeffs_cb fg) = 25%nat /\
  List.length (ar_coeffs_cr fg) = 25%nat.

(** [a[i] = v]. The index is always inside the array in this program; a
    write outside (undefined in C) leaves the list as it is. *)
Fixpoint list_set {A : Type} (i : nat) (v : A) (l : list A) : list A :=
  match l, i with
  | [], _ => []
  | _ :: t, O => v :: t
  | h :: t, S j => h :: list_set j v t
  end.

(** Outcome of a call that may end in [fatal] (common/tools_common.h):
    the message format and its argument. *)
Inductive result (A : Type) : Type :=
| Returns (a : A)
| Fatal (fmt : string) (arg : Z).
Arguments Returns {A} a.
Arguments Fatal {A} fmt arg.

(** ** The transfer functions *)

Section TransferFunctions.
Context {F : Type} {FA : FloatArith F} {LM : Libm F}.
Local Open Scope cfloat_scope.

Definition maxf (a b : F) : F := if a > b then a else b.
Definition minf (a b : F) : F := if a < b then a else b.

Definition gamma22_to_linear (g : F) : F := powf g (lit 22 (-1)).
Definition gamma22_from_linear (l : F) : F :=
powf l (of_int 1 / lit 22 (-1)).
Definition gamma28_to_linear (g : F) : F := powf g (lit 28 (-1)).
Definition gamma28_from_linear (l : F) : F :=
powf l (of_int 1 / lit 28 (-1)).

Definition srgb_to_linear (srgb : F) : F :=
if srgb <= lit 4045 (-5) then srgb / lit 1292 (-2)
else powf ((srgb + lit 55 (-3)) / lit 1055 (-3)) (lit 24 (-1)).
Definition srgb_from_linear (linear : F) : F :=
if linear <= lit 31308 (-7) then lit 1292 (-2) * linear
else lit 1055 (-3) * powf linear (of_int 1 / lit 24 (-1)) - lit 55 (-3).

Definition kPqM1 : F := lit 2610 0 / of_int 16384.
Definition kPqM2 : F := of_int 128 * lit 2523 0 / of_int 4096.
Definition kPqC1 : F := lit 3424 0 / of_int 4096.
Definition kPqC2 : F := of_int 32 * lit 2413 0 / of_int 4096.
Definition kPqC3 : F := of_int 32 * lit 2392 0 / of_int 4096.
Definition pq_to_linear (pq : F) : F :=
let pq_pow_inv_m2 := powf pq (lit 1 0 / kPqM2) in
powf (maxf (of_int 0) (pq_pow_inv_m2 - kPqC1)
/ (kPqC2 - kPqC3 * pq_pow_inv_m2))
 (lit 1 0 / kPqM1).
Definition pq_from_linear (linear : F) : F :=
let linear_pow_m1 := powf linear kPqM1 in
powf ((kPqC1 + kPqC2 * linear_pow_m1)
/ (of_int 1 + kPqC3 * linear_pow_m1))
 kPqM2.

Definition kHlgA : F := lit 17883277 (-8).
Definition kHlgB : F := lit 28466892 (-8).
Definition kHlgC : F := lit 55991073 (-8).
(** The source writes the cast in front of [exp] as [(flout)]; it is read
as the cast to [float] that the surrounding arithmetic needs. *)
Definition hlg_to_linear (hlg : F) : F :=
let linear :=
if hlg <= lit 5 (-1) then hlg * hlg / of_int 3
else (exp_f ((hlg - kHlgC) / kHlgA) + kHlgB) / of_int 12 in
powf linear (lit 12 (-1)).
Definition hlg_from_linear (linear : F) : F :=
let linear := powf linear (lit 1 0 / lit 12 (-1)) in
if linear <= lit 1 0 / of_int 12 then sqrtf (of_int 3 * linear)
else kHlgA * logf (of_int 12 * linear - kHlgB) + kHlgC.

Definition kGamma22TransferFunction : transfer_function_t F :=
{| to_linear := gamma22_to_linear;
 from_linear := gamma22_from_linear;
 mid_tone := lit 18 (-2) |}.
Definition kGamma28TransferFunction : transfer_function_t F :=
{| to_linear := gamma28_to_linear;
 from_linear := gamma28_from_linear;
 mid_tone := lit 18 (-2) |}.
Definition kSRgbTransferFunction : transfer_function_t F :=
{| to_linear := srgb_to_linear;
 from_linear := srgb_from_linear;
 mid_tone := lit 18 (-2) |}.
Definition kPqTransferFunction : transfer_function_t F :=
{| to_linear := pq_to_linear;
 from_linear := pq_from_linear;
 mid_tone := lit 26 0 / of_int 10000 |}.
Definition kHlgTransferFunction : transfer_function_t F :=
{| to_linear := hlg_to_linear;
 from_linear := hlg_from_linear;
 mid_tone := lit 26 0 / of_int 1000 |}.

(** The five curves [find_transfer_function] can return. *)
Definition catalog : list (transfer_function_t F) :=
[ kGamma22TransferFunction; kGamma28TransferFunction;
kSRgbTransferFunction; kPqTransferFunction; kHlgTransferFunction ].

(** The enumerators of [aom_transfer_characteristics_t] (aom/aom_image.h,
not among the sources) are taken as parameters. A C [switch] has
pairwise distinct case labels. *)
Section Lookup.
Variables AOM_CICP_TC_BT_470_M AOM_CICP_TC_BT_470_B_G AOM_CICP_TC_SRGB
  AOM_CICP_TC_SMPTE_2084 AOM_CICP_TC_HLG : Z.

Definition find_transfer_function (tc : Z)
  : result (transfer_function_t F) :=
  if (tc =? AOM_CICP_TC_BT_470_M)%Z then Returns kGamma22TransferFunction
  else if (tc =? AOM_CICP_TC_BT_470_B_G)%Z
   then Returns kGamma28TransferFunction
  else if (tc =? AOM_CICP_TC_SRGB)%Z then Returns kSRgbTransferFunction
  else if (tc =? AOM_CICP_TC_SMPTE_2084)%Z
   then Returns kPqTransferFunction
  else if (tc =? AOM_CICP_TC_HLG)%Z then Returns kHlgTransferFunction
  else Fatal "unimplemented transfer function %d" tc.
End Lookup.
End TransferFunctions.

(** ** The noise curve synthesizer *)

Section Synthesizer.
Context {F : Type} {FA : FloatArith F}.
Local Open Scope cfloat_scope.

Definition kPhotonsPerLxSPerUm2 : F := of_int 11260.
Definition kEffectiveQuantumEfficiency : F := lit 20 (-2).
Definition kPhotoResponseNonUniformity : F := lit 5 (-3).
Definition kInputReferredReadNoise : F := lit 15 (-1).

Section Locals.
Variable photon_noise_args : photon_noise_args_t F.

Definition mid_tone_exposure : F :=
  lit 10 0 / of_int (iso_setting photon_noise_args).

(** [width * height] is a product of two [int]s. *)
Definition pixel_area_um2 : F :=
  (of_int 36000 * lit 24000 0)
  / of_int (int_mul (width photon_noise_args) (height photon_noise_args)).

Definition mid_tone_electrons_per_pixel : F :=
  kEffectiveQuantumEfficiency * kPhotonsPerLxSPerUm2
  * mid_tone_exposure * pixel_area_um2.

Definition max_electrons_per_pixel : F :=
  mid_tone_electrons_per_pixel
  / mid_tone (transfer_function photon_noise_args).

(** The locals of the loop body, for the iteration [i] of a loop that
runs while [i < n] ([n] is [film_grain->num_y_points]). *)
Variables n i : Z.

Definition sample_x : F := of_int i / (of_int n - lit 1 0).

Definition linear : F :=
  to_linear (transfer_function photon_noise_args) sample_x.

Definition electrons_per_pixel : F := max_electrons_per_pixel * linear.

Definition noise_in_electrons : F :=
  sqrtf (kInputReferredReadNoise * kInputReferredReadNoise
 + electrons_per_pixel
 + (kPhotoResponseNonUniformity * kPhotoResponseNonUniformity
* electrons_per_pixel * electrons_per_pixel)).

Definition linear_noise : F :=
  noise_in_electrons / max_electrons_per_pixel.

Definition linear_range_start : F :=
  maxf (lit 0 0) (linear - of_int 2 * linear_noise).

Definition linear_range_end : F :=
  minf (lit 1 0) (linear + of_int 2 * linear_noise).

(** The divisor of the finite difference. *)
Definition slope_denominator : F :=
  linear_range_end - linear_range_start.

Definition tf_slope : F :=
  (from_linear (transfer_function photon_noise_args) linear_range_end
   - from_linear (transfer_function photon_noise_args)
   linear_range_start)
  / slope_denominator.

Definition encoded_noise : F := linear_noise * tf_slope.

(** [x] and [encoded_noise] after their second assignment. *)
Definition quantized_x : F := roundf (of_int 255 * sample_x).

Definition quantized_noise : F :=
  minf (lit 255 0) (roundf (of_int 255 * lit 788 (-2) * encoded_noise)).

(** The two [int]s stored in row [i]. *)
Definition scaling_point : option (Z * Z) :=
  match to_int quantized_x, to_int quantized_noise with
  | Some x, Some e => Some (x, e)
  | _, _ => None
  end.
End Locals.

Definition set_scaling_point (film_grain : aom_film_grain_t) (i : Z)
   (p : Z * Z) : aom_film_grain_t :=
{| apply_grain := apply_grain film_grain;
 update_parameters := update_parameters film_grain;
 scaling_points_y :=
 list_set (Z.to_nat i) p (scaling_points_y film_grain);
 num_y_points := num_y_points film_grain;
 scaling_points_cb := scaling_points_cb film_grain;
 num_cb_points := num_cb_points film_grain;
 scaling_points_cr := scaling_points_cr film_grain;
 num_cr_points := num_cr_points film_grain;
 scaling_shift := scaling_shift film_grain;
 ar_coeff_lag := ar_coeff_lag film_grain;
 ar_coeffs_y := ar_coeffs_y film_grain;
 ar_coeffs_cb := ar_coeffs_cb film_grain;
 ar_coeffs_cr := ar_coeffs_cr film_grain;
 ar_coeff_shift := ar_coeff_shift film_grain;
 cb_mult := cb_mult film_grain;
 cb_luma_mult := cb_luma_mult film_grain;
 cb_offset := cb_offset film_grain;
 cr_mult := cr_mult film_grain;
 cr_luma_mult := cr_luma_mult film_grain;
 cr_offset := cr_offset film_grain;
 overlap_flag := overlap_flag film_grain;
 clip_to_restricted_range := clip_to_restricted_range film_grain;
 bit_depth := bit_depth film_grain;
 chroma_scaling_from_luma := chroma_scaling_from_luma film_grain;
 grain_scale_shift := grain_scale_shift film_grain;
 random_seed := random_seed film_grain |}.

Definition set_num_y_points (film_grain : aom_film_grain_t) (v : Z)
: aom_film_grain_t :=
{| apply_grain := apply_grain film_grain;
 update_parameters := update_parameters film_grain;
 scaling_points_y := scaling_points_y film_grain;
 num_y_points := v;
 scaling_points_cb := scaling_points_cb film_grain;
 num_cb_points := num_cb_points film_grain;
 scaling_points_cr := scaling_points_cr film_grain;
 num_cr_points := num_cr_points film_grain;
 scaling_shift := scaling_shift film_grain;
 ar_coeff_lag := ar_coeff_lag film_grain;
 ar_coeffs_y := ar_coeffs_y film_grain;
 ar_coeffs_cb := ar_coeffs_cb film_grain;
 ar_coeffs_cr := ar_coeffs_cr film_grain;
 ar_coeff_shift := ar_coeff_shift film_grain;
 cb_mult := cb_mult film_grain;
 cb_luma_mult := cb_luma_mult film_grain;
 cb_offset := cb_offset film_grain;
 cr_mult := cr_mult film_grain;
 cr_luma_mult := cr_luma_mult film_grain;
 cr_offset := cr_offset film_grain;
 overlap_flag := overlap_flag film_grain;
 clip_to_restricted_range := clip_to_restricted_range film_grain;
 bit_depth := bit_depth film_grain;
 chroma_scaling_from_luma := chroma_scaling_from_luma film_grain;
 grain_scale_shift := grain_scale_shift film_grain;
 random_seed := random_seed film_grain |}.

(** The assignments after the loop, in one step: every field named there
gets its constant, [ar_coeffs_cb] and [ar_coeffs_cr] only in their
first element. *)
Definition set_fixed_fields (film_grain : aom_film_grain_t)
: aom_film_grain_t :=
{| apply_grain := 1;
 update_parameters := 1;
 scaling_points_y := scaling_points_y film_grain;
 num_y_points := num_y_points film_grain;
 scaling_points_cb := scaling_points_cb film_grain;
 num_cb_points := 0;
 scaling_points_cr := scaling_points_cr film_grain;
 num_cr_points := 0;
 scaling_shift := 8;
 ar_coeff_lag := 0;
 ar_coeffs_y := ar_coeffs_y film_grain;
 ar_coeffs_cb := list_set 0 0%Z (ar_coeffs_cb film_grain);
 ar_coeffs_cr := list_set 0 0%Z (ar_coeffs_cr film_grain);
 ar_coeff_shift := 6;
 cb_mult := 0;
 cb_luma_mult := 0;
 cb_offset := 0;
 cr_mult := 0;
 cr_luma_mult := 0;
 cr_offset := 0;
 overlap_flag := 1;
 clip_to_restricted_range := clip_to_restricted_range film_grain;
 bit_depth := bit_depth film_grain;
 chroma_scaling_from_luma := 0;
 grain_scale_shift := grain_scale_shift film_grain;
 random_seed := 7391 |}.

(** One pass through the loop body at index [i]. *)
Definition loop_body (photon_noise_args : photon_noise_args_t F) (i : Z)
   (film_grain : aom_film_grain_t) : option aom_film_grain_t :=
match scaling_point photon_noise_args (num_y_points film_grain) i with
| Some p => Some (set_scaling_point film_grain i p)
| None => None
end.

(** [for (i = ...; i < film_grain->num_y_points; ++i)], with [k] the
number of iterations still to run: the body never assigns
[num_y_points], so the loop entered at [i] runs
[num_y_points - i] times. *)
Fixpoint scaling_loop (photon_noise_args : photon_noise_args_t F)
 (k : nat) (i : Z) (film_grain : aom_film_grain_t)
: option aom_film_grain_t :=
match k with
| O => Some film_grain
| S k' =>
match loop_body photon_noise_args i film_grain with
| Some film_grain' =>
  scaling_loop photon_noise_args k' (i + 1)%Z film_grain'
| None => None
end
end.

(** [generate_photon_noise]: the descriptor after the call, from the
descriptor before it; [None] where a conversion to [int] is
undefined. *)
Definition generate_photon_noise (photon_noise_args : photon_noise_args_t F)
   (film_grain : aom_film_grain_t) : option aom_film_grain_t :=
let film_grain := set_num_y_points film_grain 14 in
match scaling_loop photon_noise_args
  (Z.to_nat (num_y_points film_grain)) 0%Z film_grain with
| Some film_grain => Some (set_fixed_fields film_grain)
| None => None
end.

(** [memset(&film_grain, 0, sizeof(film_grain))] in [main]. *)
Definition zeroed_film_grain : aom_film_grain_t :=
{| apply_grain := 0;
 update_parameters := 0;
 scaling_points_y := repeat (0%Z, 0%Z) 14;
 num_y_points := 0;
 scaling_points_cb := repeat (0%Z, 0%Z) 10;
 num_cb_points := 0;
 scaling_points_cr := repeat (0%Z, 0%Z) 10;
 num_cr_points := 0;
 scaling_shift := 0;
 ar_coeff_lag := 0;
 ar_coeffs_y := repeat 0%Z 24;
 ar_coeffs_cb := repeat 0%Z 25;
 ar_coeffs_cr := repeat 0%Z 25;
 ar_coeff_shift := 0;
 cb_mult := 0;
 cb_luma_mult := 0;
 cb_offset := 0;
 cr_mult := 0;
 cr_luma_mult := 0;
 cr_offset := 0;
 overlap_flag := 0;
 clip_to_restricted_range := 0;
 bit_depth := 0;
 chroma_scaling_from_luma := 0;
 grain_scale_shift := 0;
 random_seed := 0 |}.

(** The descriptor [main] hands to the table writer, from the parsed
arguments. *)
Definition main_film_grain (photon_noise_args : photon_noise_args_t F)
: option aom_film_grain_t :=
generate_photon_noise photon_noise_args zeroed_film_grain.
End Synthesizer.

(** ** First reading: IEEE-754 single precision

    [float] as the binary32 format of [SpecFloat] (24 bits of precision,
    exponents up to 128). The four operations and [sqrtf] are correctly
    rounded to nearest even, as IEEE-754 requires of them. *)

Module Binary32.
Definition prec : Z := 24.
Definition emax : Z := 128.

(** An integer as an exact, unrounded operand. *)
Definition exact_Z (z : Z) : spec_float :=
match z with
| Z0 => S754_zero false
| Zpos p => S754_finite false p 0
| Zneg p => S754_finite true p 0
end.

(** Conversion of an integer, rounded to nearest even. *)
Definition of_Z (z : Z) : spec_float := binary_normalize prec emax z 0 false.

(** The literal m * 10^e, rounded once. *)
Definition literal (m e : Z) : spec_float :=
if 0 <=? e then of_Z (m * 10 ^ e)
else SFdiv prec emax (exact_Z m) (exact_Z (10 ^ (- e))).

(** [roundf]: to the nearest integer, halfway cases away from zero. *)
Definition round_half_away (x : spec_float) : spec_float :=
match x with
| S754_finite s m e =>
if 0 <=? e then x
else
let d := 2 ^ (- e) in
let q := Z.pos m / d in
let q' := if d <=? 2 * (Z.pos m mod d) then q + 1 else q in
if q' =? 0 then S754_zero s
else of_Z (if s then - q' else q')
| _ => x
end.

(** [(int) x]: truncation toward zero, defined when the result is an
[int]. *)
Definition truncate (x : spec_float) : option Z :=
match x with
| S754_zero _ => Some 0
| S754_finite s m e =>
let mag := if 0 <=? e then Z.pos m * 2 ^ e else Z.pos m / 2 ^ (- e) in
let z := if s then - mag else mag in
if in_int_range z then Some z else None
| _ => None
end.

#[global] Instance arith : FloatArith spec_float := {
of_int := of_Z;
lit := literal;
fadd := SFadd prec emax;
fsub := SFsub prec emax;
fmul := SFmul prec emax;
fdiv := SFdiv prec emax;
flt := SFltb;
fle := SFleb;
sqrtf := SFsqrt prec emax;
roundf := round_half_away;
to_int := truncate
}.
End Binary32.

(** ** Second reading: real numbers

    Exact arithmetic: what the float program computes when no operation
    rounds. It is meant for the inputs on which every intermediate value is
    a number: where C yields an infinity or a NaN (a division by zero, the
    square root, logarithm or fractional power of a negative number) the
    real operation has its conventional value instead. *)

Module Ideal.
Local Open Scope R_scope.

Definition literal (m e : Z) : R :=
if (0 <=? e)%Z then IZR (m * 10 ^ e) else IZR m / IZR (10 ^ (- e)).

Definition Rltb (a b : R) : bool := if Rlt_dec a b then true else false.
Definition Rleb (a b : R) : bool := if Rle_dec a b then true else false.

(** The largest integer not above [r]. *)
Definition floor (r : R) : Z := (up r - 1)%Z.

(** [roundf]: to the nearest integer, halfway cases away from zero. *)
Definition round_half_away (r : R) : R :=
if Rle_dec 0 r then IZR (floor (r + / 2)) else - IZR (floor (/ 2 - r)).

(** [(int) r]: truncation toward zero, defined when the result is an
[int]. *)
Definition truncate (r : R) : option Z :=
let z := if Rle_dec 0 r then floor r else (- floor (- r))%Z in
if in_int_range z then Some z else None.

(** [powf] for the bases this program raises to its positive constant
exponents: the real power of a positive base, and 0 at base 0. A
negative base (NaN in C) is outside this reading and is given 0. *)
Definition power (x y : R) : R := if Rlt_dec 0 x then Rpower x y else 0.

#[global] Instance arith : FloatArith R := {
of_int := IZR;
lit := literal;
fadd := Rplus;
fsub := Rminus;
fmul := Rmult;
fdiv := Rdiv;
flt := Rltb;
fle := Rleb;
sqrtf := sqrt;
roundf := round_half_away;
to_int := truncate
}.

#[global] Instance libm : Libm R := {
powf := power;
logf := ln;
exp_f := exp
}.
End Ideal.

(** ** The specification's formulas

    Definitions written from the specification's wording (sections 4.1 and
    4.2), over the real numbers, to compare the code with. *)

Module Reference.
Local Open Scope R_scope.

Section Pipeline.
Variables (w h iso : Z) (tf : transfer_function_t R).

(** Step 1: mid-tone focal-plane exposure. *)
Definition exposure : R := 10 / IZR iso.
(** Step 2: per-pixel area on a 36mm x 24mm sensor. *)
Definition pixel_area : R := (36000 * 24000) / (IZR w * IZR h).
(** Step 3: mid-tone electrons per pixel. *)
Definition mid_tone_electrons : R := 0.20 * 11260 * exposure * pixel_area.
(** Step 4: full-scale electrons per pixel. *)
Definition full_scale_electrons : R := mid_tone_electrons / mid_tone tf.

Variable i : Z.
(** Step 5: the sample point x_i = i/13 and the noise there. *)
Definition sample : R := IZR i / 13.
Definition linear_light : R := to_linear tf sample.
Definition electrons : R := full_scale_electrons * linear_light.
Definition noise_electrons : R :=
  sqrt (1.5 ^ 2 + electrons + (0.005 * electrons) ^ 2).
Definition noise_linear : R := noise_electrons / full_scale_electrons.
Definition interval_lo : R := Rmax 0 (linear_light - 2 * noise_linear).
Definition interval_hi : R := Rmin 1 (linear_light + 2 * noise_linear).
Definition slope : R :=
  (from_linear tf interval_hi - from_linear tf interval_lo)
  / (interval_hi - interval_lo).
Definition noise_encoded : R := noise_linear * slope.

(** Step 6, as claim C1 words it: quantization by rounding alone. *)
Definition rounded_amplitude : R :=
  Ideal.round_half_away (255 * 7.88 * noise_encoded).
(** Step 6, as section 4.2 words it: rounding, then the clamp. *)
Definition clamped_amplitude : R := Rmax 0 (Rmin 255 rounded_amplitude).
End Pipeline.

(** Section 4.1, HLG: the canonical OETF inverse with the constants a, b
and c, the OOTF with system gamma 1.2, and their inverses. *)
Definition hlg_a : R := 0.17883277.
Definition hlg_b : R := 0.28466892.
Definition hlg_c : R := 0.55991073.
Definition hlg_oetf_inverse (e' : R) : R :=
if Rle_dec e' 0.5 then e' ^ 2 / 3
else (exp ((e' - hlg_c) / hlg_a) + hlg_b) / 12.
Definition hlg_oetf (e : R) : R :=
if Rle_dec e (1 / 12) then sqrt (3 * e)
else hlg_a * ln (12 * e - hlg_b) + hlg_c.
Definition hlg_ootf (e : R) : R := Ideal.power e 1.2.
Definition hlg_ootf_inverse (d : R) : R := Ideal.power d (1 / 1.2).
End Reference.

(** ** Named inputs *)

(** The CICP code points of the five transfer characteristics
    (ITU-T H.273), as [aom_transfer_characteristics_t] numbers them. *)
Definition cicp_bt470m : Z := 4.
Definition cicp_bt470bg : Z := 5.
Definition cicp_srgb : Z := 13.
Definition cicp_smpte2084 : Z := 16.
Definition cicp_hlg : Z := 18.

(** Arguments from the three numbers and the curve. *)
Definition make_args {F : Type} (w h iso : Z) (tf : transfer_function_t F)
  : photon_noise_args_t F :=
  {| width := w; height := h; iso_setting := iso;
     transfer_function := tf;
     output_filename := None |}.

(** Arguments with the sRGB curve, in either reading. *)
Definition srgb_args {F : Type} {FA : FloatArith F} {LM : Libm F}
           (w h iso : Z) : photon_noise_args_t F :=
  make_args w h iso kSRgbTransferFunction.

(** The encoded x-coordinates of the 14 sample points. *)
Definition x_grid : list Z :=
  [0; 20; 39; 59; 78; 98; 118; 137; 157; 177; 196; 216; 235; 255].

(** An 8K frame at ISO 3276800, sRGB, in the real-number reading: so
    little light that every amplitude reaches the cap. *)
Definition saturated_args : photon_noise_args_t R :=
  srgb_args (FA := Ideal.arith) (LM := Ideal.libm) 8192 4320 3276800.

(** The descriptor that call produces from the zeroed one. *)
Definition saturated_film_grain : aom_film_grain_t :=
  {| apply_grain := 1;
     update_parameters := 1;
     scaling_points_y := map (fun x => (x, 255)) x_grid;
     num_y_points := 14;
     scaling_points_cb := repeat (0, 0) 10;
     num_cb_points := 0;
     scaling_points_cr := repeat (0, 0) 10;
     num_cr_points := 0;
     scaling_shift := 8;
     ar_coeff_lag := 0;
     ar_coeffs_y := repeat 0 24;
     ar_coeffs_cb := repeat 0 25;
     ar_coeffs_cr := repeat 0 25;
     ar_coeff_shift := 6;
     cb_mult := 0;
     cb_luma_mult := 0;
     cb_offset := 0;
     cr_mult := 0;
     cr_luma_mult := 0;
     cr_offset := 0;
     overlap_flag := 1;
     clip_to_restricted_range := 0;
     bit_depth := 0;
     chroma_scaling_from_luma := 0;
     grain_scale_shift := 0;
     random_seed := 7391 |}.

(** A 4K frame at ISO 25600 encoded in linear light (the identity curve),
    in single precision, and the descriptor the call produces for it from
    the zeroed one. *)
Definition linear_curve : transfer_function_t spec_float :=
  {| to_linear := fun x => x;
     from_linear := fun x => x;
     mid_tone := Binary32.literal 18 (-2) |}.

Definition linear_args : photon_noise_args_t spec_float :=
  {| width := 3840; height := 2160; iso_setting := 25600;
     transfer_function := linear_curve;
     output_filename := None |}.

Definition linear_film_grain : aom_film_grain_t :=
  {| apply_grain := 1;
     update_parameters := 1;
     scaling_points_y :=
       [(0, 6); (20, 25); (39, 35); (59, 43); (78, 50); (98, 56);
        (118, 61); (137, 66); (157, 70); (177, 75); (196, 79); (216, 83);
        (235, 86); (255, 90)];
     num_y_points := 14;
     scaling_points_cb := repeat (0, 0) 10;
     num_cb_points := 0;
     scaling_points_cr := repeat (0, 0) 10;
     num_cr_points := 0;
     scaling_shift := 8;
     ar_coeff_lag := 0;
     ar_coeffs_y := repeat 0 24;
     ar_coeffs_cb := repeat 0 25;
     ar_coeffs_cr := repeat 0 25;
     ar_coeff_shift := 6;
     cb_mult := 0;
     cb_luma_mult := 0;
     cb_offset := 0;
     cr_mult := 0;
     cr_luma_mult := 0;
     cr_offset := 0;
     overlap_flag := 1;
     clip_to_restricted_range := 0;
     bit_depth := 0;
     chroma_scaling_from_luma := 0;
     grain_scale_shift := 0;
     random_seed := 7391 |}.

(** A 46341 x 46341 frame at ISO 10, sRGB, in single precision with the C
    library [L]: both dimensions are positive [int]s, their product
    2147488281 is not. *)
Definition overflow_args (L : Libm spec_float) : photon_noise_args_t spec_float :=
  srgb_args (FA := Binary32.arith) (LM := L) 46341 46341 10.

(** The dimensions are positive and their product is an [int]. *)
Definition no_overflow (w h : Z) : Prop :=
  0 < w /\ 0 < h /\ w * h <= INT_MAX.

(** Claim C5 read in single precision: for positive [int] arguments and a
    curve of the catalog, a larger ISO setting gives a strictly smaller
    full-scale electron count. *)
Definition iso_response_strict_in_binary32 : Prop :=
  forall (L : Libm spec_float) (tf : transfer_function_t spec_float)
         (w h iso1 iso2 : Z),
    In tf (catalog (LM := L)) ->
    0 < w <= INT_MAX -> 0 < h <= INT_MAX ->
    0 < iso1 -> iso1 < iso2 -> iso2 <= INT_MAX ->
    flt (max_electrons_per_pixel (make_args w h iso2 tf))
        (max_electrons_per_pixel (make_args w h iso1 tf)) = true.

(** ** Properties of a curve over the reals *)

(** [f] is non-decreasing on the closed interval from [lo] to [hi], and on
    the one that leaves [lo] out. *)
Definition nondecreasing_between (f : R -> R) (lo hi : R) : Prop :=
  forall x y : R, (lo <= x -> x <= y -> y <= hi -> f x <= f y)%R.

Definition nondecreasing_above (f : R -> R) (lo hi : R) : Prop :=
  forall x y : R, (lo < x -> x <= y -> y <= hi -> f x <= f y)%R.



(** [f] may step down between two points of [0,1], by at most [delta]. *)
Definition drops_at_most (delta : R) (f : R -> R) : Prop :=
  forall x y : R, (0 <= x -> x <= y -> y <= 1 -> f x - delta <= f y)%R.




(** The terms x^k / k! of the exponential series, by their recurrence, and
    the partial sums of the alternating series of exp (-x). *)
Fixpoint exp_term (x : R) (k : nat) : R :=
  match k with
  | O => 1%R
  | S j => (exp_term x j * x / INR (S j))%R
  end.

Definition exp_neg_partial (x : R) (n : nat) : R :=
  sum_f_R0 (fun i => ((-1) ^ i * exp_term x i)%R) n.

(** ** Relations between descriptors, used to state the frame properties *)

(** Every field other than [scaling_points_y] has the same value. *)
Definition same_outside_luma_points (a b : aom_film_grain_t) : Prop :=
  apply_grain a = apply_grain b /\
  update_parameters a = update_parameters b /\
  num_y_points a = num_y_points b /\
  scaling_points_cb a = scaling_points_cb b /\
  num_cb_points a = num_cb_points b /\
  scaling_points_cr a = scaling_points_cr b /\
  num_cr_points a = num_cr_points b /\
  scaling_shift a = scaling_shift b /\
  ar_coeff_lag a = ar_coeff_lag b /\
  ar_coeffs_y a = ar_coeffs_y b /\
  ar_coeffs_cb a = ar_coeffs_cb b /\
  ar_coeffs_cr a = ar_coeffs_cr b /\
  ar_coeff_shift a = ar_coeff_shift b /\
  cb_mult a = cb_mult b /\
  cb_luma_mult a = cb_luma_mult b /\
  cb_offset a = cb_offset b /\
  cr_mult a = cr_mult b /\
  cr_luma_mult a = cr_luma_mult b /\
  cr_offset a = cr_offset b /\
  overlap_flag a = overlap_flag b /\
  clip_to_restricted_range a = clip_to_restricted_range b /\
  bit_depth a = bit_depth b /\
  chroma_scaling_from_luma a = chroma_scaling_from_luma b /\
  grain_scale_shift a = grain_scale_shift b /\
  random_seed a = random_seed b.

(** The fields [generate_photon_noise] never assigns, and the elements of
    the two chroma coefficient arrays after the first. *)
Definition untouched_fields_equal (a b : aom_film_grain_t) : Prop :=
  ar_coeffs_y a = ar_coeffs_y b /\
  scaling_points_cb a = scaling_points_cb b /\
  scaling_points_cr a = scaling_points_cr b /\
  clip_to_restricted_range a = clip_to_restricted_range b /\
  bit_depth a = bit_depth b /\
  grain_scale_shift a = grain_scale_shift b /\
  tl (ar_coeffs_cb a) = tl (ar_coeffs_cb b) /\
  tl (ar_coeffs_cr a) = tl (ar_coeffs_cr b).

(** The constants assigned after the loop. *)
Definition fixed_fields_set (fg : aom_film_grain_t) : Prop :=
  apply_grain fg = 1 /\
  update_parameters fg = 1 /\
  num_y_points fg = 14 /\
  num_cb_points fg = 0 /\
  num_cr_points fg = 0 /\
  scaling_shift fg = 8 /\
  ar_coeff_lag fg = 0 /\
  hd 0 (ar_coeffs_cb fg) = 0 /\
  hd 0 (ar_coeffs_cr fg) = 0 /\
  ar_coeff_shift fg = 6 /\
  cb_mult fg = 0 /\ cb_luma_mult fg = 0 /\ cb_offset fg = 0 /\
  cr_mult fg = 0 /\ cr_luma_mult fg = 0 /\ cr_offset fg = 0 /\
  overlap_flag fg = 1 /\
  random_seed fg = 7391 /\
  chroma_scaling_from_luma fg = 0.

(** ** The command line and [main] *)

Inductive exit_status : Type := EXIT_SUCCESS | EXIT_FAILURE.
Inductive stream : Type := to_stdout | to_stderr.

(** How a call ends: it returns; or the process ends in [exit] after some
    output, in [fatal], or inside a function of the argument library
    (common/args.h, which reports a malformed value itself); or the call
    runs into undefined behaviour; or the fuel given to a loop ran out. *)
Inductive outcome (A : Type) : Type :=
| Return (a : A)
| Exit (status : exit_status) (printed : list (stream * string))
| FatalExit (fmt : string) (arg : string + Z)
| LibraryExit
| Undefined
| OutOfFuel.
Arguments Return {A} a.
Arguments Exit {A} status printed.
Arguments FatalExit {A} fmt arg.
Arguments LibraryExit {A}.
Arguments Undefined {A}.
Arguments OutOfFuel {A}.

Definition bind {A B : Type} (m : outcome A) (k : A -> outcome B)
  : outcome B :=
  match m with
  | Return a => k a
  | Exit s p => Exit s p
  | FatalExit f a => FatalExit f a
  | LibraryExit => LibraryExit
  | Undefined => Undefined
  | OutOfFuel => OutOfFuel
  end.

(** A call of the argument library: [None] when it ends the process. *)
Definition library {A : Type} (r : option A) : outcome A :=
  match r with Some a => Return a | None => LibraryExit end.

Definition of_result {A : Type} (r : result A) : outcome A :=
  match r with
  | Returns a => Return a
  | Fatal fmt arg => FatalExit fmt (inr arg)
  end.

Declare Scope outcome_scope.
Delimit Scope outcome_scope with outcome.
Notation "x <- m ;; k" := (bind m (fun x => k))
  (at level 61, m at next level, right associativity) : outcome_scope.

(** [struct arg_def] as [ARG_DEF] and [ARG_DEF_ENUM] initialise it. *)
Record arg_def_t : Type := {
  short_name : string;
  long_name : string;
  has_val : Z;
  desc : string;
  enums : list (string * Z)
}.
Definition ARG_DEF (s l : string) (v : Z) (d : string) : arg_def_t :=
  {| short_name := s; long_name := l; has_val := v; desc := d; enums := [] |}.
Definition ARG_DEF_ENUM (s l : string) (v : Z) (d : string)
           (e : list (string * Z)) : arg_def_t :=
  {| short_name := s; long_name := l; has_val := v; desc := d; enums := e |}.

Definition help_arg : arg_def_t :=
  ARG_DEF "h" "help" 0 "Show the available options".
Definition width_arg : arg_def_t :=
  ARG_DEF "w" "width" 1 "Width of the image in pixels (required)".
Definition height_arg : arg_def_t :=
  ARG_DEF "l" "height" 1 "Height of the image in pixels (required)".
Definition iso_arg : arg_def_t :=
  ARG_DEF "i" "iso" 1 "ISO setting indicative of the light level (required)".
Definition output_arg : arg_def_t :=
  ARG_DEF "o" "output" 1
    "Output file to which to write the film grain table (required)".

(** The double quote and the newline of the messages. *)
Definition dquote : string := String (ascii_of_nat 34) EmptyString.
Definition newline : string := String (ascii_of_nat 10) EmptyString.

Definition set_width {F : Type} (a : photon_noise_args_t F) (v : Z)
  : photon_noise_args_t F :=
  {| width := v; height := height a; iso_setting := iso_setting a;
     transfer_function := transfer_function a;
     output_filename := output_filename a |}.
Definition set_height {F : Type} (a : photon_noise_args_t F) (v : Z)
  : photon_noise_args_t F :=
  {| width := width a; height := v; iso_setting := iso_setting a;
     transfer_function := transfer_function a;
     output_filename := output_filename a |}.
Definition set_iso_setting {F : Type} (a : photon_noise_args_t F) (v : Z)
  : photon_noise_args_t F :=
  {| width := width a; height := height a; iso_setting := v;
     transfer_function := transfer_function a;
     output_filename := output_filename a |}.
Definition set_transfer_function {F : Type} (a : photon_noise_args_t F)
           (v : transfer_function_t F) : photon_noise_args_t F :=
  {| width := width a; height := height a; iso_setting := iso_setting a;
     transfer_function := v;
     output_filename := output_filename a |}.
Definition set_output_filename {F : Type} (a : photon_noise_args_t F)
           (v : option string) : photon_noise_args_t F :=
  {| width := width a; height := height a; iso_setting := iso_setting a;
     transfer_function := transfer_function a;
     output_filename := v |}.

(** The locals of [parse_args] that the loop updates, with the arguments
    it fills. *)
Record parse_state (F : Type) : Type := {
  parsed : photon_noise_args_t F;
  width_set : Z;
  height_set : Z;
  iso_set : Z;
  output_set : Z
}.
Arguments parsed {F} _.
Arguments width_set {F} _.
Arguments height_set {F} _.
Arguments iso_set {F} _.
Arguments output_set {F} _.

(** [struct aom_internal_error_info], the two fields [main] reads. *)
Record error_info_t : Type := {
  has_detail : Z;
  detail : string
}.

Section CommandLine.
Context {F : Type} {FA : FloatArith F} {LM : Libm F}.
Local Open Scope outcome_scope.

(** The enumerators of [aom_transfer_characteristics_t]. *)
Variables AOM_CICP_TC_BT_470_M AOM_CICP_TC_BT_470_B_G AOM_CICP_TC_SRGB
          AOM_CICP_TC_SMPTE_2084 AOM_CICP_TC_HLG : Z.

(** The names the option [--transfer-function] accepts (the array ends
    with [ARG_ENUM_LIST_END]). *)
Definition transfer_functions : list (string * Z) :=
  [ ("bt470m"%string, AOM_CICP_TC_BT_470_M);
    ("bt470bg"%string, AOM_CICP_TC_BT_470_B_G);
    ("srgb"%string, AOM_CICP_TC_SRGB);
    ("smpte2084"%string, AOM_CICP_TC_SMPTE_2084);
    ("hlg"%string, AOM_CICP_TC_HLG) ].

Definition transfer_function_arg : arg_def_t :=
  ARG_DEF_ENUM "t" "transfer-function" 1
    "Transfer function used by the encoded image (default = sRGB)"
    transfer_functions.

(** [args], the array local to [parse_args] (it ends with [NULL]). *)
Definition args : list arg_def_t :=
  [ help_arg; width_arg; height_arg; iso_arg; output_arg;
    transfer_function_arg ].

(** The argument library (common/args.h), not among the sources:
    [struct arg] with the two fields read here, the matcher and the two
    parsers, and the usage text. A call that does not return gives
    [None]. *)
Variable arg : Type.
Variable argv_step : arg -> Z.
Variable set_argv_step : arg -> Z -> arg.
Variable val : arg -> option string.
Variable arg_match : arg -> arg_def_t -> list string -> option (bool * arg).
Variable arg_parse_int : arg -> option Z.
Variable arg_parse_enum : arg -> option Z.
Variable arg_show_usage : list arg_def_t -> string.

Let lookup : Z -> result (transfer_function_t F) :=
  find_transfer_function AOM_CICP_TC_BT_470_M AOM_CICP_TC_BT_470_B_G
    AOM_CICP_TC_SRGB AOM_CICP_TC_SMPTE_2084 AOM_CICP_TC_HLG.

Section ParseArgs.
Variable argv : list string.
Let argc : Z := Z.of_nat (List.length argv).

(** One pass through the body of the loop, at index [i]; [argv + i] with a
    negative [i] is outside the array. *)
Definition parse_arg (i : Z) (a : arg) (st : parse_state F)
  : outcome (arg * parse_state F) :=
  if i <? 0 then Undefined else
  let a := set_argv_step a 1 in
  let argv_i := skipn (Z.to_nat i) argv in
  r <- library (arg_match a help_arg argv_i) ;;
  if fst r then Exit EXIT_SUCCESS [(to_stdout, arg_show_usage args)]
  else
  r <- library (arg_match (snd r) width_arg argv_i) ;;
  if fst r then
    v <- library (arg_parse_int (snd r)) ;;
    Return (snd r,
            {| parsed := set_width (parsed st) v;
               width_set := 1; height_set := height_set st;
               iso_set := iso_set st; output_set := output_set st |})
  else
  r <- library (arg_match (snd r) height_arg argv_i) ;;
  if fst r then
    v <- library (arg_parse_int (snd r)) ;;
    Return (snd r,
            {| parsed := set_height (parsed st) v;
               width_set := width_set st; height_set := 1;
               iso_set := iso_set st; output_set := output_set st |})
  else
  r <- library (arg_match (snd r) iso_arg argv_i) ;;
  if fst r then
    v <- library (arg_parse_int (snd r)) ;;
    Return (snd r,
            {| parsed := set_iso_setting (parsed st) v;
               width_set := width_set st; height_set := height_set st;
               iso_set := 1; output_set := output_set st |})
  else
  r <- library (arg_match (snd r) output_arg argv_i) ;;
  if fst r then
    Return (snd r,
            {| parsed := set_output_filename (parsed st) (val (snd r));
               width_set := width_set st; height_set := height_set st;
               iso_set := iso_set st; output_set := 1 |})
  else
  r <- library (arg_match (snd r) transfer_function_arg argv_i) ;;
  if fst r then
    tc <- library (arg_parse_enum (snd r)) ;;
    tf <- of_result (lookup tc) ;;
    Return (snd r,
            {| parsed := set_transfer_function (parsed st) tf;
               width_set := width_set st; height_set := height_set st;
               iso_set := iso_set st; output_set := output_set st |})
  else
    FatalExit
      ("unrecognized argument " ++ dquote ++ "%s" ++ dquote
       ++ ", see --help for available options")%string
      (inl (nth (Z.to_nat i) argv ""%string)).

(** [for (i = ...; i < argc; i += arg.argv_step)]: [i] is an [int] and
    [argv_step] an [unsigned int]. *)
Fixpoint parse_loop (fuel : nat) (i : Z) (a : arg) (st : parse_state F)
  : outcome (parse_state F) :=
  if i <? argc then
    match fuel with
    | O => OutOfFuel
    | S fuel' =>
        r <- parse_arg i a st ;;
        parse_loop fuel' (int_wrap (i + argv_step (fst r))) (fst r) (snd r)
    end
  else Return st.

(** [parse_args], from the contents of [*photon_noise_args] and of the
    local [arg] at entry. *)
Definition parse_args (photon_noise_args : photon_noise_args_t F) (a : arg)
  : outcome (photon_noise_args_t F) :=
  tf <- of_result (lookup AOM_CICP_TC_SRGB) ;;
  st <- parse_loop (List.length argv) 1 a
        {| parsed := set_transfer_function photon_noise_args tf;
           width_set := 0; height_set := 0; iso_set := 0; output_set := 0 |} ;;
  if width_set st =? 0 then
    Exit EXIT_FAILURE 
      [(to_stderr, ("Missing required parameter --width" ++ newline)%string)]
  else if height_set st =? 0 then
    Exit EXIT_FAILURE 
      [(to_stderr, ("Missing required parameter --height" ++ newline)%string)]
  else if iso_set st =? 0 then
    Exit EXIT_FAILURE 
      [(to_stderr, ("Missing required parameter --iso" ++ newline)%string)]
  else if output_set st =? 0 then
    Exit EXIT_FAILURE 
      [(to_stderr, ("Missing required parameter --output" ++ newline)%string)]
  else Return (parsed st).

(** The option [d] matches the command line at some index and leaves
    [a']. *)
Definition matched (d : arg_def_t) (a' : arg) : Prop :=
  exists (i : Z) (a : arg),
    0 <= i < argc /\
    arg_match a d (skipn (Z.to_nat i) argv) = Some (true, a').

(** What the loop of [parse_args] keeps true of its locals: a flag that is
    set comes with a matched argument that gave the field its value, and
    the curve is the initial one [tf0] or that of a parsed identifier. *)
Definition parse_invariant (tf0 : transfer_function_t F)
           (st : parse_state F) : Prop :=
  (width_set st <> 0 ->
   exists a', matched width_arg a' /\
              arg_parse_int a' = Some (width (parsed st))) /\
  (height_set st <> 0 ->
   exists a', matched height_arg a' /\
              arg_parse_int a' = Some (height (parsed st))) /\
  (iso_set st <> 0 ->
   exists a', matched iso_arg a' /\
              arg_parse_int a' = Some (iso_setting (parsed st))) /\
  (output_set st <> 0 ->
   exists a', matched output_arg a' /\
              output_filename (parsed st) = val a') /\
  (transfer_function (parsed st) = tf0 \/
   exists a' tc, matched transfer_function_arg a' /\
                 arg_parse_enum a' = Some tc /\
                 lookup tc = Returns (transfer_function (parsed st))).

(** What [parse_args] has established when it returns [pa]: each of the
    four required options was matched somewhere on the command line and
    its field holds the value parsed from a matching argument (the value
    itself for the file name); the curve is sRGB unless
    [--transfer-function] was matched, and then it is the curve of a parsed
    identifier; in both cases it is one of the catalog. *)
Definition parse_postcondition (pa : photon_noise_args_t F) : Prop :=
  (exists a', matched width_arg a' /\
              arg_parse_int a' = Some (width pa)) /\
  (exists a', matched height_arg a' /\
              arg_parse_int a' = Some (height pa)) /\
  (exists a', matched iso_arg a' /\
              arg_parse_int a' = Some (iso_setting pa)) /\
  (exists a', matched output_arg a' /\ output_filename pa = val a') /\
  (transfer_function pa = kSRgbTransferFunction \/
   exists a' tc, matched transfer_function_arg a' /\
                 arg_parse_enum a' = Some tc /\
                 lookup tc = Returns (transfer_function pa)) /\
  In (transfer_function pa) catalog.
End ParseArgs.

(** [memset(&photon_noise_args, 0, sizeof(photon_noise_args))] in [main];
    [unassigned] stands for the null pointer it leaves in
    [transfer_function]. *)
Definition zeroed_args (unassigned : transfer_function_t F)
  : photon_noise_args_t F :=
  {| width := 0; height := 0; iso_setting := 0;
     transfer_function := unassigned; output_filename := None |}.

Definition zeroed_error_info : error_info_t :=
  {| has_detail := 0; detail := ""%string |}.

(** What [main] prints when the writer fails. *)
Definition write_failure (error_info : error_info_t)
  : list (stream * string) :=
  [(to_stderr, "Failed to write film grain table"%string)]
  ++ (if has_detail error_info =? 0 then []
      else [(to_stderr, (": " ++ detail error_info)%string)])
  ++ [(to_stderr, newline)].

(** [main]. The table API (aom_dsp/grain_table.h) is not among the
    sources: [aom_film_grain_table_append] gives the table with the entry
    added, [aom_film_grain_table_write] the error code and the error
    information it leaves, both for the file system the program runs on;
    [aom_film_grain_table_free] returns nothing and the table is not used
    after it. *)
Section Main.
Variable table : Type.
Variable zeroed_table : table.
Variable aom_film_grain_table_append :
  table -> Z -> Z -> aom_film_grain_t -> table.
Variable aom_film_grain_table_write :
  table -> option string -> error_info_t -> Z * error_info_t.
Variable AOM_CODEC_OK : Z.

Definition main (unassigned : transfer_function_t F) (argv : list string)
           (a : arg) : outcome (exit_status * list (stream * string)) :=
  photon_noise_args <- parse_args argv (zeroed_args unassigned) a ;;
  match generate_photon_noise photon_noise_args zeroed_film_grain with
  | None => Undefined
  | Some film_grain =>
      let film_grain_table :=
        aom_film_grain_table_append zeroed_table 0 9223372036854775807
          film_grain in
      let r := aom_film_grain_table_write film_grain_table
                 (output_filename photon_noise_args) zeroed_error_info in
      if fst r =? AOM_CODEC_OK then Return (EXIT_SUCCESS, [])
      else Return (EXIT_FAILURE, write_failure (snd r))
  end.

(** A run of [main] that returned [status] after printing [printed]: the
    command line gave the arguments [pa] whatever [memset] left in the
    curve, the call on the zeroed descriptor gave [fg] with its 14 points
    on the grid and its constants, the writer was handed the table of the
    one entry [fg] for the times 0 to 2^63 - 1 with the file that
    [--output] named, and the status tells whether it reported
    [AOM_CODEC_OK]. *)
Definition main_postcondition (argv : list string) (a : arg)
           (status : exit_status) (printed : list (stream * string))
  : Prop :=
  exists (pa : photon_noise_args_t F) (fg : aom_film_grain_t),
    (forall u, parse_args argv (zeroed_args u) a = Return pa) /\
    generate_photon_noise pa zeroed_film_grain = Some fg /\
    (exists a', matched argv output_arg a' /\
                output_filename pa = val a') /\
    In (transfer_function pa) catalog /\
    map fst (scaling_points_y fg) = x_grid /\
    fixed_fields_set fg /\
    untouched_fields_equal zeroed_film_grain fg /\
    let r := aom_film_grain_table_write
               (aom_film_grain_table_append zeroed_table 0 (2 ^ 63 - 1) fg)
               (output_filename pa) zeroed_error_info in
    (status = EXIT_SUCCESS /\ printed = [] /\ fst r = AOM_CODEC_OK \/
     status = EXIT_FAILURE /\ printed = write_failure (snd r) /\
     fst r <> AOM_CODEC_OK).
End Main.
End CommandLine.

(** A frame of width 0 and a frame at ISO 0, in single precision, with the
    identity curve. *)
Definition zero_width_args : photon_noise_args_t spec_float :=
  {| width := 0; height := 2160; iso_setting := 25600;
     transfer_function := linear_curve;
     output_filename := None |}.

Definition zero_iso_args : photon_noise_args_t spec_float :=
  {| width := 3840; height := 2160; iso_setting := 0;
     transfer_function := linear_curve;
     output_filename := None |}.

(** A small argument library to run [parse_args] on: an option is written
    [--name], its value is the next argument, and a value that is missing
    ends the process. The value of [struct arg] is the pair of [val] and
    [argv_step]. *)
Definition sample_arg : Type := option string * Z.

Definition sample_arg_match (a : sample_arg) (d : arg_def_t)
           (l : list string) : option (bool * sample_arg) :=
  match l with
  | [] => Some (false, a)
  | s :: rest =>
      if String.eqb s ("--" ++ long_name d)%string then
        if has_val d =? 0 then Some (true, (None, 1))
        else match rest with
             | v :: _ => Some (true, (Some v, 2))
             | [] => None
             end
      else Some (false, a)
  end.

Definition sample_arg_parse_int (a : sample_arg) : option Z :=
  match fst a with
  | Some s => option_map Z.of_uint (NilEmpty.uint_of_string s)
  | None => None
  end.

Definition sample_arg_parse_enum (a : sample_arg) : option Z :=
  match fst a with
  | Some s =>
      option_map snd
        (find (fun e => String.eqb (fst e) s)
              (transfer_functions cicp_bt470m cicp_bt470bg cicp_srgb
                 cicp_smpte2084 cicp_hlg))
  | None => None
  end.

Definition sample_parse_args {F : Type} {FA : FloatArith F} {LM : Libm F}
  : list string -> photon_noise_args_t F -> sample_arg ->
    outcome (photon_noise_args_t F) :=
  parse_args cicp_bt470m cicp_bt470bg cicp_srgb cicp_smpte2084 cicp_hlg
    sample_arg snd (fun a n => (fst a, n)) fst sample_arg_match
    sample_arg_parse_int sample_arg_parse_enum (fun _ => ""%string).

(** A command line that selects PQ, and the arguments it stands for. *)
Definition sample_argv : list string :=
  [ "photon_noise_table"; "--width"; "3840"; "--height"; "2160";
    "--transfer-function"; "smpte2084"; "--iso"; "25600";
    "--output"; "noise.tbl" ]%string.

Definition sample_parsed {F : Type} {FA : FloatArith F} {LM : Libm F}
  : photon_noise_args_t F :=
  {| width := 3840; height := 2160; iso_setting := 25600;
     transfer_function := kPqTransferFunction;
     output_filename := Some "noise.tbl"%string |}.

(** A table that is the list of its entries and a writer that always
    succeeds, with 0 for [AOM_CODEC_OK]; a C library whose three functions
    return their first argument; the command line of a 4K sRGB frame. *)
Definition sample_table : Type := list (Z * Z * aom_film_grain_t).

Definition sample_libm : Libm spec_float :=
  {| powf := fun x _ => x; logf := fun x => x; exp_f := fun x => x |}.

Definition sample_main
  : transfer_function_t spec_float -> list string -> sample_arg ->
    outcome (exit_status * list (stream * string)) :=
  main (F := spec_float) (LM := sample_libm)
    cicp_bt470m cicp_bt470bg cicp_srgb cicp_smpte2084 cicp_hlg
    sample_arg snd (fun a n => (fst a, n)) fst sample_arg_match
    sample_arg_parse_int sample_arg_parse_enum (fun _ => ""%string)
    sample_table [] (fun t t0 t1 fg => t ++ [(t0, t1, fg)])
    (fun _ _ e => (0, e)) 0.

Definition srgb_argv : list string :=
  [ "photon_noise_table"; "--width"; "3840"; "--height"; "2160";
    "--iso"; "25600"; "--output"; "noise.tbl" ]%string.

(** ** Degenerate values *)

(** A float that is an infinity or a NaN. *)
Definition unbounded (x : spec_float) : Prop :=
  x = S754_nan \/ exists s, x = S754_infinity s.

(** ** Properties *)

(** Reduce the projections of a descriptor that was built field by field,
    and nothing else. *)
Ltac fg_proj :=
  cbn [apply_grain update_parameters scaling_points_y num_y_points
       scaling_points_cb num_cb_points scaling_points_cr num_cr_points
       scaling_shift ar_coeff_lag ar_coeffs_y ar_coeffs_cb ar_coeffs_cr
       ar_coeff_shift cb_mult cb_luma_mult cb_offset cr_mult cr_luma_mult
       cr_offset overlap_flag clip_to_restricted_range bit_depth
       chroma_scaling_from_luma grain_scale_shift random_seed
       set_scaling_point set_num_y_points set_fixed_fields] in *.

(** *** Arrays and the loop *)

Lemma list_set_length {A : Type} (i : nat) (v : A) (l : list A) :
  List.length (list_set i v l) = List.length l.
Proof.
  revert i; induction l as [|h t IH]; intros [|i]; simpl; auto.
Qed.

Lemma nth_error_list_set_same {A : Type} (i : nat) (v : A) (l : list A) :
  (i < List.length l)%nat -> nth_error (list_set i v l) i = Some v.
Proof.
  revert i; induction l as [|h t IH]; intros [|i] Hi; simpl in *;
    try lia; auto.
  apply IH; lia.
Qed.

Lemma nth_error_list_set_other {A : Type} (i j : nat) (v : A) (l : list A) :
  i <> j -> nth_error (list_set i v l) j = nth_error l j.
Proof.
  revert i j; induction l as [|h t IH]; intros [|i] [|j] Hij; simpl;
    try congruence; auto.
Qed.

Lemma tl_list_set_0 {A : Type} (v : A) (l : list A) :
  tl (list_set 0 v l) = tl l.
Proof. destruct l; reflexivity. Qed.

Lemma hd_list_set_0 {A : Type} (d v : A) (l : list A) :
  l <> [] -> hd d (list_set 0 v l) = v.
Proof. destruct l; simpl; congruence. Qed.

Lemma same_outside_luma_points_refl (a : aom_film_grain_t) :
  same_outside_luma_points a a.
Proof. unfold same_outside_luma_points; repeat split. Qed.

Lemma same_outside_luma_points_trans (a b c : aom_film_grain_t) :
  same_outside_luma_points a b -> same_outside_luma_points b c ->
  same_outside_luma_points a c.
Proof.
  unfold same_outside_luma_points; intros Hab Hbc.
  repeat match goal with H : _ /\ _ |- _ => destruct H as [? H] end.
  repeat split; congruence.
Qed.

Section LoopFacts.
Context {F : Type} {FA : FloatArith F}.
Variable args : photon_noise_args_t F.

Lemma set_scaling_point_frame (fg : aom_film_grain_t) (i : Z) (p : Z * Z) :
same_outside_luma_points fg (set_scaling_point fg i p).
Proof. unfold same_outside_luma_points; repeat split. Qed.

Lemma loop_body_inv (i : Z) (fg fg' : aom_film_grain_t) :
loop_body args i fg = Some fg' ->
exists p, scaling_point args (num_y_points fg) i = Some p /\
    fg' = set_scaling_point fg i p.
Proof.
unfold loop_body.
destruct (scaling_point args (num_y_points fg) i) as [p|];
[|discriminate].
intros [= <-]; eauto.
Qed.

(** What [k] iterations from index [i] leave behind: the rows [i] to
[i + k - 1] hold the scaling points computed for them, the other rows
and the other fields are as before. *)
Lemma scaling_loop_inv (k : nat) :
forall (i : Z) (fg fg' : aom_film_grain_t),
0 <= i ->
(Z.to_nat i + k <= List.length (scaling_points_y fg))%nat ->
scaling_loop args k i fg = Some fg' ->
same_outside_luma_points fg fg' /\
List.length (scaling_points_y fg') = List.length (scaling_points_y fg) /\
(forall j, i <= j < i + Z.of_nat k ->
 exists p, scaling_point args (num_y_points fg) j = Some p /\
         nth_error (scaling_points_y fg') (Z.to_nat j) = Some p) /\
(forall j : nat, (j < Z.to_nat i \/ Z.to_nat i + k <= j)%nat ->
 nth_error (scaling_points_y fg') j
 = nth_error (scaling_points_y fg) j).
Proof.
induction k as [|k IH]; intros i fg fg' Hi Hlen Hrun; simpl in Hrun.
- injection Hrun as <-.
split; [|split; [|split]];
auto using same_outside_luma_points_refl.
intros j Hj; lia.
- destruct (loop_body args i fg) as [fg1|] eqn:Hbody; [|discriminate].
apply loop_body_inv in Hbody as (p & Hp & ->).
apply IH in Hrun as (Hframe & Hl & Hin & Hout); cycle 1.
+ lia.
+ simpl. rewrite list_set_length.
replace (Z.to_nat (i + 1)) with (S (Z.to_nat i)) by lia. lia.
+ simpl in Hl, Hin, Hout. rewrite list_set_length in Hl.
split; [|split; [|split]].
* eapply same_outside_luma_points_trans;
  [apply set_scaling_point_frame | exact Hframe].
* exact Hl.
* intros j Hj.
destruct (Z.eq_dec j i) as [->|Hne].
-- exists p; split; [exact Hp|].
   rewrite Hout by lia.
   apply nth_error_list_set_same. lia.
-- apply Hin. lia.
* intros j Hj. rewrite Hout by lia.
apply nth_error_list_set_other. lia.
Qed.

(** The loop runs to its end exactly when each of its [k] conversions to
[int] is defined. *)
Lemma scaling_loop_defined (k : nat) :
forall (i : Z) (fg : aom_film_grain_t),
(forall j, i <= j < i + Z.of_nat k ->
 scaling_point args (num_y_points fg) j <> None) ->
exists fg', scaling_loop args k i fg = Some fg'.
Proof.
induction k as [|k IH]; intros i fg Hdef; simpl.
- eauto.
- unfold loop_body.
destruct (scaling_point args (num_y_points fg) i) as [p|] eqn:Hp.
+ apply IH. intros j Hj. simpl. apply Hdef. lia.
+ exfalso. apply (Hdef i); [lia | exact Hp].
Qed.
End LoopFacts.

(** *** The whole function *)

Section GenerateFacts.
Context {F : Type} {FA : FloatArith F}.
Variable args : photon_noise_args_t F.

Lemma scaling_loop_frame (k : nat) :
forall (i : Z) (fg fg' : aom_film_grain_t),
scaling_loop args k i fg = Some fg' ->
same_outside_luma_points fg fg'.
Proof.
induction k as [|k IH]; intros i fg fg' Hrun; simpl in Hrun.
- injection Hrun as <-. apply same_outside_luma_points_refl.
- destruct (loop_body args i fg) as [fg1|] eqn:Hbody; [|discriminate].
apply loop_body_inv in Hbody as (p & _ & ->).
eapply same_outside_luma_points_trans;
[apply set_scaling_point_frame | eapply IH; exact Hrun].
Qed.

(** The call splits into the loop and the assignments after it. *)
Lemma generate_photon_noise_split (fg0 fg : aom_film_grain_t) :
generate_photon_noise args fg0 = Some fg ->
exists fg1,
scaling_loop args 14 0 (set_num_y_points fg0 14) = Some fg1 /\
fg = set_fixed_fields fg1.
Proof.
unfold generate_photon_noise. cbn [num_y_points set_num_y_points].
change (Z.to_nat 14) with 14%nat.
destruct (scaling_loop args 14 0 (set_num_y_points fg0 14)) as [fg1|];
[|discriminate].
intros [= <-]. eauto.
Qed.

(** Fields the function never assigns keep their value, whatever the
descriptor held before the call. *)
Lemma generate_photon_noise_frame (fg0 fg : aom_film_grain_t) :
generate_photon_noise args fg0 = Some fg ->
untouched_fields_equal fg0 fg.
Proof.
intros Hgen.
apply generate_photon_noise_split in Hgen as (fg1 & Hloop & ->).
apply scaling_loop_frame in Hloop.
unfold same_outside_luma_points in Hloop; fg_proj.
repeat match goal with H : _ /\ _ |- _ => destruct H as [? H] end.
unfold untouched_fields_equal; fg_proj.
rewrite !tl_list_set_0.
repeat split; congruence.
Qed.

(** The constants are assigned whatever the arguments are. *)
Lemma generate_photon_noise_fixed (fg0 fg : aom_film_grain_t) :
film_grain_wf fg0 ->
generate_photon_noise args fg0 = Some fg ->
fixed_fields_set fg.
Proof.
intros (_ & Hcb & Hcr) Hgen.
apply generate_photon_noise_split in Hgen as (fg1 & Hloop & ->).
apply scaling_loop_frame in Hloop.
unfold same_outside_luma_points in Hloop; fg_proj.
repeat match goal with H : _ /\ _ |- _ => destruct H as [? H] end.
unfold fixed_fields_set; fg_proj.
assert (Hcb' : ar_coeffs_cb fg1 <> []).
{ replace (ar_coeffs_cb fg1) with (ar_coeffs_cb fg0) by congruence.
intros E; rewrite E in Hcb; discriminate. }
assert (Hcr' : ar_coeffs_cr fg1 <> []).
{ replace (ar_coeffs_cr fg1) with (ar_coeffs_cr fg0) by congruence.
intros E; rewrite E in Hcr; discriminate. }
rewrite !hd_list_set_0 by assumption.
repeat split; congruence.
Qed.

(** The 14 rows of [scaling_points_y] after the call are the 14 scaling
points. *)
Lemma generate_photon_noise_points (fg0 fg : aom_film_grain_t) :
film_grain_wf fg0 ->
generate_photon_noise args fg0 = Some fg ->
List.length (scaling_points_y fg) = 14%nat /\
forall j, 0 <= j < 14 ->
exists p, scaling_point args 14 j = Some p /\
      nth_error (scaling_points_y fg) (Z.to_nat j) = Some p.
Proof.
intros (Hlen & _) Hgen.
apply generate_photon_noise_split in Hgen as (fg1 & Hloop & ->).
apply scaling_loop_inv in Hloop as (_ & Hl & Hin & _);
[| lia | fg_proj; rewrite Hlen; cbn; lia].
fg_proj. split; [congruence|].
intros j Hj. apply Hin. lia.
Qed.

(** The call is defined exactly when the 14 scaling points are. *)
Lemma generate_photon_noise_defined (fg0 : aom_film_grain_t) :
(forall j, 0 <= j < 14 -> scaling_point args 14 j <> None) ->
exists fg, generate_photon_noise args fg0 = Some fg.
Proof.
intros Hdef.
destruct (scaling_loop_defined args 14 0 (set_num_y_points fg0 14))
as [fg1 Hfg1].
{ intros j Hj. fg_proj. apply Hdef. lia. }
exists (set_fixed_fields fg1).
unfold generate_photon_noise. cbn [num_y_points set_num_y_points].
change (Z.to_nat 14) with 14%nat. rewrite Hfg1. reflexivity.
Qed.

(** Two lists of the same length with the same rows are equal. *)
Lemma nth_error_ext {A : Type} (l1 l2 : list A) :
List.length l1 = List.length l2 ->
(forall j, (j < List.length l1)%nat -> nth_error l1 j = nth_error l2 j) ->
l1 = l2.
Proof.
revert l2; induction l1 as [|a l1 IH]; intros [|b l2] Hlen Hnth;
simpl in *; try discriminate; auto.
f_equal.
- specialize (Hnth 0%nat ltac:(lia)). simpl in Hnth. congruence.
- apply IH; [lia|]. intros j Hj. apply (Hnth (S j)). lia.
Qed.

(** The scaling points written do not depend on the descriptor passed
in. *)
Lemma generate_photon_noise_points_eq (fg1 fg2 r1 r2 : aom_film_grain_t) :
film_grain_wf fg1 -> film_grain_wf fg2 ->
generate_photon_noise args fg1 = Some r1 ->
generate_photon_noise args fg2 = Some r2 ->
scaling_points_y r1 = scaling_points_y r2.
Proof.
intros Hwf1 Hwf2 Hg1 Hg2.
destruct (generate_photon_noise_points _ _ Hwf1 Hg1) as [Hl1 Hp1].
destruct (generate_photon_noise_points _ _ Hwf2 Hg2) as [Hl2 Hp2].
apply nth_error_ext; [congruence|].
intros j Hj.
destruct (Hp1 (Z.of_nat j) ltac:(lia)) as (p1 & Hs1 & Hn1).
destruct (Hp2 (Z.of_nat j) ltac:(lia)) as (p2 & Hs2 & Hn2).
rewrite Nat2Z.id in Hn1, Hn2. congruence.
Qed.
End GenerateFacts.

(** *** The real-number reading: arithmetic *)

Section IdealArithmetic.
Local Open Scope R_scope.

Lemma Rltb_true (a b : R) : a < b -> Ideal.Rltb a b = true.
Proof. unfold Ideal.Rltb; destruct (Rlt_dec a b); tauto. Qed.

Lemma Rltb_false (a b : R) : b <= a -> Ideal.Rltb a b = false.
Proof. unfold Ideal.Rltb; destruct (Rlt_dec a b); [lra | reflexivity]. Qed.

Lemma Rleb_true (a b : R) : a <= b -> Ideal.Rleb a b = true.
Proof. unfold Ideal.Rleb; destruct (Rle_dec a b); tauto. Qed.

Lemma Rleb_false (a b : R) : b < a -> Ideal.Rleb a b = false.
Proof. unfold Ideal.Rleb; destruct (Rle_dec a b); [lra | reflexivity]. Qed.

Lemma floor_bounds (r : R) :
IZR (Ideal.floor r) <= r < IZR (Ideal.floor r) + 1.
Proof.
unfold Ideal.floor. rewrite minus_IZR.
destruct (archimed r) as [Hgt Hle]. lra.
Qed.

Lemma floor_unique (z : Z) (r : R) :
IZR z <= r < IZR z + 1 -> Ideal.floor r = z.
Proof.
intros [Hlo Hhi].
destruct (floor_bounds r) as [Flo Fhi].
assert (H1 : (z < Ideal.floor r + 1)%Z).
{ apply lt_IZR. rewrite plus_IZR. lra. }
assert (H2 : (Ideal.floor r < z + 1)%Z).
{ apply lt_IZR. rewrite plus_IZR. lra. }
lia.
Qed.

Lemma floor_IZR (z : Z) : Ideal.floor (IZR z) = z.
Proof. apply floor_unique; lra. Qed.

Lemma floor_le (a b : R) : a <= b -> (Ideal.floor a <= Ideal.floor b)%Z.
Proof.
intros Hab.
destruct (floor_bounds a) as [Alo Ahi], (floor_bounds b) as [Blo Bhi].
assert (H : (Ideal.floor a < Ideal.floor b + 1)%Z).
{ apply lt_IZR. rewrite plus_IZR. lra. }
lia.
Qed.

(** Rounding a non-negative real that lies within a half of [z]. *)
Lemma round_half_away_near (z : Z) (r : R) :
0 <= r -> IZR z - / 2 <= r < IZR z + / 2 ->
Ideal.round_half_away r = IZR z.
Proof.
intros Hr [Hlo Hhi]. unfold Ideal.round_half_away.
destruct (Rle_dec 0 r) as [_|N]; [|lra].
f_equal. apply floor_unique. lra.
Qed.

Lemma round_half_away_ge (r : R) :
0 <= r -> r - / 2 < Ideal.round_half_away r.
Proof.
intros Hr. unfold Ideal.round_half_away.
destruct (Rle_dec 0 r) as [_|N]; [|lra].
destruct (floor_bounds (r + / 2)). lra.
Qed.

Lemma round_half_away_IZR (z : Z) : Ideal.round_half_away (IZR z) = IZR z.
Proof.
unfold Ideal.round_half_away.
destruct (Rle_dec 0 (IZR z)) as [P|N].
- f_equal. apply floor_unique. lra.
- replace (IZR (Ideal.floor (/ 2 - IZR z))) with (IZR (- z)).
+ rewrite opp_IZR. lra.
+ f_equal. symmetry. apply floor_unique. rewrite opp_IZR. lra.
Qed.

Lemma truncate_IZR (z : Z) :
in_int_range z = true -> Ideal.truncate (IZR z) = Some z.
Proof.
intros Hz. unfold Ideal.truncate.
destruct (Rle_dec 0 (IZR z)) as [P|N].
- rewrite floor_IZR, Hz. reflexivity.
- rewrite <- opp_IZR, floor_IZR, Z.opp_involutive, Hz. reflexivity.
Qed.

(** [powf] in the real-number reading. *)
Lemma power_pos (x y : R) : 0 < x -> Ideal.power x y = Rpower x y.
Proof. intros Hx. unfold Ideal.power. destruct (Rlt_dec 0 x); tauto. Qed.


Lemma power_1 (y : R) : Ideal.power 1 y = 1.
Proof.
rewrite power_pos by lra. unfold Rpower.
rewrite ln_1, Rmult_0_r. apply exp_0.
Qed.

Lemma power_nonneg (x y : R) : 0 <= Ideal.power x y.
Proof.
unfold Ideal.power. destruct (Rlt_dec 0 x); [|lra].
unfold Rpower. left. apply exp_pos.
Qed.

Lemma power_gt_0 (x y : R) : 0 < x -> 0 < Ideal.power x y.
Proof. intros Hx. rewrite power_pos by assumption. apply exp_pos. Qed.

(** [powf] is non-decreasing in its base, for a positive exponent. *)
Lemma power_le (x1 x2 y : R) :
0 < y -> 0 <= x1 <= x2 -> Ideal.power x1 y <= Ideal.power x2 y.
Proof.
intros Hy [H0 H12]. unfold Ideal.power.
destruct (Rlt_dec 0 x1) as [P1|N1], (Rlt_dec 0 x2) as [P2|N2];
try lra.
- apply Rle_Rpower_l; lra.
- left. apply exp_pos.
Qed.

Lemma power_lt (x1 x2 y : R) :
0 < y -> 0 <= x1 < x2 -> Ideal.power x1 y < Ideal.power x2 y.
Proof.
intros Hy [H0 H12]. unfold Ideal.power.
destruct (Rlt_dec 0 x1) as [P1|N1], (Rlt_dec 0 x2) as [P2|N2];
try lra.
- unfold Rpower. apply exp_increasing.
apply Rmult_lt_compat_l; [assumption|]. apply ln_increasing; lra.
- apply exp_pos.
Qed.

Lemma power_le_1 (x y : R) : 0 < y -> 0 <= x <= 1 -> Ideal.power x y <= 1.
Proof.
intros Hy Hx. rewrite <- (power_1 y). apply power_le; lra.
Qed.


(** A power with a rational exponent [p/q], compared through integer
powers: x^(p/q) <= c as soon as x^p <= c^q. *)
Lemma Rpower_pow_q (x : R) (p q : nat) :
0 < x -> (0 < q)%nat ->
Rpower x (INR p / INR q) ^ q = x ^ p.
Proof.
intros Hx Hq.
rewrite <- Rpower_pow by apply exp_pos.
rewrite Rpower_mult.
replace (INR p / INR q * INR q) with (INR p).
- apply Rpower_pow. assumption.
- field. apply not_0_INR. lia.
Qed.

Lemma pow_le_inv (a b : R) (q : nat) :
0 <= a -> 0 <= b -> (0 < q)%nat -> a ^ q <= b ^ q -> a <= b.
Proof.
intros Ha Hb Hq Hpow.
destruct (Rle_or_lt a b) as [L|G]; [assumption|].
exfalso.
assert (b ^ q < a ^ q); [|lra].
destruct q as [|q]; [lia|]. clear Hq Hpow.
induction q as [|q IH].
- simpl. lra.
- change (b ^ S (S q)) with (b * b ^ S q).
change (a ^ S (S q)) with (a * a ^ S q).
assert (0 <= b ^ S q) by (apply pow_le; assumption).
nra.
Qed.

Lemma pow_lt_inv (a b : R) (q : nat) :
0 <= a -> 0 <= b -> a ^ q < b ^ q -> a < b.
Proof.
intros Ha Hb Hpow.
destruct (Rle_or_lt b a) as [L|G]; [|assumption].
exfalso.
assert (b ^ q <= a ^ q); [|lra].
apply pow_incr. lra.
Qed.


Lemma Rpower_q_ge (x c : R) (p q : nat) :
0 < x -> 0 <= c -> (0 < q)%nat ->
c ^ q <= x ^ p -> c <= Rpower x (INR p / INR q).
Proof.
intros Hx Hc Hq Hpow.
apply (pow_le_inv _ _ q); try assumption.
- left. apply exp_pos.
- rewrite Rpower_pow_q by assumption. assumption.
Qed.

Lemma Rpower_q_lt (x c : R) (p q : nat) :
0 < x -> 0 <= c -> (0 < q)%nat ->
x ^ p < c ^ q -> Rpower x (INR p / INR q) < c.
Proof.
intros Hx Hc Hq Hpow.
apply (pow_lt_inv _ _ q); try assumption.
- left. apply exp_pos.
- rewrite Rpower_pow_q by assumption. assumption.
Qed.

Lemma Rpower_q_gt (x c : R) (p q : nat) :
0 < x -> 0 <= c -> (0 < q)%nat ->
c ^ q < x ^ p -> c < Rpower x (INR p / INR q).
Proof.
intros Hx Hc Hq Hpow.
apply (pow_lt_inv _ _ q); try assumption.
- left. apply exp_pos.
- rewrite Rpower_pow_q by assumption. assumption.
Qed.
End IdealArithmetic.

(** *** The real-number reading: the operations of the code *)

(** Replace the operations of the interface by the real ones, and the
    literals by their decimal values. *)
Ltac ideal_lits :=
  repeat match goal with
  | |- context [Ideal.literal ?m ?e] =>
      let b := eval vm_compute in (0 <=? e)%Z in
      match b with
      | true =>
          let z := eval vm_compute in (m * 10 ^ e)%Z in
          change (Ideal.literal m e) with (IZR z)
      | false =>
          let z := eval vm_compute in (10 ^ (- e))%Z in
          change (Ideal.literal m e) with (IZR m / IZR z)%R
      end
  end.

Ltac ideal_ops :=
  cbn [of_int lit fadd fsub fmul fdiv flt fle sqrtf roundf to_int
       powf logf exp_f Ideal.arith Ideal.libm];
  ideal_lits.

Section IdealCurves.
Local Open Scope R_scope.
Import Ideal.

Lemma ideal_maxf (a b : R) : maxf a b = Rmax b a.
Proof.
unfold maxf, Rmax. ideal_ops. unfold Rltb.
destruct (Rlt_dec b a), (Rle_dec b a); try lra; reflexivity.
Qed.

Lemma ideal_minf (a b : R) : minf a b = Rmin a b.
Proof.
unfold minf, Rmin. ideal_ops. unfold Rltb.
destruct (Rlt_dec a b), (Rle_dec a b); try lra; reflexivity.
Qed.

(** The five curves over the reals. *)
Lemma ideal_gamma22_to_linear (g : R) :
gamma22_to_linear g = power g 2.2.
Proof. unfold gamma22_to_linear. ideal_ops. f_equal; lra. Qed.

Lemma ideal_gamma22_from_linear (l : R) :
gamma22_from_linear l = power l (1 / 2.2).
Proof. unfold gamma22_from_linear. ideal_ops. f_equal; lra. Qed.

Lemma ideal_gamma28_to_linear (g : R) :
gamma28_to_linear g = power g 2.8.
Proof. unfold gamma28_to_linear. ideal_ops. f_equal; lra. Qed.

Lemma ideal_gamma28_from_linear (l : R) :
gamma28_from_linear l = power l (1 / 2.8).
Proof. unfold gamma28_from_linear. ideal_ops. f_equal; lra. Qed.

Lemma ideal_srgb_to_linear_low (s : R) :
s <= 0.04045 -> srgb_to_linear s = s / 12.92.
Proof.
intros Hs. unfold srgb_to_linear. ideal_ops.
rewrite Rleb_true by lra. lra.
Qed.

Lemma ideal_srgb_to_linear_high (s : R) :
0.04045 < s -> srgb_to_linear s = power ((s + 0.055) / 1.055) 2.4.
Proof.
intros Hs. unfold srgb_to_linear. ideal_ops.
rewrite Rleb_false by lra. f_equal; lra.
Qed.

Lemma ideal_srgb_from_linear_low (l : R) :
l <= 0.0031308 -> srgb_from_linear l = 12.92 * l.
Proof.
intros Hl. unfold srgb_from_linear. ideal_ops.
rewrite Rleb_true by lra. lra.
Qed.

Lemma ideal_srgb_from_linear_high (l : R) :
0.0031308 < l ->
srgb_from_linear l = 1.055 * power l (1 / 2.4) - 0.055.
Proof.
intros Hl. unfold srgb_from_linear. ideal_ops.
rewrite Rleb_false by lra.
replace (1 / (24 / 10)) with (1 / 2.4) by lra. lra.
Qed.

Lemma ideal_kPqM1 : kPqM1 = 2610 / 16384.
Proof. unfold kPqM1. ideal_ops. reflexivity. Qed.
Lemma ideal_kPqM2 : kPqM2 = 128 * 2523 / 4096.
Proof. unfold kPqM2. ideal_ops. reflexivity. Qed.
Lemma ideal_kPqC1 : kPqC1 = 3424 / 4096.
Proof. unfold kPqC1. ideal_ops. reflexivity. Qed.
Lemma ideal_kPqC2 : kPqC2 = 32 * 2413 / 4096.
Proof. unfold kPqC2. ideal_ops. reflexivity. Qed.
Lemma ideal_kPqC3 : kPqC3 = 32 * 2392 / 4096.
Proof. unfold kPqC3. ideal_ops. reflexivity. Qed.

Lemma ideal_pq_to_linear (pq : R) :
pq_to_linear pq =
power (Rmax 0 (power pq (1 / kPqM2) - kPqC1)
 / (kPqC2 - kPqC3 * power pq (1 / kPqM2)))
(1 / kPqM1).
Proof.
unfold pq_to_linear. cbv zeta. rewrite ideal_maxf.
ideal_ops. rewrite Rmax_comm. reflexivity.
Qed.

Lemma ideal_pq_from_linear (l : R) :
pq_from_linear l =
power ((kPqC1 + kPqC2 * power l kPqM1) / (1 + kPqC3 * power l kPqM1))
kPqM2.
Proof. unfold pq_from_linear. cbv zeta. ideal_ops. reflexivity. Qed.

Lemma ideal_kHlgA : kHlgA = Reference.hlg_a.
Proof. unfold kHlgA, Reference.hlg_a. ideal_ops. lra. Qed.
Lemma ideal_kHlgB : kHlgB = Reference.hlg_b.
Proof. unfold kHlgB, Reference.hlg_b. ideal_ops. lra. Qed.
Lemma ideal_kHlgC : kHlgC = Reference.hlg_c.
Proof. unfold kHlgC, Reference.hlg_c. ideal_ops. lra. Qed.

Lemma ideal_mid_tone_catalog (tf : transfer_function_t R) :
In tf catalog ->
mid_tone tf = 0.18 \/ mid_tone tf = 0.0026 \/ mid_tone tf = 0.026.
Proof.
unfold catalog. simpl.
intros [<-|[<-|[<-|[<-|[<-|[]]]]]]; cbn [mid_tone
kGamma22TransferFunction kGamma28TransferFunction
kSRgbTransferFunction kPqTransferFunction kHlgTransferFunction];
ideal_ops; lra.
Qed.
End IdealCurves.

(** *** The real-number reading: the synthesizer *)

Lemma int_wrap_id (z : Z) : INT_MIN <= z <= INT_MAX -> int_wrap z = z.
Proof.
  unfold int_wrap, INT_MIN, INT_MAX. intros Hz.
  rewrite Z.mod_small; lia.
Qed.

Lemma int_mul_no_overflow (w h : Z) : no_overflow w h -> int_mul w h = w * h.
Proof.
  intros (Hw & Hh & Hwh). unfold int_mul. apply int_wrap_id.
  unfold INT_MIN. nia.
Qed.

Section IdealSynthesizer.
Local Open Scope R_scope.
Import Ideal.

Variable args : photon_noise_args_t R.
Let w := width args.
Let h := height args.
Let iso := iso_setting args.
Let tf := transfer_function args.
Hypothesis Hwh : no_overflow w h.

(** Without overflow, each local of the loop body is the quantity of the
specification's pipeline. *)
Lemma ideal_max_electrons_per_pixel :
max_electrons_per_pixel args = Reference.full_scale_electrons w h iso tf.
Proof.
unfold max_electrons_per_pixel, mid_tone_electrons_per_pixel,
mid_tone_exposure, pixel_area_um2, kEffectiveQuantumEfficiency,
kPhotonsPerLxSPerUm2.
fold w h iso tf. rewrite (int_mul_no_overflow w h Hwh).
unfold Reference.full_scale_electrons, Reference.mid_tone_electrons,
Reference.exposure, Reference.pixel_area.
ideal_ops. rewrite mult_IZR.
replace (20 / 100) with 0.20 by lra. reflexivity.
Qed.

Lemma ideal_sample_x (i : Z) : sample_x 14 i = Reference.sample i.
Proof.
unfold sample_x, Reference.sample. ideal_ops. f_equal. lra.
Qed.

Lemma ideal_linear (i : Z) :
linear args 14 i = Reference.linear_light tf i.
Proof.
unfold linear, Reference.linear_light. fold tf.
rewrite ideal_sample_x. reflexivity.
Qed.

Lemma ideal_electrons_per_pixel (i : Z) :
electrons_per_pixel args 14 i = Reference.electrons w h iso tf i.
Proof.
unfold electrons_per_pixel, Reference.electrons.
rewrite ideal_max_electrons_per_pixel, ideal_linear. reflexivity.
Qed.

Lemma ideal_noise_in_electrons (i : Z) :
noise_in_electrons args 14 i = Reference.noise_electrons w h iso tf i.
Proof.
unfold noise_in_electrons, Reference.noise_electrons,
kInputReferredReadNoise, kPhotoResponseNonUniformity.
rewrite ideal_electrons_per_pixel. ideal_ops.
f_equal. lra.
Qed.

Lemma ideal_linear_noise (i : Z) :
linear_noise args 14 i = Reference.noise_linear w h iso tf i.
Proof.
unfold linear_noise, Reference.noise_linear.
rewrite ideal_noise_in_electrons, ideal_max_electrons_per_pixel.
reflexivity.
Qed.

Lemma ideal_linear_range_start (i : Z) :
linear_range_start args 14 i = Reference.interval_lo w h iso tf i.
Proof.
unfold linear_range_start, Reference.interval_lo.
rewrite ideal_maxf, ideal_linear, ideal_linear_noise. ideal_ops.
apply Rmax_comm.
Qed.

Lemma ideal_linear_range_end (i : Z) :
linear_range_end args 14 i = Reference.interval_hi w h iso tf i.
Proof.
unfold linear_range_end, Reference.interval_hi.
rewrite ideal_minf, ideal_linear, ideal_linear_noise. ideal_ops.
reflexivity.
Qed.

Lemma ideal_slope_denominator (i : Z) :
slope_denominator args 14 i
= Reference.interval_hi w h iso tf i - Reference.interval_lo w h iso tf i.
Proof.
unfold slope_denominator.
rewrite ideal_linear_range_start, ideal_linear_range_end. reflexivity.
Qed.

Lemma ideal_tf_slope (i : Z) :
tf_slope args 14 i = Reference.slope w h iso tf i.
Proof.
unfold tf_slope, Reference.slope. fold tf.
rewrite ideal_slope_denominator, ideal_linear_range_start,
ideal_linear_range_end. reflexivity.
Qed.

Lemma ideal_encoded_noise (i : Z) :
encoded_noise args 14 i = Reference.noise_encoded w h iso tf i.
Proof.
unfold encoded_noise, Reference.noise_encoded.
rewrite ideal_linear_noise, ideal_tf_slope. reflexivity.
Qed.

(** The value converted to [int] in row [i]: the rounded amplitude of the
pipeline, capped at 255. *)
Lemma ideal_quantized_noise (i : Z) :
quantized_noise args 14 i
= Rmin 255 (Reference.rounded_amplitude w h iso tf i).
Proof.
unfold quantized_noise, Reference.rounded_amplitude.
rewrite ideal_minf, ideal_encoded_noise. ideal_ops.
replace (788 / 100) with 7.88 by lra. reflexivity.
Qed.
End IdealSynthesizer.

Section IdealGrid.
Local Open Scope R_scope.
Import Ideal.

(** The encoded x-coordinate of row [i] does not depend on the
arguments: it is the rounding of 255 i / 13. *)
Lemma ideal_quantized_x (i : Z) :
(0 <= i < 14)%Z ->
quantized_x (F := R) 14 i = IZR (nth (Z.to_nat i) x_grid 0%Z).
Proof.
intros Hi. unfold quantized_x, sample_x. ideal_ops.
assert (Hcases : i = 0%Z \/ i = 1%Z \/ i = 2%Z \/ i = 3%Z \/ i = 4%Z \/
           i = 5%Z \/ i = 6%Z \/ i = 7%Z \/ i = 8%Z \/ i = 9%Z \/
           i = 10%Z \/ i = 11%Z \/ i = 12%Z \/ i = 13%Z) by lia.
repeat (destruct Hcases as [->|Hcases]); [..|subst i];
match goal with
| |- _ = IZR (nth ?k x_grid _) =>
let z := eval vm_compute in (nth k x_grid 0%Z) in
change (nth k x_grid 0%Z) with z
end;
(apply round_half_away_near; lra).
Qed.

Lemma x_grid_in_int_range (k : nat) :
in_int_range (nth k x_grid 0%Z) = true.
Proof.
do 14 (destruct k as [|k]; [reflexivity|]). destruct k; reflexivity.
Qed.

Lemma ideal_to_int_quantized_x (i : Z) :
(0 <= i < 14)%Z ->
to_int (quantized_x (F := R) 14 i) = Some (nth (Z.to_nat i) x_grid 0%Z).
Proof.
intros Hi. rewrite ideal_quantized_x by assumption.
apply truncate_IZR, x_grid_in_int_range.
Qed.
End IdealGrid.

(** *** The real-number reading: sRGB on [0,1] and a saturated run *)

Section IdealSaturated.
Local Open Scope R_scope.
Import Ideal.

Lemma ideal_srgb_to_linear_range (s : R) :
0 <= s <= 1 -> 0 <= srgb_to_linear s <= 1.
Proof.
intros Hs. destruct (Rle_or_lt s 0.04045) as [L|G].
- rewrite ideal_srgb_to_linear_low by assumption. lra.
- rewrite ideal_srgb_to_linear_high by assumption. split.
+ apply power_nonneg.
+ apply power_le_1; lra.
Qed.

Lemma ideal_srgb_from_linear_0 : srgb_from_linear 0 = 0.
Proof. rewrite ideal_srgb_from_linear_low by lra. lra. Qed.

Lemma ideal_srgb_from_linear_1 : srgb_from_linear 1 = 1.
Proof. rewrite ideal_srgb_from_linear_high by lra. rewrite power_1. lra. Qed.

Lemma sqrt_ge_read_noise (e : R) :
0 <= e -> 1.5 <= sqrt (1.5 ^ 2 + e + (0.005 * e) ^ 2).
Proof.
intros He. rewrite <- (sqrt_pow2 1.5) at 1 by lra.
apply sqrt_le_1_alt. nra.
Qed.

Let tf : transfer_function_t R := kSRgbTransferFunction.
Let fs : R := Reference.full_scale_electrons 8192 4320 3276800 tf.

Lemma saturated_full_scale : fs = 8796875 / 9437184.
Proof.
unfold fs, Reference.full_scale_electrons, Reference.mid_tone_electrons,
Reference.exposure, Reference.pixel_area, tf.
cbn [mid_tone kSRgbTransferFunction]. ideal_ops. lra.
Qed.

Lemma saturated_no_overflow : no_overflow 8192 4320.
Proof. unfold no_overflow, INT_MAX. lia. Qed.

Variable i : Z.
Hypothesis Hi : (0 <= i < 14)%Z.

Lemma saturated_sample : 0 <= Reference.sample i <= 1.
Proof.
unfold Reference.sample.
assert (0 <= IZR i <= 13); [|lra].
split; [apply IZR_le; lia | apply (IZR_le i 13); lia].
Qed.

Lemma saturated_linear_light : 0 <= Reference.linear_light tf i <= 1.
Proof.
unfold Reference.linear_light, tf. cbn [to_linear kSRgbTransferFunction].
apply ideal_srgb_to_linear_range, saturated_sample.
Qed.

Lemma saturated_noise_linear :
1.5 <= Reference.noise_linear 8192 4320 3276800 tf i.
Proof.
unfold Reference.noise_linear, Reference.noise_electrons,
Reference.electrons. fold fs.
pose proof saturated_linear_light as Hl.
pose proof saturated_full_scale as Hfs.
assert (He : 0 <= fs * Reference.linear_light tf i) by (rewrite Hfs; nra).
pose proof (sqrt_ge_read_noise _ He) as Hn.
set (n := sqrt _) in *.
apply Rmult_le_reg_r with fs; [rewrite Hfs; lra|].
unfold Rdiv. rewrite Rmult_assoc, Rinv_l by (rewrite Hfs; lra).
rewrite Hfs at 1. lra.
Qed.

Lemma saturated_interval :
Reference.interval_lo 8192 4320 3276800 tf i = 0 /\
Reference.interval_hi 8192 4320 3276800 tf i = 1.
Proof.
unfold Reference.interval_lo, Reference.interval_hi.
pose proof saturated_linear_light. pose proof saturated_noise_linear.
split; [apply Rmax_left | apply Rmin_left]; lra.
Qed.

Lemma saturated_noise_encoded :
Reference.noise_encoded 8192 4320 3276800 tf i
= Reference.noise_linear 8192 4320 3276800 tf i.
Proof.
unfold Reference.noise_encoded, Reference.slope.
destruct saturated_interval as [-> ->].
unfold tf. cbn [from_linear kSRgbTransferFunction].
rewrite ideal_srgb_from_linear_0, ideal_srgb_from_linear_1. lra.
Qed.

Lemma saturated_rounded_amplitude :
3000 < Reference.rounded_amplitude 8192 4320 3276800 tf i.
Proof.
unfold Reference.rounded_amplitude. rewrite saturated_noise_encoded.
pose proof saturated_noise_linear as Hn.
set (v := 255 * 7.88 * _).
assert (Hv : 3014 <= v) by (unfold v; lra).
pose proof (round_half_away_ge v ltac:(lra)). lra.
Qed.

(** Row [i] of the saturated run: the x-coordinate of the grid and the
capped amplitude 255. *)
Lemma saturated_scaling_point :
scaling_point saturated_args 14 i
= Some (nth (Z.to_nat i) x_grid 0%Z, 255%Z).
Proof.
unfold scaling_point.
rewrite ideal_to_int_quantized_x by assumption.
rewrite ideal_quantized_noise by exact saturated_no_overflow.
change (transfer_function saturated_args) with tf.
change (width saturated_args) with 8192%Z.
change (height saturated_args) with 4320%Z.
change (iso_setting saturated_args) with 3276800%Z.
rewrite Rmin_left by (pose proof saturated_rounded_amplitude; lra).
ideal_ops. rewrite truncate_IZR by reflexivity. reflexivity.
Qed.
End IdealSaturated.

Section IdealSaturatedRun.
Local Open Scope R_scope.
Import Ideal.

(** The exact rounded amplitude of the pipeline at the first sample of
the saturated run. *)
Lemma saturated_rounded_amplitude_0 :
Reference.rounded_amplitude 8192 4320 3276800 kSRgbTransferFunction 0
= 3233.
Proof.
unfold Reference.rounded_amplitude.
rewrite saturated_noise_encoded by lia.
unfold Reference.noise_linear, Reference.noise_electrons,
Reference.electrons, Reference.linear_light, Reference.sample.
cbn [to_linear kSRgbTransferFunction].
rewrite saturated_full_scale.
replace (0 / 13) with 0 by lra.
rewrite ideal_srgb_to_linear_low by lra.
replace (1.5 ^ 2 + 8796875 / 9437184 * (0 / 12.92)
   + (0.005 * (8796875 / 9437184 * (0 / 12.92))) ^ 2)
with (1.5 ^ 2) by lra.
rewrite sqrt_pow2 by lra.
apply (round_half_away_near 3233); lra.
Qed.

(** The whole call on the saturated arguments, from the zeroed
descriptor. *)
Lemma saturated_run :
generate_photon_noise saturated_args zeroed_film_grain
= Some saturated_film_grain.
Proof.
unfold generate_photon_noise. fg_proj.
change (Z.to_nat 14) with 14%nat.
cbn [scaling_loop]. unfold loop_body. fg_proj.
repeat (rewrite saturated_scaling_point by lia; fg_proj;
  cbn [Z.add Pos.add Pos.succ]).
reflexivity.
Qed.
End IdealSaturatedRun.

(** *** Single precision: the sample grid and two runs *)

Section Binary32Facts.
Import Binary32.

(** The encoded x-coordinates, computed bit for bit: [i / 13.f],
[255 * x], [roundf], [(int)]. *)
Lemma binary32_to_int_quantized_x (i : Z) :
0 <= i < 14 ->
to_int (quantized_x (F := spec_float) 14 i)
= Some (nth (Z.to_nat i) x_grid 0).
Proof.
intros Hi.
assert (Hcases : i = 0 \/ i = 1 \/ i = 2 \/ i = 3 \/ i = 4 \/ i = 5 \/
           i = 6 \/ i = 7 \/ i = 8 \/ i = 9 \/ i = 10 \/
           i = 11 \/ i = 12 \/ i = 13) by lia.
repeat (destruct Hcases as [->|Hcases]); [..|subst i];
vm_compute; reflexivity.
Qed.

Lemma linear_run :
generate_photon_noise linear_args zeroed_film_grain
= Some linear_film_grain.
Proof. vm_compute. reflexivity. Qed.

Lemma zeroed_film_grain_wf : film_grain_wf zeroed_film_grain.
Proof. unfold film_grain_wf. cbn. auto. Qed.

Variable L : Libm spec_float.

(** The locals of the first iteration on [overflow_args]; no call of the
C library is on this path. *)
Lemma overflow_max_electrons_per_pixel :
max_electrons_per_pixel (overflow_args L)
= S754_finite true 10308859 (-11).
Proof. vm_compute. reflexivity. Qed.

Lemma overflow_linear_noise :
linear_noise (overflow_args L) 14 0 = S754_finite true 10239069 (-35).
Proof. vm_compute. reflexivity. Qed.

Lemma overflow_range :
linear_range_start (overflow_args L) 14 0
= S754_finite false 10239069 (-34) /\
linear_range_end (overflow_args L) 14 0
= S754_finite true 10239069 (-34).
Proof. split; vm_compute; reflexivity. Qed.
End Binary32Facts.

(** *** Claims about the descriptor *)

Lemma list_set_0_eq {A : Type} (v : A) (l1 l2 : list A) :
  l1 <> [] -> l2 <> [] -> tl l1 = tl l2 -> list_set 0 v l1 = list_set 0 v l2.
Proof.
  destruct l1, l2; simpl; intros; congruence.
Qed.

Lemma film_grain_wf_nonempty (fg : aom_film_grain_t) :
  film_grain_wf fg -> ar_coeffs_cb fg <> [] /\ ar_coeffs_cr fg <> [].
Proof.
  intros (_ & Hcb & Hcr).
  split; intros E; rewrite E in *; discriminate.
Qed.

Lemma untouched_fields_equal_sym (a b : aom_film_grain_t) :
  untouched_fields_equal a b -> untouched_fields_equal b a.
Proof.
  unfold untouched_fields_equal.
  intros (? & ? & ? & ? & ? & ? & ? & ?). repeat split; auto.
Qed.

Lemma untouched_fields_equal_trans (a b c : aom_film_grain_t) :
  untouched_fields_equal a b -> untouched_fields_equal b c ->
  untouched_fields_equal a c.
Proof.
  unfold untouched_fields_equal.
  intros (? & ? & ? & ? & ? & ? & ? & ?) (? & ? & ? & ? & ? & ? & ? & ?).
  repeat split; etransitivity; eassumption.
Qed.

Lemma same_outside_untouched (a b : aom_film_grain_t) :
  same_outside_luma_points a b -> untouched_fields_equal a b.
Proof.
  unfold same_outside_luma_points, untouched_fields_equal.
  intros (_ & _ & _ & Hcb & _ & Hcr & _ & _ & _ & Hy & Ha & Hb & _ & _ & _
          & _ & _ & _ & _ & _ & Hclip & Hbd & _ & Hgs & _).
  rewrite Ha, Hb. repeat split; assumption.
Qed.

(** The assignments after the loop give equal descriptors from two that
    agree on the scaling points and on what the function leaves alone. *)
Lemma set_fixed_fields_eq (a b : aom_film_grain_t) :
  scaling_points_y a = scaling_points_y b ->
  num_y_points a = num_y_points b ->
  ar_coeffs_cb a <> [] -> ar_coeffs_cb b <> [] ->
  ar_coeffs_cr a <> [] -> ar_coeffs_cr b <> [] ->
  untouched_fields_equal a b ->
  set_fixed_fields a = set_fixed_fields b.
Proof.
  unfold untouched_fields_equal, set_fixed_fields.
  intros Hp Hn Hca Hcb Hra Hrb (Hy & Hscb & Hscr & Hclip & Hbd & Hgs & Htcb
                                & Htcr).
  rewrite Hp, Hn, Hy, Hscb, Hscr, Hclip, Hbd, Hgs.
  rewrite (list_set_0_eq 0 _ _ Hca Hcb Htcb).
  rewrite (list_set_0_eq 0 _ _ Hra Hrb Htcr).
  reflexivity.
Qed.

(** C2. Every call that returns leaves exactly 14 scaling points; their
    x-coordinates are the roundings of 255 i / 13 computed in single
    precision, that is 0, 20, 39, ..., 255: strictly increasing, within
    [0,255], starting at 0 and ending at 255. *)
Theorem C2_fourteen_points_on_the_grid
        (args : photon_noise_args_t spec_float)
        (fg0 fg : aom_film_grain_t) :
  film_grain_wf fg0 ->
  generate_photon_noise (FA := Binary32.arith) args fg0 = Some fg ->
  num_y_points fg = 14 /\
  List.length (scaling_points_y fg) = 14%nat /\
  map fst (scaling_points_y fg) = x_grid /\
  StronglySorted Z.lt x_grid /\
  Forall (fun x => 0 <= x <= 255) x_grid /\
  hd 0 x_grid = 0 /\ last x_grid 0 = 255.
Proof.
  intros Hwf Hgen.
  destruct (generate_photon_noise_fixed args fg0 fg Hwf Hgen)
    as (_ & _ & Hnum & _).
  destruct (generate_photon_noise_points args fg0 fg Hwf Hgen)
    as [Hlen Hpts].
  split; [exact Hnum|]. split; [exact Hlen|]. split.
  - apply nth_error_ext.
    + rewrite length_map, Hlen. reflexivity.
    + intros j Hj. rewrite length_map, Hlen in Hj.
      destruct (Hpts (Z.of_nat j) ltac:(lia)) as ([x e] & Hp & Hn).
      rewrite Nat2Z.id in Hn.
      rewrite nth_error_map, Hn. cbn [option_map fst].
      unfold scaling_point in Hp.
      rewrite (binary32_to_int_quantized_x (Z.of_nat j)) in Hp by lia.
      destruct (to_int (quantized_noise args 14 (Z.of_nat j)));
        [|discriminate].
      assert (Hx : nth (Z.to_nat (Z.of_nat j)) x_grid 0 = x) by congruence.
      rewrite Nat2Z.id in Hx. rewrite <- Hx.
      symmetry. apply nth_error_nth'. unfold x_grid. cbn [List.length]. lia.
  - repeat split.
    + unfold x_grid.
      repeat (apply SSorted_cons;
              [|repeat (apply Forall_cons; [lia|]); apply Forall_nil]).
      apply SSorted_nil.
    + unfold x_grid. repeat (apply Forall_cons; [lia|]). apply Forall_nil.
Qed.

Lemma C2_fourteen_points_on_the_grid_witness :
  film_grain_wf zeroed_film_grain /\
  generate_photon_noise linear_args zeroed_film_grain
  = Some linear_film_grain /\
  num_y_points linear_film_grain = 14 /\
  List.length (scaling_points_y linear_film_grain) = 14%nat /\
  map fst (scaling_points_y linear_film_grain) = x_grid /\
  StronglySorted Z.lt x_grid /\
  Forall (fun x => 0 <= x <= 255) x_grid /\
  hd 0 x_grid = 0 /\ last x_grid 0 = 255.
Proof.
  split; [exact zeroed_film_grain_wf|]. split; [exact linear_run|].
  exact (C2_fourteen_points_on_the_grid linear_args zeroed_film_grain
           linear_film_grain zeroed_film_grain_wf linear_run).
Defined.

(** C8. The descriptor is a function of the arguments: two calls with the
    same arguments write the same scaling points whatever the descriptors
    held before, and return identical descriptors when those agreed on
    the fields the function leaves alone (as two zeroed ones do). In every
    descriptor returned the auxiliary fields have their constants: seed
    7391, no chroma points, lag 0, overlap on, chroma scaling from luma
    off, [apply_grain] and [update_parameters] set. *)
Theorem C8_deterministic_with_fixed_fields
        {F : Type} {FA : FloatArith F} (args : photon_noise_args_t F)
        (fg1 fg2 r1 r2 : aom_film_grain_t) :
  film_grain_wf fg1 -> film_grain_wf fg2 ->
  generate_photon_noise args fg1 = Some r1 ->
  generate_photon_noise args fg2 = Some r2 ->
  fixed_fields_set r1 /\
  scaling_points_y r1 = scaling_points_y r2 /\
  (untouched_fields_equal fg1 fg2 -> r1 = r2).
Proof.
  intros Hwf1 Hwf2 Hg1 Hg2.
  split; [exact (generate_photon_noise_fixed args fg1 r1 Hwf1 Hg1)|].
  pose proof (generate_photon_noise_points_eq args _ _ _ _ Hwf1 Hwf2 Hg1 Hg2)
    as Hpts.
  split; [exact Hpts|].
  intros Hsame.
  destruct (film_grain_wf_nonempty _ Hwf1) as [Hcb1 Hcr1].
  destruct (film_grain_wf_nonempty _ Hwf2) as [Hcb2 Hcr2].
  apply generate_photon_noise_split in Hg1 as (l1 & Hl1 & ->).
  apply generate_photon_noise_split in Hg2 as (l2 & Hl2 & ->).
  apply scaling_loop_frame in Hl1, Hl2.
  pose proof (same_outside_untouched _ _ Hl1) as U1.
  pose proof (same_outside_untouched _ _ Hl2) as U2.
  destruct Hl1 as (_ & _ & N1 & _ & _ & _ & _ & _ & _ & _ & C1 & D1 & _).
  destruct Hl2 as (_ & _ & N2 & _ & _ & _ & _ & _ & _ & _ & C2 & D2 & _).
  fg_proj.
  apply set_fixed_fields_eq; try congruence.
  apply untouched_fields_equal_trans with fg2; [|exact U2].
  apply untouched_fields_equal_trans with fg1; [|exact Hsame].
  apply untouched_fields_equal_sym. exact U1.
Qed.

Lemma C8_deterministic_with_fixed_fields_witness :
  film_grain_wf zeroed_film_grain /\
  generate_photon_noise saturated_args zeroed_film_grain
  = Some saturated_film_grain /\
  fixed_fields_set saturated_film_grain /\
  scaling_points_y saturated_film_grain
  = scaling_points_y saturated_film_grain /\
  (untouched_fields_equal zeroed_film_grain zeroed_film_grain ->
   saturated_film_grain = saturated_film_grain).
Proof.
  split; [exact zeroed_film_grain_wf|]. split; [exact saturated_run|].
  exact (C8_deterministic_with_fixed_fields saturated_args
           zeroed_film_grain zeroed_film_grain
           saturated_film_grain saturated_film_grain
           zeroed_film_grain_wf zeroed_film_grain_wf
           saturated_run saturated_run).
Defined.

(** C10. The call assigns the 14 luma scaling points and the fields named
    after the loop, and nothing else: the luma autoregressive coefficients
    [ar_coeffs_y], the chroma scaling points, the clipping flag, the bit
    depth, the grain scale shift and the chroma coefficients after the
    first keep the values the descriptor held before the call. In [main]
    they are zero because the descriptor was zeroed. *)
Theorem C10_unassigned_fields_unchanged
        {F : Type} {FA : FloatArith F} (args : photon_noise_args_t F)
        (fg0 fg : aom_film_grain_t) :
  generate_photon_noise args fg0 = Some fg ->
  untouched_fields_equal fg0 fg /\
  ar_coeffs_y fg = ar_coeffs_y fg0 /\
  (fg0 = zeroed_film_grain -> ar_coeffs_y fg = repeat 0 24).
Proof.
  intros Hgen.
  pose proof (generate_photon_noise_frame args fg0 fg Hgen) as Hframe.
  split; [exact Hframe|].
  destruct Hframe as (Hy & _).
  split; [congruence|].
  intros ->. rewrite <- Hy. reflexivity.
Qed.

Lemma C10_unassigned_fields_unchanged_witness :
  generate_photon_noise linear_args zeroed_film_grain
  = Some linear_film_grain /\
  untouched_fields_equal zeroed_film_grain linear_film_grain /\
  ar_coeffs_y linear_film_grain = ar_coeffs_y zeroed_film_grain /\
  (zeroed_film_grain = zeroed_film_grain ->
   ar_coeffs_y linear_film_grain = repeat 0 24).
Proof.
  split; [exact linear_run|].
  exact (C10_unassigned_fields_unchanged linear_args zeroed_film_grain
           linear_film_grain linear_run).
Defined.

(** C7. Lookup over the closed set of five identifiers: each of them gets
    its own curve, and every other identifier ends in [fatal] with the
    message for an unimplemented transfer function; no curve is returned
    by default. *)
Theorem C7_lookup_total_over_the_catalog
        {F : Type} {FA : FloatArith F} {LM : Libm F}
        (bt470m bt470bg srgb smpte2084 hlg : Z) :
  NoDup [bt470m; bt470bg; srgb; smpte2084; hlg] ->
  let find := find_transfer_function (F := F)
                bt470m bt470bg srgb smpte2084 hlg in
  find bt470m = Returns kGamma22TransferFunction /\
  find bt470bg = Returns kGamma28TransferFunction /\
  find srgb = Returns kSRgbTransferFunction /\
  find smpte2084 = Returns kPqTransferFunction /\
  find hlg = Returns kHlgTransferFunction /\
  forall tc, ~ In tc [bt470m; bt470bg; srgb; smpte2084; hlg] ->
             find tc = Fatal "unimplemented transfer function %d" tc.
Proof.
  intros Hnd find.
  assert (Hd : bt470m <> bt470bg /\ bt470m <> srgb /\ bt470m <> smpte2084 /\
               bt470m <> hlg /\ bt470bg <> srgb /\ bt470bg <> smpte2084 /\
               bt470bg <> hlg /\ srgb <> smpte2084 /\ srgb <> hlg /\
               smpte2084 <> hlg).
  { repeat match goal with
           | H : NoDup (_ :: _) |- _ => inversion H; clear H; subst
           end.
    cbn [In] in *. repeat split; intros E; subst; tauto. }
  destruct Hd as (? & ? & ? & ? & ? & ? & ? & ? & ? & ?).
  unfold find, find_transfer_function.
  repeat split.
  - rewrite Z.eqb_refl. reflexivity.
  - rewrite (proj2 (Z.eqb_neq bt470bg bt470m)) by congruence.
    rewrite Z.eqb_refl. reflexivity.
  - rewrite (proj2 (Z.eqb_neq srgb bt470m)) by congruence.
    rewrite (proj2 (Z.eqb_neq srgb bt470bg)) by congruence.
    rewrite Z.eqb_refl. reflexivity.
  - rewrite (proj2 (Z.eqb_neq smpte2084 bt470m)) by congruence.
    rewrite (proj2 (Z.eqb_neq smpte2084 bt470bg)) by congruence.
    rewrite (proj2 (Z.eqb_neq smpte2084 srgb)) by congruence.
    rewrite Z.eqb_refl. reflexivity.
  - rewrite (proj2 (Z.eqb_neq hlg bt470m)) by congruence.
    rewrite (proj2 (Z.eqb_neq hlg bt470bg)) by congruence.
    rewrite (proj2 (Z.eqb_neq hlg srgb)) by congruence.
    rewrite (proj2 (Z.eqb_neq hlg smpte2084)) by congruence.
    rewrite Z.eqb_refl. reflexivity.
  - intros tc Hout. cbn [In] in Hout.
    rewrite !(proj2 (Z.eqb_neq tc _)); [reflexivity|..];
      intros E; apply Hout; subst; tauto.
Qed.

Lemma C7_lookup_total_over_the_catalog_witness :
  NoDup [cicp_bt470m; cicp_bt470bg; cicp_srgb; cicp_smpte2084; cicp_hlg] /\
  let find := find_transfer_function (F := R)
                cicp_bt470m cicp_bt470bg cicp_srgb cicp_smpte2084 cicp_hlg in
  find cicp_bt470m = Returns kGamma22TransferFunction /\
  find cicp_bt470bg = Returns kGamma28TransferFunction /\
  find cicp_srgb = Returns kSRgbTransferFunction /\
  find cicp_smpte2084 = Returns kPqTransferFunction /\
  find cicp_hlg = Returns kHlgTransferFunction /\
  forall tc,
    ~ In tc [cicp_bt470m; cicp_bt470bg; cicp_srgb; cicp_smpte2084; cicp_hlg] ->
    find tc = Fatal "unimplemented transfer function %d" tc.
Proof.
  assert (Hnd : NoDup [cicp_bt470m; cicp_bt470bg; cicp_srgb;
                       cicp_smpte2084; cicp_hlg]).
  { repeat (apply NoDup_cons; [cbn; intuition discriminate|]).
    apply NoDup_nil. }
  split; [exact Hnd|].
  exact (C7_lookup_total_over_the_catalog _ _ _ _ _ Hnd).
Defined.

(** *** Claims about the amplitudes and the electron counts *)

(** C3, at a failing input. A 46341 x 46341 frame at ISO 10 with the sRGB
    curve: the product of the dimensions wraps to a negative [int], the
    electron counts and the linear noise are negative, and the first
    scaling point gets the amplitude -8. The value is the same for every C
    library, none of whose functions is called on this path. *)
Theorem C3_overflow_gives_negative_amplitude (L : Libm spec_float) :
  int_mul 46341 46341 = -2147479015 /\
  quantized_noise (overflow_args L) 14 0 = S754_finite true 8388608 (-20) /\
  scaling_point (overflow_args L) 14 0 = Some (0, -8).
Proof. repeat split; vm_compute; reflexivity. Qed.

(** C9, at a failing input. On the same arguments the interval of the
    first iteration runs from 2|n| down to -2|n|, and the divisor of the
    finite difference is negative: it is not above 0. *)
Theorem C9_overflow_gives_negative_denominator (L : Libm spec_float) :
  slope_denominator (overflow_args L) 14 0
  = S754_finite true 10239069 (-33) /\
  flt (lit 0 0) (slope_denominator (overflow_args L) 14 0) = false.
Proof. split; vm_compute; reflexivity. Qed.

(** Two neighbouring ISO settings with the same full-scale electron count
    in single precision, for a 4K frame and any curve with the mid-tone
    0.18f. *)
Lemma binary32_iso_collision (L : Libm spec_float) :
  max_electrons_per_pixel (srgb_args (LM := L) 3840 2160 4691415)
  = S754_finite false 11651468 (-22) /\
  max_electrons_per_pixel (srgb_args (LM := L) 3840 2160 4691416)
  = S754_finite false 11651468 (-22).
Proof. split; vm_compute; reflexivity. Qed.

(** C5 as stated fails in single precision: ISO 4691415 and ISO 4691416
    give the same count for a 3840 x 2160 sRGB frame. *)
Lemma C5_counterexample : ~ iso_response_strict_in_binary32.
Proof.
  intros Hclaim.
  pose (L := {| powf := fun x _ : spec_float => x;
                logf := fun x : spec_float => x;
                exp_f := fun x : spec_float => x |}).
  specialize (Hclaim L (kSRgbTransferFunction (LM := L))
                     3840 2160 4691415 4691416).
  assert (Hin : In (kSRgbTransferFunction (LM := L)) (catalog (LM := L))).
  { unfold catalog. cbn [In]. tauto. }
  specialize (Hclaim Hin).
  unfold INT_MAX in Hclaim.
  specialize (Hclaim ltac:(lia) ltac:(lia) ltac:(lia) ltac:(lia) ltac:(lia)).
  destruct (binary32_iso_collision L) as [E1 E2].
  unfold srgb_args in E1, E2. rewrite E1, E2 in Hclaim.
  vm_compute in Hclaim. discriminate Hclaim.
Qed.

Section IdealClaims.
Local Open Scope R_scope.
Import Ideal.

Lemma round_half_away_is_integer (r : R) :
exists z : Z, round_half_away r = IZR z.
Proof.
unfold round_half_away. destruct (Rle_dec 0 r).
- eauto.
- exists (- floor (/ 2 - r))%Z. rewrite opp_IZR. reflexivity.
Qed.

Lemma Rmin_IZR (a b : Z) : Rmin (IZR a) (IZR b) = IZR (Z.min a b).
Proof.
destruct (Z.le_ge_cases a b) as [L|G].
- rewrite Z.min_l by assumption. apply Rmin_left, IZR_le. assumption.
- rewrite Z.min_r by lia. apply Rmin_right, IZR_le. lia.
Qed.

Lemma truncate_IZR_inv (z e : Z) : truncate (IZR z) = Some e -> e = z.
Proof.
unfold truncate. destruct (Rle_dec 0 (IZR z)).
- rewrite floor_IZR. destruct (in_int_range z); congruence.
- rewrite <- opp_IZR, floor_IZR, Z.opp_involutive.
destruct (in_int_range z); congruence.
Qed.

(** C1, amended. When the product of the dimensions is an [int], the
amplitude stored for each of the 14 sample points i/13 is the
specification's pipeline (exposure 10/iso, pixel area, mid-tone
electrons, full scale through the curve's mid-tone, quadrature noise,
finite-difference slope over the clipped +/-2-noise interval) rounded
with round(255 * 7.88 * encoded_noise) and capped at 255. It holds for
every ISO setting and every curve, so for the positive ones and the
catalog's. Arithmetic is exact (real numbers). *)
Theorem C1_amplitude_is_capped_rounded_pipeline
(args : photon_noise_args_t R) (fg0 fg : aom_film_grain_t) (i : Z) :
film_grain_wf fg0 ->
no_overflow (width args) (height args) ->
generate_photon_noise args fg0 = Some fg ->
(0 <= i < 14)%Z ->
exists e : Z,
nth_error (scaling_points_y fg) (Z.to_nat i)
= Some (nth (Z.to_nat i) x_grid 0%Z, e) /\
IZR e = Rmin 255 (Reference.rounded_amplitude
                (width args) (height args) (iso_setting args)
                (transfer_function args) i).
Proof.
intros Hwf Hno Hgen Hi.
destruct (generate_photon_noise_points args fg0 fg Hwf Hgen) as [_ Hpts].
destruct (Hpts i Hi) as ([x e] & Hp & Hn).
unfold scaling_point in Hp.
rewrite ideal_to_int_quantized_x in Hp by assumption.
rewrite (ideal_quantized_noise args Hno) in Hp.
destruct (round_half_away_is_integer
      (255 * 7.88 * Reference.noise_encoded (width args)
         (height args) (iso_setting args) (transfer_function args) i))
as [z Hz].
unfold Reference.rounded_amplitude in Hp |- *. rewrite Hz in Hp |- *.
rewrite Rmin_IZR in Hp |- *. cbn [to_int Ideal.arith] in Hp.
destruct (truncate (IZR (Z.min 255 z))) as [e'|] eqn:He; [|discriminate].
apply truncate_IZR_inv in He. subst e'.
injection Hp as <- <-.
exists (Z.min 255 z). split; [exact Hn | reflexivity].
Qed.

Lemma C1_amplitude_is_capped_rounded_pipeline_witness :
film_grain_wf zeroed_film_grain /\
no_overflow (width saturated_args) (height saturated_args) /\
generate_photon_noise saturated_args zeroed_film_grain
= Some saturated_film_grain /\
(0 <= 5 < 14)%Z /\
exists e : Z,
nth_error (scaling_points_y saturated_film_grain) (Z.to_nat 5)
= Some (nth (Z.to_nat 5) x_grid 0%Z, e) /\
IZR e = Rmin 255 (Reference.rounded_amplitude
                (width saturated_args) (height saturated_args)
                (iso_setting saturated_args)
                (transfer_function saturated_args) 5).
Proof.
assert (H5 : (0 <= 5 < 14)%Z) by lia.
split; [exact zeroed_film_grain_wf|].
split; [exact saturated_no_overflow|].
split; [exact saturated_run|].
split; [exact H5|].
exact (C1_amplitude_is_capped_rounded_pipeline saturated_args
   zeroed_film_grain saturated_film_grain 5
   zeroed_film_grain_wf saturated_no_overflow saturated_run H5).
Defined.

(** C1 as stated fails where the cap applies: for an 8192 x 4320 sRGB
frame at ISO 3276800 the pipeline's rounded amplitude at the first
sample point is 3233, and the amplitude stored is 255. *)
Lemma C1_counterexample :
generate_photon_noise saturated_args zeroed_film_grain
= Some saturated_film_grain /\
nth_error (scaling_points_y saturated_film_grain) 0 = Some (0%Z, 255%Z) /\
Reference.rounded_amplitude 8192 4320 3276800 kSRgbTransferFunction 0
= 3233.
Proof.
split; [exact saturated_run|].
split; [reflexivity | exact saturated_rounded_amplitude_0].
Qed.

(** C5, amended. In exact arithmetic and with the product of the
dimensions an [int], a larger ISO setting gives a strictly smaller
full-scale electron count, for every curve of the catalog. *)
Theorem C5_full_scale_decreases_with_iso
(tf : transfer_function_t R) (w h iso1 iso2 : Z) :
In tf catalog ->
no_overflow w h ->
(0 < iso1)%Z -> (iso1 < iso2)%Z ->
max_electrons_per_pixel (make_args w h iso2 tf)
< max_electrons_per_pixel (make_args w h iso1 tf).
Proof.
intros Hin Hno H1 H12.
rewrite !ideal_max_electrons_per_pixel by exact Hno.
cbn [width height iso_setting transfer_function make_args].
unfold Reference.full_scale_electrons, Reference.mid_tone_electrons,
Reference.exposure, Reference.pixel_area.
destruct Hno as (Hw & Hh & _).
apply IZR_lt in Hw, Hh, H1, H12.
assert (Hm : 0 < mid_tone tf).
{ destruct (ideal_mid_tone_catalog tf Hin) as [->|[->| ->]]; lra. }
assert (Hwh : 0 < IZR w * IZR h) by (apply Rmult_lt_0_compat; lra).
assert (Hiso : / IZR iso2 < / IZR iso1).
{ apply Rinv_lt_contravar; [apply Rmult_lt_0_compat|]; lra. }
assert (Ha : 0 < 36000 * 24000 / (IZR w * IZR h)).
{ apply Rdiv_lt_0_compat; lra. }
unfold Rdiv at 1 3.
apply Rmult_lt_compat_r; [apply Rinv_0_lt_compat; exact Hm|].
apply Rmult_lt_compat_r; [exact Ha|].
unfold Rdiv. nra.
Qed.

Lemma C5_full_scale_decreases_with_iso_witness :
In kSRgbTransferFunction catalog /\
no_overflow 3840 2160 /\
(0 < 4691415)%Z /\ (4691415 < 4691416)%Z /\
max_electrons_per_pixel
(make_args 3840 2160 4691416 kSRgbTransferFunction)
< max_electrons_per_pixel
(make_args 3840 2160 4691415 kSRgbTransferFunction).
Proof.
assert (Hin : In (kSRgbTransferFunction (F := R)) catalog).
{ unfold catalog. cbn [In]. tauto. }
assert (Hno : no_overflow 3840 2160) by (unfold no_overflow, INT_MAX; lia).
assert (H1 : (0 < 4691415)%Z) by lia.
assert (H2 : (4691415 < 4691416)%Z) by lia.
split; [exact Hin|]. split; [exact Hno|].
split; [exact H1|]. split; [exact H2|].
exact (C5_full_scale_decreases_with_iso kSRgbTransferFunction
   3840 2160 4691415 4691416 Hin Hno H1 H2).
Defined.
End IdealClaims.

(** *** The HLG curve *)

Section IdealHlg.
Local Open Scope R_scope.
Import Ideal.

Lemma ideal_hlg_to_linear (x : R) :
hlg_to_linear x = Reference.hlg_ootf (Reference.hlg_oetf_inverse x).
Proof.
unfold hlg_to_linear, Reference.hlg_ootf, Reference.hlg_oetf_inverse.
cbv zeta. rewrite ideal_kHlgA, ideal_kHlgB, ideal_kHlgC. ideal_ops.
unfold Rleb.
replace (5 / 10) with 0.5 by lra. replace (12 / 10) with 1.2 by lra.
destruct (Rle_dec x 0.5); f_equal; lra.
Qed.

Lemma ideal_hlg_from_linear (x : R) :
hlg_from_linear x = Reference.hlg_oetf (Reference.hlg_ootf_inverse x).
Proof.
unfold hlg_from_linear, Reference.hlg_oetf, Reference.hlg_ootf_inverse.
cbv zeta. rewrite ideal_kHlgA, ideal_kHlgB, ideal_kHlgC. ideal_ops.
unfold Rleb.
replace (1 / (12 / 10)) with (1 / 1.2) by lra.
destruct (Rle_dec (power x (1 / 1.2)) (1 / 12)); reflexivity.
Qed.

(** C6. The HLG curve of the catalog: [to_linear] is the OOTF (system
gamma 1.2) after the canonical OETF inverse, that is (x^2/3)^1.2 up to
0.5 and (((exp((x - c)/a)) + b)/12)^1.2 above, with a = 0.17883277,
b = 0.28466892, c = 0.55991073; [from_linear] is the OETF after the
OOTF inverse; the mid-tone is 26/1000. *)
Theorem C6_hlg_composes_ootf_and_oetf (x : R) :
to_linear kHlgTransferFunction x
= Reference.hlg_ootf (Reference.hlg_oetf_inverse x) /\
from_linear kHlgTransferFunction x
= Reference.hlg_oetf (Reference.hlg_ootf_inverse x) /\
(x <= 0.5 -> to_linear kHlgTransferFunction x = power (x ^ 2 / 3) 1.2) /\
(0.5 < x ->
 to_linear kHlgTransferFunction x
 = power ((exp ((x - 0.55991073) / 0.17883277) + 0.28466892) / 12) 1.2) /\
mid_tone (F := R) kHlgTransferFunction = 26 / 1000.
Proof.
cbn [to_linear from_linear mid_tone kHlgTransferFunction].
rewrite ideal_hlg_to_linear, ideal_hlg_from_linear.
split; [reflexivity|]. split; [reflexivity|].
unfold Reference.hlg_ootf, Reference.hlg_oetf_inverse,
Reference.hlg_a, Reference.hlg_b, Reference.hlg_c.
split; [|split].
- intros Hx. destruct (Rle_dec x 0.5); [reflexivity | lra].
- intros Hx. destruct (Rle_dec x 0.5); [lra | reflexivity].
- ideal_ops. reflexivity.
Qed.
End IdealHlg.

(** *** The curves on [0,1]: the gamma curves *)

Section IdealGamma.
Local Open Scope R_scope.
Import Ideal.

Lemma power_nondecreasing (y hi : R) :
0 < y -> nondecreasing_between (fun x => power x y) 0 hi.
Proof. intros Hy x1 x2 H0 H12 _. apply power_le; lra. Qed.

Lemma gamma22_monotone :
nondecreasing_between (to_linear kGamma22TransferFunction) 0 1 /\
nondecreasing_between (from_linear kGamma22TransferFunction) 0 1.
Proof.
cbn [to_linear from_linear kGamma22TransferFunction].
split; intros x y H0 Hxy H1.
- rewrite !ideal_gamma22_to_linear. apply power_le; lra.
- rewrite !ideal_gamma22_from_linear. apply power_le; lra.
Qed.

Lemma gamma28_monotone :
nondecreasing_between (to_linear kGamma28TransferFunction) 0 1 /\
nondecreasing_between (from_linear kGamma28TransferFunction) 0 1.
Proof.
cbn [to_linear from_linear kGamma28TransferFunction].
split; intros x y H0 Hxy H1.
- rewrite !ideal_gamma28_to_linear. apply power_le; lra.
- rewrite !ideal_gamma28_from_linear. apply power_le; lra.
Qed.



End IdealGamma.

(** *** The curves on [0,1]: sRGB *)

Section IdealSrgb.
Local Open Scope R_scope.
Import Ideal.


Lemma five_twelfths : 1 / 2.4 = INR 5 / INR 12.
Proof. simpl. lra. Qed.



(** [srgb_from_linear] is non-decreasing on each of its two branches. *)
Lemma srgb_from_linear_monotone_low :
nondecreasing_between (from_linear kSRgbTransferFunction) 0 0.0031308.
Proof.
cbn [from_linear kSRgbTransferFunction]. intros x y H0 Hxy H1.
rewrite !ideal_srgb_from_linear_low by lra. lra.
Qed.

Lemma srgb_from_linear_monotone_high :
nondecreasing_above (from_linear kSRgbTransferFunction) 0.0031308 1.
Proof.
cbn [from_linear kSRgbTransferFunction]. intros x y H0 Hxy H1.
rewrite !ideal_srgb_from_linear_high by lra.
assert (power x (1 / 2.4) <= power y (1 / 2.4)) by (apply power_le; lra).
lra.
Qed.


(** Bounds of the power branches next to the branch points. *)
Lemma srgb_from_linear_high_lower (l : R) :
0.0031308 <= l -> 0.0404499 <= 1.055 * power l (1 / 2.4) - 0.055.
Proof.
intros Hl.
assert (H : (0.0404499 + 0.055) / 1.055 <= power 0.0031308 (1 / 2.4)).
{ rewrite power_pos by lra. rewrite five_twelfths.
apply Rpower_q_ge; try lra; try lia. }
assert (power 0.0031308 (1 / 2.4) <= power l (1 / 2.4))
by (apply power_le; lra).
lra.
Qed.


End IdealSrgb.

(** *** The curves on [0,1]: PQ *)

Section IdealPq.
Local Open Scope R_scope.
Import Ideal.

Let m1 : R := 2610 / 16384.
Let m2 : R := 128 * 2523 / 4096.
Let c1 : R := 3424 / 4096.
Let c2 : R := 32 * 2413 / 4096.
Let c3 : R := 32 * 2392 / 4096.

(** The rational map inside the EOTF and the one inside its inverse. *)
Let eotf_ratio (p : R) : R := Rmax 0 (p - c1) / (c2 - c3 * p).
Let inverse_ratio (t : R) : R := (c1 + c2 * t) / (1 + c3 * t).

Lemma pq_to_linear_eq (x : R) :
pq_to_linear x = power (eotf_ratio (power x (1 / m2))) (1 / m1).
Proof.
rewrite ideal_pq_to_linear.
rewrite ideal_kPqM1, ideal_kPqM2, ideal_kPqC1, ideal_kPqC2, ideal_kPqC3.
reflexivity.
Qed.

Lemma pq_from_linear_eq (l : R) :
pq_from_linear l = power (inverse_ratio (power l m1)) m2.
Proof.
rewrite ideal_pq_from_linear.
rewrite ideal_kPqM1, ideal_kPqM2, ideal_kPqC1, ideal_kPqC2, ideal_kPqC3.
reflexivity.
Qed.

Lemma eotf_ratio_nonneg (p : R) : 0 <= p <= 1 -> 0 <= eotf_ratio p.
Proof.
intros Hp. unfold eotf_ratio.
apply Rmult_le_pos; [apply Rmax_l|].
left. apply Rinv_0_lt_compat. unfold c2, c3. lra.
Qed.

Lemma eotf_ratio_le (p q : R) :
0 <= p -> p <= q -> q <= 1 -> eotf_ratio p <= eotf_ratio q.
Proof.
intros H0 Hpq H1. unfold eotf_ratio.
assert (Hn : 0 <= Rmax 0 (p - c1) <= Rmax 0 (q - c1)).
{ split; [apply Rmax_l|]. apply Rle_max_compat_l. lra. }
assert (Hq : 0 < c2 - c3 * q) by (unfold c2, c3; lra).
assert (Hp : c2 - c3 * q <= c2 - c3 * p) by (unfold c3; lra).
set (a := Rmax 0 (p - c1)) in *. set (b := Rmax 0 (q - c1)) in *.
apply Rle_trans with (a / (c2 - c3 * q)).
- unfold Rdiv. apply Rmult_le_compat_l; [lra|].
apply Rinv_le_contravar; lra.
- unfold Rdiv. apply Rmult_le_compat_r; [|lra].
left. apply Rinv_0_lt_compat. lra.
Qed.

Lemma inverse_ratio_bounds (t : R) :
0 <= t <= 1 -> c1 <= inverse_ratio t <= 1.
Proof.
intros Ht. unfold inverse_ratio.
assert (Hd : 0 < 1 + c3 * t) by (unfold c3; nra).
split.
- apply Rmult_le_reg_r with (1 + c3 * t); [exact Hd|].
unfold Rdiv. rewrite Rmult_assoc, Rinv_l by lra.
unfold c1, c2, c3 in *. nra.
- apply Rmult_le_reg_r with (1 + c3 * t); [exact Hd|].
unfold Rdiv. rewrite Rmult_assoc, Rinv_l by lra.
unfold c1, c2, c3 in *. nra.
Qed.

Lemma inverse_ratio_le (s t : R) :
0 <= s -> s <= t -> inverse_ratio s <= inverse_ratio t.
Proof.
intros H0 Hst. unfold inverse_ratio.
assert (Hs : 0 < 1 + c3 * s) by (unfold c3; nra).
assert (Ht : 0 < 1 + c3 * t) by (unfold c3; nra).
apply Rmult_le_reg_r with (1 + c3 * s); [exact Hs|].
apply Rmult_le_reg_r with (1 + c3 * t); [exact Ht|].
replace ((c1 + c2 * s) / (1 + c3 * s) * (1 + c3 * s) * (1 + c3 * t))
with ((c1 + c2 * s) * (1 + c3 * t)) by (field; lra).
replace ((c1 + c2 * t) / (1 + c3 * t) * (1 + c3 * s) * (1 + c3 * t))
with ((c1 + c2 * t) * (1 + c3 * s)) by (field; lra).
unfold c1, c2, c3 in *. nra.
Qed.



Lemma pq_monotone :
nondecreasing_between (to_linear kPqTransferFunction) 0 1 /\
nondecreasing_between (from_linear kPqTransferFunction) 0 1.
Proof.
cbn [to_linear from_linear kPqTransferFunction].
split; intros x y H0 Hxy H1.
- rewrite !pq_to_linear_eq.
assert (Hp : power x (1 / m2) <= power y (1 / m2))
by (apply power_le; unfold m2; lra).
assert (Hy : power y (1 / m2) <= 1)
by (apply power_le_1; unfold m2; lra).
pose proof (power_nonneg x (1 / m2)) as Hx0.
apply power_le; [unfold m1; lra|]. split.
+ apply eotf_ratio_nonneg. lra.
+ apply eotf_ratio_le; lra.
- rewrite !pq_from_linear_eq.
assert (Ht : power x m1 <= power y m1)
by (apply power_le; unfold m1; lra).
assert (Hy : power y m1 <= 1) by (apply power_le_1; unfold m1; lra).
pose proof (power_nonneg x m1) as Hx0.
pose proof (inverse_ratio_bounds (power x m1) ltac:(lra)) as Hb.
apply power_le; [unfold m2; lra|]. split.
+ unfold c1 in Hb. lra.
+ apply inverse_ratio_le; lra.
Qed.


End IdealPq.

(** *** Bounds of the exponential *)

Section ExpBounds.
Local Open Scope R_scope.

Lemma exp_term_eq (x : R) (k : nat) : exp_term x k = x ^ k / INR (fact k).
Proof.
induction k as [|k IH].
- simpl. lra.
- cbn [exp_term]. rewrite IH.
change (fact (S k)) with (S k * fact k)%nat. rewrite mult_INR.
cbn [pow]. field. split; [apply INR_fact_neq_0 | apply not_0_INR; lia].
Qed.

Lemma exp_term_nonneg (x : R) (k : nat) : 0 <= x -> 0 <= exp_term x k.
Proof.
intros Hx. induction k as [|k IH]; cbn [exp_term]; [lra|].
apply Rmult_le_pos; [apply Rmult_le_pos; assumption|].
left. apply Rinv_0_lt_compat, lt_0_INR. lia.
Qed.

Lemma exp_term_decreasing (x : R) :
0 <= x <= 1 -> Un_decreasing (exp_term x).
Proof.
intros Hx k. cbn [exp_term].
pose proof (exp_term_nonneg x k (proj1 Hx)) as Hk.
assert (Hn : 1 <= INR (S k)).
{ change 1 with (INR 1). apply le_INR. lia. }
apply Rmult_le_reg_r with (INR (S k)); [lra|].
unfold Rdiv. rewrite Rmult_assoc, Rinv_l, Rmult_1_r by lra.
nra.
Qed.

(** The partial sums of odd and of even order enclose exp (-x), for x
between 0 and 1. *)
Lemma exp_neg_enclosure (x : R) (N : nat) :
0 <= x <= 1 ->
exp_neg_partial x (S (2 * N)) <= exp (- x) <= exp_neg_partial x (2 * N).
Proof.
intros Hx. unfold exp_neg_partial.
apply (alternated_series_ineq (exp_term x) (exp (- x)) N).
- apply exp_term_decreasing. exact Hx.
- pose proof (cv_speed_pow_fact x) as Hcv.
intros eps Heps. destruct (Hcv eps Heps) as [n0 Hn0].
exists n0. intros n Hn. rewrite exp_term_eq. apply Hn0. exact Hn.
- unfold exp. destruct (exist_exp (- x)) as [l Hl]. cbn [proj1_sig].
intros eps Heps. destruct (Hl eps Heps) as [n0 Hn0].
exists n0. intros n Hn.
replace (sum_f_R0 (tg_alt (exp_term x)) n)
with (sum_f_R0 (fun i => / INR (fact i) * (- x) ^ i) n).
+ apply Hn0. exact Hn.
+ apply sum_eq. intros i _. unfold tg_alt. rewrite exp_term_eq.
replace (- x) with (-1 * x) by lra. rewrite Rpow_mult_distr.
unfold Rdiv. ring.
Qed.

(** [ln] against a bound, through [exp]. *)
Lemma ln_ge_of_exp_le (t y : R) : 0 < y -> exp t <= y -> t <= ln y.
Proof.
intros Hy He. rewrite <- (ln_exp t).
destruct (Rle_lt_or_eq_dec _ _ He) as [L|E].
- left. apply ln_increasing; [apply exp_pos | exact L].
- rewrite E. lra.
Qed.

Lemma ln_gt_of_exp_lt (t y : R) : exp t < y -> t < ln y.
Proof.
intros He. rewrite <- (ln_exp t).
apply ln_increasing; [apply exp_pos | exact He].
Qed.
End ExpBounds.

(** *** The curves on [0,1]: HLG *)

Section IdealHlgRange.
Local Open Scope R_scope.
Import Ideal.

Let a : R := Reference.hlg_a.
Let b : R := Reference.hlg_b.
Let c : R := Reference.hlg_c.

(** The exponential branch of the OETF inverse starts just below the value
1/12 at which the square branch ends: exp ((0.5 - c) / a) < 1 - b, by
less than 2e-9. The two lemmas evaluate the series to order 10. *)
Lemma hlg_exp_at_half : exp ((0.5 - c) / a) < 1 - b.
Proof.
replace ((0.5 - c) / a) with (- (5991073 / 17883277))
by (unfold a, c, Reference.hlg_a, Reference.hlg_c; lra).
destruct (exp_neg_enclosure (5991073 / 17883277) 5 ltac:(lra)) as [_ Hup].
eapply Rle_lt_trans; [exact Hup|].
unfold exp_neg_partial, b, Reference.hlg_b. simpl. lra.
Qed.

Lemma hlg_exp_just_above_half :
exp ((0.5000000001 - c) / a) < 1 - b.
Proof.
replace ((0.5000000001 - c) / a) with (- (599107299 / 1788327700))
by (unfold a, c, Reference.hlg_a, Reference.hlg_c; lra).
destruct (exp_neg_enclosure (599107299 / 1788327700) 5 ltac:(lra))
as [_ Hup].
eapply Rle_lt_trans; [exact Hup|].
unfold exp_neg_partial, b, Reference.hlg_b. simpl. lra.
Qed.



Lemma hlg_constants : 0 < a /\ 0 < b < 1 /\ 0 < c.
Proof.
unfold a, b, c, Reference.hlg_a, Reference.hlg_b, Reference.hlg_c. lra.
Qed.

Lemma sqrt_quarter : sqrt (3 * (1 / 12)) = 0.5.
Proof.
replace (3 * (1 / 12)) with (0.5 * 0.5) by lra.
apply sqrt_square. lra.
Qed.

(** The OETF inverse. *)
Lemma hlg_oetf_inverse_low (x : R) :
x <= 0.5 -> Reference.hlg_oetf_inverse x = x ^ 2 / 3.
Proof.
intros Hx. unfold Reference.hlg_oetf_inverse.
destruct (Rle_dec x 0.5); [reflexivity | lra].
Qed.

Lemma hlg_oetf_inverse_high (x : R) :
0.5 < x -> Reference.hlg_oetf_inverse x = (exp ((x - c) / a) + b) / 12.
Proof.
intros Hx. unfold Reference.hlg_oetf_inverse.
destruct (Rle_dec x 0.5); [lra | reflexivity].
Qed.

Lemma hlg_oetf_inverse_nonneg (x : R) : 0 <= Reference.hlg_oetf_inverse x.
Proof.
destruct (Rle_or_lt x 0.5) as [L|G].
- rewrite hlg_oetf_inverse_low by assumption. nra.
- rewrite hlg_oetf_inverse_high by assumption.
pose proof (exp_pos ((x - c) / a)). pose proof hlg_constants. lra.
Qed.

(** The OETF. *)
Lemma hlg_oetf_low (e : R) :
e <= 1 / 12 -> Reference.hlg_oetf e = sqrt (3 * e).
Proof.
intros He. unfold Reference.hlg_oetf.
destruct (Rle_dec e (1 / 12)); [reflexivity | lra].
Qed.

Lemma hlg_oetf_high (e : R) :
1 / 12 < e -> Reference.hlg_oetf e = a * ln (12 * e - b) + c.
Proof.
intros He. unfold Reference.hlg_oetf.
destruct (Rle_dec e (1 / 12)); [lra | reflexivity].
Qed.

Lemma hlg_oetf_low_le_half (e : R) :
0 <= e <= 1 / 12 -> Reference.hlg_oetf e <= 0.5.
Proof.
intros He. rewrite hlg_oetf_low by lra.
rewrite <- sqrt_quarter. apply sqrt_le_1_alt. lra.
Qed.

Lemma hlg_oetf_high_gt_half (e : R) :
1 / 12 < e -> 0.5 < Reference.hlg_oetf e.
Proof.
intros He. rewrite hlg_oetf_high by assumption.
pose proof hlg_constants as (Ha & Hb & Hc).
assert (Hln : (0.5 - c) / a < ln (12 * e - b)).
{ apply ln_gt_of_exp_lt.
apply Rlt_trans with (1 - b); [exact hlg_exp_at_half | lra]. }
apply (Rmult_lt_compat_l a) in Hln; [|exact Ha].
replace (a * ((0.5 - c) / a)) with (0.5 - c) in Hln by (field; lra).
lra.
Qed.

Lemma hlg_oetf_le (e1 e2 : R) :
0 <= e1 -> e1 <= e2 -> Reference.hlg_oetf e1 <= Reference.hlg_oetf e2.
Proof.
intros H0 H12. pose proof hlg_constants as (Ha & Hb & Hc).
destruct (Rle_or_lt e1 (1 / 12)) as [L1|G1];
destruct (Rle_or_lt e2 (1 / 12)) as [L2|G2]; try lra.
- rewrite !hlg_oetf_low by assumption. apply sqrt_le_1_alt. lra.
- pose proof (hlg_oetf_low_le_half e1 ltac:(lra)).
pose proof (hlg_oetf_high_gt_half e2 G2). lra.
- rewrite !hlg_oetf_high by assumption.
assert (ln (12 * e1 - b) <= ln (12 * e2 - b)).
{ destruct (Rle_lt_or_eq_dec _ _ H12) as [Lt|<-]; [|lra].
left. apply ln_increasing; lra. }
nra.
Qed.

Lemma hlg_from_linear_monotone :
nondecreasing_between (from_linear kHlgTransferFunction) 0 1.
Proof.
cbn [from_linear kHlgTransferFunction]. intros x y H0 Hxy H1.
rewrite !ideal_hlg_from_linear. unfold Reference.hlg_ootf_inverse.
apply hlg_oetf_le; [apply power_nonneg | apply power_le; lra].
Qed.



(** Over the reals [hlg_to_linear] steps down right above 0.5, by about
2e-9: the argument 0.5000000001 is no [float]. *)
Lemma hlg_to_linear_steps_down :
hlg_to_linear 0.5000000001 < hlg_to_linear 0.5.
Proof.
rewrite !ideal_hlg_to_linear. unfold Reference.hlg_ootf.
pose proof (hlg_oetf_inverse_nonneg 0.5000000001) as H0.
rewrite (hlg_oetf_inverse_low 0.5) by lra.
rewrite (hlg_oetf_inverse_high 0.5000000001) in * by lra.
apply power_lt; [lra|]. split; [exact H0|].
pose proof hlg_exp_just_above_half. lra.
Qed.



End IdealHlgRange.

(** *** The two maps with a step: how far the step reaches *)

Section AcrossTheBranchPoints.
Local Open Scope R_scope.
Import Ideal.






End AcrossTheBranchPoints.

(** *** Claim C4 *)

Section CurveClaims.
Local Open Scope R_scope.


End CurveClaims.

(** *** The real-number reading on valid inputs: ranges *)

Section IdealRanges.
Local Open Scope R_scope.
Import Ideal.

Lemma nondecreasing_drops (f : R -> R) (delta : R) :
0 <= delta -> nondecreasing_between f 0 1 -> drops_at_most delta f.
Proof.
intros Hd Hf x y H0 Hxy H1. pose proof (Hf x y H0 Hxy H1). lra.
Qed.

Lemma srgb_from_linear_drops :
drops_at_most (1 / 10000000) (from_linear kSRgbTransferFunction).
Proof.
intros x y H0 Hxy H1.
destruct (Rle_or_lt y 0.0031308) as [Ly|Gy].
- pose proof (srgb_from_linear_monotone_low x y H0 Hxy Ly). lra.
- destruct (Rle_or_lt x 0.0031308) as [Lx|Gx].
+ cbn [from_linear kSRgbTransferFunction].
rewrite (ideal_srgb_from_linear_low x) by assumption.
rewrite (ideal_srgb_from_linear_high y) by assumption.
pose proof (srgb_from_linear_high_lower y ltac:(lra)). lra.
+ pose proof (srgb_from_linear_monotone_high x y Gx Hxy H1). lra.
Qed.

(** Every inverse map of the catalog steps down by at most 1e-7. *)
Lemma catalog_from_linear_drops (tf : transfer_function_t R) :
In tf catalog -> drops_at_most (1 / 10000000) (from_linear tf).
Proof.
intros [<-|[<-|[<-|[<-|[<-|[]]]]]].
- apply nondecreasing_drops; [lra | apply gamma22_monotone].
- apply nondecreasing_drops; [lra | apply gamma28_monotone].
- exact srgb_from_linear_drops.
- apply nondecreasing_drops; [lra | apply pq_monotone].
- apply nondecreasing_drops; [lra | exact hlg_from_linear_monotone].
Qed.

Lemma exp_double (x : R) : exp (2 * x) = exp x * exp x.
Proof. replace (2 * x) with (x + x) by lra. apply exp_plus. Qed.

(** exp ((1 - c) / a), the largest exponential [hlg_to_linear] takes on
[0,1], is below 11.8. *)
Lemma hlg_exp_at_one :
exp ((1 - Reference.hlg_c) / Reference.hlg_a) < 11.8.
Proof.
apply Rle_lt_trans with (exp 2.461).
{ left. apply exp_increasing.
unfold Reference.hlg_a, Reference.hlg_c. lra. }
destruct (exp_neg_enclosure (2461 / 4000) 2 ltac:(lra)) as [Hlo _].
unfold exp_neg_partial in Hlo. simpl in Hlo.
set (s := exp (- (2461 / 4000))) in *.
assert (Hs : 0.54 <= s) by lra.
assert (Hq : exp (- 2.461) = (s * s) * (s * s)).
{ replace (- 2.461) with (2 * (2 * - (2461 / 4000))) by lra.
rewrite exp_double, exp_double. reflexivity. }
assert (Hp : 0 < exp (- 2.461)) by apply exp_pos.
assert (Hinv : exp 2.461 * exp (- 2.461) = 1).
{ rewrite <- exp_plus. replace (2.461 + - 2.461) with 0 by lra.
apply exp_0. }
assert (Hs2 : 0.2916 <= s * s) by nra.
assert (Hlow : 0.085 <= exp (- 2.461)) by (rewrite Hq; nra).
nra.
Qed.

Lemma hlg_to_linear_range (x : R) :
0 <= x <= 1 -> 0 <= hlg_to_linear x < 1.01.
Proof.
intros Hx. rewrite ideal_hlg_to_linear. unfold Reference.hlg_ootf.
split; [apply power_nonneg|].
pose proof (hlg_oetf_inverse_nonneg x) as H0.
assert (Hi : Reference.hlg_oetf_inverse x <= 1.008).
{ destruct (Rle_or_lt x 0.5) as [L|G].
- rewrite hlg_oetf_inverse_low by assumption. nra.
- rewrite hlg_oetf_inverse_high by assumption.
assert (exp ((x - Reference.hlg_c) / Reference.hlg_a)
        <= exp ((1 - Reference.hlg_c) / Reference.hlg_a)).
{ destruct (Rle_lt_or_eq_dec x 1 (proj2 Hx)) as [Lt| ->]; [|lra].
  left. apply exp_increasing. unfold Rdiv.
  apply Rmult_lt_compat_r; [|lra].
  apply Rinv_0_lt_compat. unfold Reference.hlg_a. lra. }
pose proof hlg_exp_at_one. unfold Reference.hlg_b. lra. }
apply Rle_lt_trans with (power 1.008 1.2).
- apply power_le; lra.
- rewrite power_pos by lra.
replace 1.2 with (INR 6 / INR 5) by (simpl; lra).
apply Rpower_q_lt; try lra; try lia.
Qed.

Lemma pq_to_linear_range (x : R) : 0 <= x <= 1 -> 0 <= pq_to_linear x <= 1.
Proof.
intros Hx. rewrite ideal_pq_to_linear.
rewrite ideal_kPqM1, ideal_kPqM2, ideal_kPqC1, ideal_kPqC2, ideal_kPqC3.
split; [apply power_nonneg|].
set (p := power x (1 / (128 * 2523 / 4096))).
assert (Hp : 0 <= p <= 1).
{ split; [apply power_nonneg | apply power_le_1; lra]. }
apply power_le_1; [lra|].
assert (Hd : 0 < 32 * 2413 / 4096 - 32 * 2392 / 4096 * p) by lra.
split.
- apply Rmult_le_pos; [apply Rmax_l|].
left. apply Rinv_0_lt_compat. exact Hd.
- apply Rmult_le_reg_r with (32 * 2413 / 4096 - 32 * 2392 / 4096 * p);
[exact Hd|].
unfold Rdiv at 1. rewrite Rmult_assoc, Rinv_l, Rmult_1_r by lra.
apply Rmax_lub; lra.
Qed.

(** Every forward map of the catalog sends [0,1] into [0, 1.01). *)
Lemma catalog_to_linear_range (tf : transfer_function_t R) (x : R) :
In tf catalog -> 0 <= x <= 1 -> 0 <= to_linear tf x < 1.01.
Proof.
intros [<-|[<-|[<-|[<-|[<-|[]]]]]] Hx;
cbn [to_linear kGamma22TransferFunction kGamma28TransferFunction
   kSRgbTransferFunction kPqTransferFunction kHlgTransferFunction].
- rewrite ideal_gamma22_to_linear.
pose proof (power_nonneg x 2.2).
pose proof (power_le_1 x 2.2 ltac:(lra) Hx). lra.
- rewrite ideal_gamma28_to_linear.
pose proof (power_nonneg x 2.8).
pose proof (power_le_1 x 2.8 ltac:(lra) Hx). lra.
- pose proof (ideal_srgb_to_linear_range x Hx). lra.
- pose proof (pq_to_linear_range x Hx). lra.
- exact (hlg_to_linear_range x Hx).
Qed.

(** The inverse maps at the two ends of [0,1]. *)
Lemma catalog_from_linear_ends (tf : transfer_function_t R) :
In tf catalog -> from_linear tf 0 <= from_linear tf 1.
Proof.
intros Hin.
destruct Hin as [<-|[<-|[<-|[<-|[<-|[]]]]]].
- apply gamma22_monotone; lra.
- apply gamma28_monotone; lra.
- cbn [from_linear kSRgbTransferFunction].
rewrite ideal_srgb_from_linear_0, ideal_srgb_from_linear_1. lra.
- apply pq_monotone; lra.
- apply hlg_from_linear_monotone; lra.
Qed.
End IdealRanges.

(** *** The real-number reading on valid inputs: the loop body *)

Section IdealValid.
Local Open Scope R_scope.
Import Ideal.

Variables (w h iso : Z) (tf : transfer_function_t R).
Hypothesis Hwh : no_overflow w h.
Hypothesis Hiso : (0 < iso)%Z.
Hypothesis Hmid : 0 < mid_tone tf.

Let fs : R := Reference.full_scale_electrons w h iso tf.

Lemma valid_full_scale_positive : 0 < fs.
Proof.
unfold fs, Reference.full_scale_electrons, Reference.mid_tone_electrons,
Reference.exposure, Reference.pixel_area.
destruct Hwh as (Hw & Hh & _).
apply IZR_lt in Hw, Hh, Hiso.
assert (0 < IZR w * IZR h) by (apply Rmult_lt_0_compat; lra).
apply Rdiv_lt_0_compat; [|exact Hmid].
apply Rmult_lt_0_compat; [apply Rmult_lt_0_compat; [lra|]|];
apply Rdiv_lt_0_compat; lra.
Qed.

Variable i : Z.
Let l : R := Reference.linear_light tf i.
Let n : R := Reference.noise_linear w h iso tf i.
Let lo : R := Reference.interval_lo w h iso tf i.
Let hi : R := Reference.interval_hi w h iso tf i.
Hypothesis Hl : 0 <= l < 1.01.

(** The linear noise is positive, and at least the non-uniformity share
0.005 of the signal. *)
Lemma valid_noise_linear : 0 < n /\ 0.005 * l <= n.
Proof.
pose proof valid_full_scale_positive as Hfs.
unfold n, Reference.noise_linear, Reference.noise_electrons,
Reference.electrons. fold fs l.
assert (He : 0 <= fs * l) by nra.
pose proof (sqrt_ge_read_noise _ He) as H1.
assert (H2 : 0.005 * (fs * l)
         <= sqrt (1.5 ^ 2 + fs * l + (0.005 * (fs * l)) ^ 2)).
{ rewrite <- (sqrt_pow2 (0.005 * (fs * l))) at 1 by nra.
apply sqrt_le_1_alt. nra. }
set (s := sqrt _) in *.
split.
- apply Rdiv_lt_0_compat; lra.
- apply Rmult_le_reg_r with fs; [exact Hfs|].
replace (s / fs * fs) with s by (field; lra). lra.
Qed.

(** The clipped interval does not collapse. *)
Lemma valid_interval : 0 <= lo /\ lo < hi /\ hi <= 1.
Proof.
destruct valid_noise_linear as [Hn Hnl].
unfold lo, hi, Reference.interval_lo, Reference.interval_hi. fold l n.
split; [apply Rmax_l|]. split; [|apply Rmin_l].
apply Rmax_lub_lt; apply Rmin_glb_lt; lra.
Qed.

Lemma valid_interval_width :
l <= 1 -> (lo = 0 /\ hi = 1) \/ 2 * n <= hi - lo.
Proof.
intros Hl1. destruct valid_noise_linear as [Hn Hnl].
unfold lo, hi, Reference.interval_lo, Reference.interval_hi. fold l n.
destruct (Rle_or_lt (l - 2 * n) 0) as [A|A];
destruct (Rle_or_lt 1 (l + 2 * n)) as [B|B].
- left. split; [apply Rmax_left | apply Rmin_left]; lra.
- right. rewrite Rmax_left, Rmin_right by lra. lra.
- right. rewrite Rmax_right, Rmin_left by lra. lra.
- right. rewrite Rmax_right, Rmin_right by lra. lra.
Qed.

Hypothesis Hends : from_linear tf 0 <= from_linear tf 1.
Hypothesis Hshape :
nondecreasing_between (from_linear tf) 0 1 \/
(drops_at_most (1 / 10000000) (from_linear tf) /\ l <= 1).

(** The encoded noise is non-negative up to the step of the inverse map:
it stays far above the -1/(2 * 255 * 7.88) that would round to -1. *)
Lemma valid_noise_encoded :
- (1 / 10000000) <= Reference.noise_encoded w h iso tf i.
Proof.
destruct valid_noise_linear as [Hn Hnl].
destruct valid_interval as (Hlo & Hlt & Hhi).
unfold Reference.noise_encoded, Reference.slope. fold n lo hi.
set (d := from_linear tf hi - from_linear tf lo).
assert (Hw : 0 < hi - lo) by lra.
destruct Hshape as [Hmono | [Hdrop Hl1]].
- assert (0 <= d) by (pose proof (Hmono lo hi Hlo (Rlt_le _ _ Hlt) Hhi);
                  unfold d; lra).
assert (0 <= n * (d / (hi - lo))); [|lra].
apply Rmult_le_pos; [lra|].
apply Rmult_le_pos; [lra|]. left. apply Rinv_0_lt_compat. lra.
- assert (Hd : - (1 / 10000000) <= d).
{ pose proof (Hdrop lo hi Hlo (Rlt_le _ _ Hlt) Hhi). unfold d. lra. }
destruct (Rle_or_lt 0 d) as [P|N].
+ assert (0 <= n * (d / (hi - lo))); [|lra].
apply Rmult_le_pos; [lra|].
apply Rmult_le_pos; [lra|]. left. apply Rinv_0_lt_compat. lra.
+ destruct (valid_interval_width Hl1) as [[E0 E1]|Hwide].
* exfalso. unfold d in N. rewrite E0, E1 in N. lra.
* apply Rmult_le_reg_r with (hi - lo); [exact Hw|].
  replace (n * (d / (hi - lo)) * (hi - lo)) with (n * d)
    by (field; lra).
  nra.
Qed.

(** The value converted to [int]: an integer between 0 and 255. *)
Lemma valid_quantized :
exists e : Z,
(0 <= e <= 255)%Z /\
Rmin 255 (Reference.rounded_amplitude w h iso tf i) = IZR e.
Proof.
pose proof valid_noise_encoded as Henc.
unfold Reference.rounded_amplitude.
set (v := 255 * 7.88 * Reference.noise_encoded w h iso tf i).
assert (Hv : - / 2 < v) by (unfold v; lra).
destruct (round_half_away_is_integer v) as [z Hz].
assert (Hz0 : (0 <= z)%Z).
{ apply le_IZR. rewrite <- Hz. unfold round_half_away.
destruct (Rle_dec 0 v) as [P|N].
- apply IZR_le.
apply Z.le_trans with (floor 0); [rewrite floor_IZR; lia|].
apply floor_le. lra.
- replace (floor (/ 2 - v)) with 0%Z; [lra|].
symmetry. apply floor_unique. lra. }
rewrite Hz, Rmin_IZR.
exists (Z.min 255 z). split; [lia | reflexivity].
Qed.
End IdealValid.

(** *** The real-number reading on valid inputs: the claims without
    overflow *)

Section IdealValidRuns.
Local Open Scope R_scope.
Import Ideal.

Lemma sample_in_unit (i : Z) :
(0 <= i < 14)%Z -> 0 <= Reference.sample i <= 1.
Proof.
intros Hi. unfold Reference.sample.
assert (0 <= IZR i <= 13); [|lra].
split; [apply IZR_le; lia | apply (IZR_le i 13); lia].
Qed.

(** The divisor of the finite difference is positive in exact arithmetic
when the product of the dimensions is an [int], the ISO setting and the
mid-tone are positive and the forward map sends [0,1] into [0,1]. *)
Theorem ideal_slope_denominator_positive
  (args : photon_noise_args_t R) (i : Z) :
no_overflow (width args) (height args) ->
(0 < iso_setting args)%Z ->
0 < mid_tone (transfer_function args) ->
(forall x, 0 <= x <= 1 ->
       0 <= to_linear (transfer_function args) x <= 1) ->
(0 <= i < 14)%Z ->
0 < slope_denominator args 14 i.
Proof.
intros Hno Hiso Hmid Hrange Hi.
rewrite ideal_slope_denominator by exact Hno.
pose proof (Hrange _ (sample_in_unit i Hi)) as Hl.
destruct (valid_interval (width args) (height args) (iso_setting args)
        (transfer_function args) Hno Hiso Hmid i)
as (_ & Hlt & _).
{ unfold Reference.linear_light. lra. }
lra.
Qed.

Lemma ideal_slope_denominator_positive_witness :
no_overflow (width saturated_args) (height saturated_args) /\
(0 < iso_setting saturated_args)%Z /\
0 < mid_tone (transfer_function saturated_args) /\
(forall x, 0 <= x <= 1 ->
       0 <= to_linear (transfer_function saturated_args) x <= 1) /\
(0 <= 13 < 14)%Z /\
0 < slope_denominator saturated_args 14 13.
Proof.
assert (Hiso : (0 < iso_setting saturated_args)%Z) by (cbn; lia).
assert (Hmid : 0 < mid_tone (transfer_function saturated_args)).
{ cbn [mid_tone transfer_function saturated_args srgb_args make_args
   kSRgbTransferFunction]. ideal_ops. lra. }
assert (Hi : (0 <= 13 < 14)%Z) by lia.
split; [exact saturated_no_overflow|]. split; [exact Hiso|].
split; [exact Hmid|]. split; [exact ideal_srgb_to_linear_range|].
split; [exact Hi|].
exact (ideal_slope_denominator_positive saturated_args 13
     saturated_no_overflow Hiso Hmid ideal_srgb_to_linear_range Hi).
Defined.

(** For each curve of the catalog and each sample point, either the
inverse map is non-decreasing, or it steps down by at most 1e-7 and the
linear value is at most 1. *)
Lemma catalog_shape (tf : transfer_function_t R) (x : R) :
In tf catalog -> 0 <= x <= 1 ->
nondecreasing_between (from_linear tf) 0 1 \/
(drops_at_most (1 / 10000000) (from_linear tf) /\ to_linear tf x <= 1).
Proof.
intros [<-|[<-|[<-|[<-|[<-|[]]]]]] Hx.
- left. apply gamma22_monotone.
- left. apply gamma28_monotone.
- right. split; [exact srgb_from_linear_drops|].
apply ideal_srgb_to_linear_range. exact Hx.
- left. apply pq_monotone.
- left. exact hlg_from_linear_monotone.
Qed.

Lemma catalog_mid_tone_positive (tf : transfer_function_t R) :
In tf catalog -> 0 < mid_tone tf.
Proof.
intros Hin. destruct (ideal_mid_tone_catalog tf Hin) as [->|[->| ->]]; lra.
Qed.

(** Row [i] on a valid input: defined, on the grid, amplitude within
[0,255]. *)
Lemma valid_scaling_point (tf : transfer_function_t R) (w h iso i : Z) :
In tf catalog -> no_overflow w h -> (0 < iso)%Z -> (0 <= i < 14)%Z ->
exists e : Z,
(0 <= e <= 255)%Z /\
scaling_point (make_args w h iso tf) 14 i
= Some (nth (Z.to_nat i) x_grid 0%Z, e).
Proof.
intros Hin Hno Hiso Hi.
pose proof (sample_in_unit i Hi) as Hs.
destruct (valid_quantized w h iso tf Hno Hiso
        (catalog_mid_tone_positive tf Hin) i
        (catalog_to_linear_range tf _ Hin Hs)
        (catalog_from_linear_ends tf Hin)
        (catalog_shape tf _ Hin Hs)) as (e & He & Hq).
exists e. split; [exact He|].
unfold scaling_point.
rewrite ideal_to_int_quantized_x by assumption.
rewrite ideal_quantized_noise by exact Hno.
cbn [width height iso_setting transfer_function make_args].
rewrite Hq. ideal_ops.
rewrite truncate_IZR; [reflexivity|].
unfold in_int_range, INT_MIN, INT_MAX.
apply andb_true_intro. split; apply Z.leb_le; lia.
Qed.

(** In exact arithmetic the call is defined on every valid input (positive
dimensions whose product is an [int], positive ISO, a curve of the
catalog), and every amplitude it stores lies in [0,255]. *)
Theorem ideal_valid_run_in_range
  (tf : transfer_function_t R) (w h iso : Z)
  (fg0 : aom_film_grain_t) :
In tf catalog -> no_overflow w h -> (0 < iso)%Z -> film_grain_wf fg0 ->
exists fg,
generate_photon_noise (make_args w h iso tf) fg0 = Some fg /\
forall i, (0 <= i < 14)%Z ->
exists e : Z,
  nth_error (scaling_points_y fg) (Z.to_nat i)
  = Some (nth (Z.to_nat i) x_grid 0%Z, e) /\
  (0 <= e <= 255)%Z.
Proof.
intros Hin Hno Hiso Hwf.
destruct (generate_photon_noise_defined (make_args w h iso tf) fg0)
as [fg Hfg].
{ intros j Hj.
destruct (valid_scaling_point tf w h iso j Hin Hno Hiso Hj)
as (e & _ & ->). discriminate. }
exists fg. split; [exact Hfg|].
intros i Hi.
destruct (generate_photon_noise_points _ fg0 fg Hwf Hfg) as [_ Hpts].
destruct (Hpts i Hi) as (p & Hp & Hn).
destruct (valid_scaling_point tf w h iso i Hin Hno Hiso Hi)
as (e & He & Hs).
exists e. split; [congruence | exact He].
Qed.

Lemma ideal_valid_run_in_range_witness :
In kSRgbTransferFunction catalog /\
no_overflow 3840 2160 /\ (0 < 25600)%Z /\
film_grain_wf zeroed_film_grain /\
exists fg,
generate_photon_noise (make_args 3840 2160 25600 kSRgbTransferFunction)
zeroed_film_grain = Some fg /\
forall i, (0 <= i < 14)%Z ->
exists e : Z,
  nth_error (scaling_points_y fg) (Z.to_nat i)
  = Some (nth (Z.to_nat i) x_grid 0%Z, e) /\
  (0 <= e <= 255)%Z.
Proof.
assert (Hin : In (kSRgbTransferFunction (F := R)) catalog).
{ unfold catalog. cbn [In]. tauto. }
assert (Hno : no_overflow 3840 2160) by (unfold no_overflow, INT_MAX; lia).
assert (Hiso : (0 < 25600)%Z) by lia.
split; [exact Hin|]. split; [exact Hno|]. split; [exact Hiso|].
split; [exact zeroed_film_grain_wf|].
exact (ideal_valid_run_in_range kSRgbTransferFunction 3840 2160 25600
     zeroed_film_grain Hin Hno Hiso zeroed_film_grain_wf).
Defined.
End IdealValidRuns.

(** *** Mid-tones and the HDR scenario *)

Section MidTones.
Local Open Scope R_scope.

(** The mid-tone of each curve of the catalog: 0.18 for the two gamma
  curves and sRGB, 26/10000 for PQ, 26/1000 for HLG. *)
Lemma catalog_mid_tones :
mid_tone (F := R) kGamma22TransferFunction = 0.18 /\
mid_tone (F := R) kGamma28TransferFunction = 0.18 /\
mid_tone (F := R) kSRgbTransferFunction = 0.18 /\
mid_tone (F := R) kPqTransferFunction = 0.0026 /\
mid_tone (F := R) kHlgTransferFunction = 0.026.
Proof.
cbn [mid_tone kGamma22TransferFunction kGamma28TransferFunction
     kSRgbTransferFunction kPqTransferFunction kHlgTransferFunction].
ideal_ops. repeat split; lra.
Qed.

(** For the same frame and ISO setting PQ gets a larger full-scale
  electron count than sRGB: its mid-tone 0.0026 is far below 0.18. *)
Theorem pq_full_scale_above_srgb (w h iso : Z) :
no_overflow w h -> (0 < iso)%Z ->
max_electrons_per_pixel (make_args w h iso kSRgbTransferFunction)
< max_electrons_per_pixel (make_args w h iso kPqTransferFunction).
Proof.
intros Hno Hiso.
rewrite !ideal_max_electrons_per_pixel by exact Hno.
cbn [width height iso_setting transfer_function make_args].
unfold Reference.full_scale_electrons.
destruct catalog_mid_tones as (_ & _ & -> & -> & _).
assert (Hm : 0 < Reference.mid_tone_electrons w h iso).
{ unfold Reference.mid_tone_electrons, Reference.exposure,
    Reference.pixel_area.
  destruct Hno as (Hw & Hh & _). apply IZR_lt in Hw, Hh, Hiso.
  assert (0 < IZR w * IZR h) by (apply Rmult_lt_0_compat; lra).
  apply Rmult_lt_0_compat; [apply Rmult_lt_0_compat; [lra|]|];
    apply Rdiv_lt_0_compat; lra. }
lra.
Qed.

Lemma pq_full_scale_above_srgb_witness :
no_overflow 3840 2160 /\ (0 < 25600)%Z /\
max_electrons_per_pixel (make_args 3840 2160 25600 kSRgbTransferFunction)
< max_electrons_per_pixel (make_args 3840 2160 25600 kPqTransferFunction).
Proof.
assert (Hno : no_overflow 3840 2160) by (unfold no_overflow, INT_MAX; lia).
assert (Hiso : (0 < 25600)%Z) by lia.
split; [exact Hno|]. split; [exact Hiso|].
exact (pq_full_scale_above_srgb 3840 2160 25600 Hno Hiso).
Defined.
End MidTones.

(** *** Single precision: degenerate inputs *)

Section Degenerate.
Import Binary32.

(** Once the full-scale electron count is an infinity or a NaN, the linear
noise of every row is a NaN, whatever the curve returns. *)
Lemma unbounded_linear_noise (args : photon_noise_args_t spec_float) (i : Z) :
  unbounded (max_electrons_per_pixel args) ->
  linear_noise args 14 i = S754_nan.
Proof.
  intros Hm. unfold linear_noise, noise_in_electrons, electrons_per_pixel.
  cbn [fdiv fmul fadd sqrtf arith].
  destruct Hm as [-> | [s ->]].
  - reflexivity.
  - destruct (linear args 14 i) as [sl|sl| |sl ml el]; destruct s;
      try destruct sl; vm_compute; reflexivity.
Qed.

Lemma unbounded_scaling_point (args : photon_noise_args_t spec_float) (i : Z) :
  unbounded (max_electrons_per_pixel args) ->
  scaling_point args 14 i = None.
Proof.
  intros Hm. unfold scaling_point.
  assert (Hq : quantized_noise args 14 i = S754_nan).
  { unfold quantized_noise, encoded_noise, tf_slope, slope_denominator,
      linear_range_end, linear_range_start.
    rewrite (unbounded_linear_noise args i Hm).
    cbn [fdiv fmul fadd fsub sqrtf roundf flt arith].
    vm_compute. reflexivity. }
  rewrite Hq. destruct (to_int (quantized_x 14 i)); reflexivity.
Qed.

Lemma unbounded_generate (args : photon_noise_args_t spec_float)
      (fg : aom_film_grain_t) :
  unbounded (max_electrons_per_pixel args) ->
  generate_photon_noise args fg = None.
Proof.
  intros Hm. unfold generate_photon_noise.
  cbn [num_y_points set_num_y_points].
  change (Z.to_nat 14) with 14%nat. cbn [scaling_loop]. unfold loop_body.
  cbn [num_y_points set_num_y_points].
  rewrite (unbounded_scaling_point args 0 Hm). reflexivity.
Qed.

Lemma unbounded_div (x y : spec_float) :
  unbounded x -> unbounded (SFdiv prec emax x y).
Proof.
  intros [-> | [s ->]]; [left; reflexivity|].
  destruct y; cbn; unfold unbounded; eauto.
Qed.

Lemma unbounded_mul_inf (x : spec_float) (s : bool) :
  unbounded (SFmul prec emax x (S754_infinity s)).
Proof. destruct x; cbn; unfold unbounded; eauto. Qed.

Lemma unbounded_inf_mul (x : spec_float) (s : bool) :
  unbounded (SFmul prec emax (S754_infinity s) x).
Proof. destruct x; cbn; unfold unbounded; eauto. Qed.

(** A frame without pixels. When the [int] product of the dimensions is 0
(a dimension is 0, or the product wraps to 0 as for 65536 x 65536) the
pixel area is the infinity 864000000 / 0, every noise value is a NaN and
the first conversion to [int] is undefined: the call has no defined
result, for every ISO setting, curve and C library. *)
Theorem zero_area_is_undefined (args : photon_noise_args_t spec_float)
        (fg : aom_film_grain_t) :
  int_mul (width args) (height args) = 0 ->
  generate_photon_noise args fg = None.
Proof.
  intros Hz. apply unbounded_generate.
  unfold max_electrons_per_pixel, mid_tone_electrons_per_pixel,
    pixel_area_um2.
  rewrite Hz. cbn [fdiv fmul arith]. apply unbounded_div.
  change (SFdiv prec emax (SFmul prec emax (of_int 36000) (lit 24000 0))
                (of_int 0))
    with (S754_infinity false).
  apply unbounded_mul_inf.
Qed.

Lemma zero_area_is_undefined_witness :
  int_mul (width zero_width_args) (height zero_width_args) = 0 /\
  generate_photon_noise zero_width_args zeroed_film_grain = None.
Proof.
  assert (Hz : int_mul (width zero_width_args) (height zero_width_args) = 0)
    by reflexivity.
  split; [exact Hz|].
  exact (zero_area_is_undefined zero_width_args zeroed_film_grain Hz).
Defined.

(** ISO 0. The exposure is the infinity 10 / 0 and the call has no defined
result either, for every frame, curve and C library. *)
Theorem zero_iso_is_undefined (args : photon_noise_args_t spec_float)
        (fg : aom_film_grain_t) :
  iso_setting args = 0 ->
  generate_photon_noise args fg = None.
Proof.
  intros Hz. apply unbounded_generate.
  unfold max_electrons_per_pixel, mid_tone_electrons_per_pixel,
    mid_tone_exposure.
  rewrite Hz. cbn [fdiv fmul arith]. apply unbounded_div.
  change (SFmul prec emax
            (SFmul prec emax kEffectiveQuantumEfficiency
                   kPhotonsPerLxSPerUm2)
            (SFdiv prec emax (lit 10 0) (of_int 0)))
    with (S754_infinity false).
  apply unbounded_inf_mul.
Qed.

Lemma zero_iso_is_undefined_witness :
  iso_setting zero_iso_args = 0 /\
  generate_photon_noise zero_iso_args zeroed_film_grain = None.
Proof.
  assert (Hz : iso_setting zero_iso_args = 0) by reflexivity.
  split; [exact Hz|].
  exact (zero_iso_is_undefined zero_iso_args zeroed_film_grain Hz).
Defined.
End Degenerate.

(** *** Calls in sequence *)

Section Overwrite.
Context {F : Type} {FA : FloatArith F}.

Lemma scaling_loop_wf (args : photon_noise_args_t F) (k : nat) :
  forall i fg fg', scaling_loop args k i fg = Some fg' ->
                   film_grain_wf fg -> film_grain_wf fg'.
Proof.
  induction k as [|k IH]; intros i fg fg' Hrun Hwf; simpl in Hrun.
  - congruence.
  - destruct (loop_body args i fg) as [fg1|] eqn:Hb; [|discriminate].
    apply loop_body_inv in Hb as (p & _ & ->).
    apply IH in Hrun; [exact Hrun|].
    destruct Hwf as (A & B & C). unfold film_grain_wf. fg_proj.
    rewrite list_set_length. auto.
Qed.

(** The arrays keep their lengths. *)
Lemma generate_photon_noise_wf (args : photon_noise_args_t F)
      (fg0 fg : aom_film_grain_t) :
  film_grain_wf fg0 -> generate_photon_noise args fg0 = Some fg ->
  film_grain_wf fg.
Proof.
  intros Hwf Hgen.
  apply generate_photon_noise_split in Hgen as (fg1 & Hloop & ->).
  apply scaling_loop_wf in Hloop; [|exact Hwf].
  destruct Hloop as (A & B & C). unfold film_grain_wf. fg_proj.
  rewrite !list_set_length. auto.
Qed.

(** Two returned descriptors are equal when the descriptors passed in
agree on what the function leaves alone. *)
Lemma generate_photon_noise_eq (args : photon_noise_args_t F)
      (fg1 fg2 r1 r2 : aom_film_grain_t) :
  film_grain_wf fg1 -> film_grain_wf fg2 ->
  untouched_fields_equal fg1 fg2 ->
  generate_photon_noise args fg1 = Some r1 ->
  generate_photon_noise args fg2 = Some r2 ->
  r1 = r2.
Proof.
  intros Hwf1 Hwf2 Hsame Hg1 Hg2.
  pose proof (generate_photon_noise_points_eq args _ _ _ _ Hwf1 Hwf2 Hg1 Hg2)
    as Hpts.
  destruct (film_grain_wf_nonempty _ Hwf1) as [Hcb1 Hcr1].
  destruct (film_grain_wf_nonempty _ Hwf2) as [Hcb2 Hcr2].
  apply generate_photon_noise_split in Hg1 as (l1 & Hl1 & ->).
  apply generate_photon_noise_split in Hg2 as (l2 & Hl2 & ->).
  apply scaling_loop_frame in Hl1, Hl2.
  pose proof (same_outside_untouched _ _ Hl1) as U1.
  pose proof (same_outside_untouched _ _ Hl2) as U2.
  destruct Hl1 as (_ & _ & N1 & _ & _ & _ & _ & _ & _ & _ & C1 & D1 & _).
  destruct Hl2 as (_ & _ & N2 & _ & _ & _ & _ & _ & _ & _ & C2 & D2 & _).
  fg_proj.
  apply set_fixed_fields_eq; try congruence.
  apply untouched_fields_equal_trans with fg2; [|exact U2].
  apply untouched_fields_equal_trans with fg1; [|exact Hsame].
  apply untouched_fields_equal_sym. exact U1.
Qed.

(** A call on a descriptor that an earlier call filled gives what it gives
on the descriptor the earlier call started from, whatever the arguments
of the earlier call were: nothing of the earlier table survives. In
particular a repeated call changes nothing. *)
Theorem generate_photon_noise_overwrites
        (args1 args2 : photon_noise_args_t F) (fg0 fg1 : aom_film_grain_t) :
  film_grain_wf fg0 ->
  generate_photon_noise args1 fg0 = Some fg1 ->
  generate_photon_noise args2 fg1 = generate_photon_noise args2 fg0 /\
  generate_photon_noise args1 fg1 = Some fg1.
Proof.
  intros Hwf0 Hg1.
  pose proof (generate_photon_noise_wf _ _ _ Hwf0 Hg1) as Hwf1.
  pose proof (generate_photon_noise_frame _ _ _ Hg1) as Hfr.
  assert (Hgen : forall args,
             generate_photon_noise args fg1 = generate_photon_noise args fg0).
  { intros args.
    destruct (generate_photon_noise args fg0) as [r0|] eqn:H0;
      destruct (generate_photon_noise args fg1) as [r1|] eqn:H1.
    - f_equal.
      apply (generate_photon_noise_eq args fg1 fg0 r1 r0 Hwf1 Hwf0
               (untouched_fields_equal_sym _ _ Hfr) H1 H0).
    - exfalso.
      destruct (generate_photon_noise_points _ _ _ Hwf0 H0) as [_ Hp].
      destruct (generate_photon_noise_defined args fg1) as [r Hr];
        [|congruence].
      intros j Hj. destruct (Hp j Hj) as (p & -> & _). discriminate.
    - exfalso.
      destruct (generate_photon_noise_points _ _ _ Hwf1 H1) as [_ Hp].
      destruct (generate_photon_noise_defined args fg0) as [r Hr];
        [|congruence].
      intros j Hj. destruct (Hp j Hj) as (p & -> & _). discriminate.
    - reflexivity. }
  split; [apply Hgen|]. rewrite Hgen. exact Hg1.
Qed.
End Overwrite.

Lemma generate_photon_noise_overwrites_witness :
  film_grain_wf zeroed_film_grain /\
  generate_photon_noise linear_args zeroed_film_grain
  = Some linear_film_grain /\
  generate_photon_noise zero_width_args linear_film_grain
  = generate_photon_noise zero_width_args zeroed_film_grain /\
  generate_photon_noise linear_args linear_film_grain
  = Some linear_film_grain.
Proof.
  split; [exact zeroed_film_grain_wf|]. split; [exact linear_run|].
  exact (generate_photon_noise_overwrites linear_args zero_width_args
           zeroed_film_grain linear_film_grain
           zeroed_film_grain_wf linear_run).
Defined.

(** *** What the table depends on *)

Section Extensionality.
Context {F : Type} {FA : FloatArith F}.

(** The arguments enter the loop body through the full-scale electron
count and the curve only. *)
Lemma scaling_point_ext (a1 a2 : photon_noise_args_t F) (n i : Z) :
  max_electrons_per_pixel a1 = max_electrons_per_pixel a2 ->
  transfer_function a1 = transfer_function a2 ->
  scaling_point a1 n i = scaling_point a2 n i.
Proof.
  intros Hm Ht.
  unfold scaling_point, quantized_noise, encoded_noise, tf_slope,
    slope_denominator, linear_range_end, linear_range_start, linear_noise,
    noise_in_electrons, electrons_per_pixel, linear.
  rewrite Hm, Ht. reflexivity.
Qed.

Lemma scaling_loop_ext (a1 a2 : photon_noise_args_t F) (k : nat) :
  (forall n i, scaling_point a1 n i = scaling_point a2 n i) ->
  forall i fg, scaling_loop a1 k i fg = scaling_loop a2 k i fg.
Proof.
  intros Hp. induction k as [|k IH]; intros i fg; simpl; [reflexivity|].
  unfold loop_body. rewrite Hp.
  destruct (scaling_point a2 (num_y_points fg) i); [apply IH | reflexivity].
Qed.

Lemma generate_photon_noise_ext (a1 a2 : photon_noise_args_t F)
      (fg : aom_film_grain_t) :
  max_electrons_per_pixel a1 = max_electrons_per_pixel a2 ->
  transfer_function a1 = transfer_function a2 ->
  generate_photon_noise a1 fg = generate_photon_noise a2 fg.
Proof.
  intros Hm Ht. unfold generate_photon_noise.
  rewrite (scaling_loop_ext a1 a2); [reflexivity|].
  intros n i. apply scaling_point_ext; assumption.
Qed.
End Extensionality.

Section Equivalence.
Local Open Scope R_scope.
Import Ideal.

Lemma mid_tone_electrons_closed (w h iso : Z) :
  no_overflow w h -> (0 < iso)%Z ->
  Reference.mid_tone_electrons w h iso
  = 0.20 * 11260 * 10 * (36000 * 24000) / IZR (iso * (w * h)).
Proof.
  intros (Hw & Hh & _) Hiso. apply IZR_lt in Hw, Hh, Hiso.
  unfold Reference.mid_tone_electrons, Reference.exposure,
    Reference.pixel_area.
  rewrite !mult_IZR. field. repeat split; lra.
Qed.

(** ISO equivalence. In exact arithmetic the table depends on the
dimensions and the ISO setting through the product width * height * iso
only: a frame with four times the pixels at a quarter of the ISO setting
gets the same table. *)
Theorem ideal_iso_area_equivalence
        (tf : transfer_function_t R) (w1 h1 iso1 w2 h2 iso2 : Z)
        (fg : aom_film_grain_t) :
  no_overflow w1 h1 -> no_overflow w2 h2 ->
  (0 < iso1)%Z -> (0 < iso2)%Z ->
  (iso1 * (w1 * h1) = iso2 * (w2 * h2))%Z ->
  generate_photon_noise (make_args w1 h1 iso1 tf) fg
  = generate_photon_noise (make_args w2 h2 iso2 tf) fg.
Proof.
  intros Hno1 Hno2 Hiso1 Hiso2 Heq.
  apply generate_photon_noise_ext; [|reflexivity].
  rewrite !ideal_max_electrons_per_pixel by assumption.
  cbn [width height iso_setting transfer_function make_args].
  unfold Reference.full_scale_electrons.
  rewrite !mid_tone_electrons_closed by assumption.
  rewrite Heq. reflexivity.
Qed.

Lemma ideal_iso_area_equivalence_witness :
  no_overflow 3840 2160 /\ no_overflow 1920 1080 /\
  (0 < 100)%Z /\ (0 < 400)%Z /\
  (100 * (3840 * 2160) = 400 * (1920 * 1080))%Z /\
  generate_photon_noise (make_args 3840 2160 100 kSRgbTransferFunction)
                        zeroed_film_grain
  = generate_photon_noise (make_args 1920 1080 400 kSRgbTransferFunction)
                          zeroed_film_grain.
Proof.
  assert (H1 : no_overflow 3840 2160) by (unfold no_overflow, INT_MAX; lia).
  assert (H2 : no_overflow 1920 1080) by (unfold no_overflow, INT_MAX; lia).
  assert (H3 : (0 < 100)%Z) by lia.
  assert (H4 : (0 < 400)%Z) by lia.
  assert (H5 : (100 * (3840 * 2160) = 400 * (1920 * 1080))%Z) by lia.
  repeat (split; [assumption|]).
  exact (ideal_iso_area_equivalence kSRgbTransferFunction 3840 2160 100
           1920 1080 400 zeroed_film_grain H1 H2 H3 H4 H5).
Defined.
End Equivalence.

(** *** The real-number reading: amplitudes grow as the light falls *)

Section Mono.
Local Open Scope R_scope.
Import Ideal.

Lemma round_half_away_le (a b : R) :
  a <= b -> round_half_away a <= round_half_away b.
Proof.
  intros Hab. unfold round_half_away.
  destruct (Rle_dec 0 a) as [Pa|Na]; destruct (Rle_dec 0 b) as [Pb|Nb].
  - apply IZR_le, floor_le. lra.
  - lra.
  - assert (H1 : (0 <= floor (/ 2 - a))%Z).
    { rewrite <- (floor_IZR 0). apply floor_le. lra. }
    assert (H2 : (0 <= floor (b + / 2))%Z).
    { rewrite <- (floor_IZR 0). apply floor_le. lra. }
    apply IZR_le in H1, H2. lra.
  - assert (H : (floor (/ 2 - b) <= floor (/ 2 - a))%Z) by (apply floor_le; lra).
    apply IZR_le in H. lra.
Qed.

(** The clipped interval around [l] grows more slowly than the noise. *)
Lemma width_ratio (l n1 n2 : R) :
  0 <= l <= 1 -> 0 < n1 <= n2 ->
  n1 * (Rmin 1 (l + 2 * n2) - Rmax 0 (l - 2 * n2))
  <= n2 * (Rmin 1 (l + 2 * n1) - Rmax 0 (l - 2 * n1)).
Proof.
  intros Hl Hn.
  unfold Rmin, Rmax.
  repeat match goal with |- context [Rle_dec ?a ?b] => destruct (Rle_dec a b) end;
    nra.
Qed.

Section Rows.
Variables (w1 h1 iso1 w2 h2 iso2 : Z) (tf : transfer_function_t R).
Hypothesis Hno1 : no_overflow w1 h1.
Hypothesis Hno2 : no_overflow w2 h2.
Hypothesis Hiso1 : (0 < iso1)%Z.
Hypothesis Hiso2 : (0 < iso2)%Z.
Hypothesis Hle : (iso1 * (w1 * h1) <= iso2 * (w2 * h2))%Z.
Hypothesis Hmid : 0 < mid_tone tf.
Hypothesis Hrange : forall x, 0 <= x <= 1 -> 0 <= to_linear tf x <= 1.
Hypothesis Hmono : nondecreasing_between (from_linear tf) 0 1.

Let fs1 := Reference.full_scale_electrons w1 h1 iso1 tf.
Let fs2 := Reference.full_scale_electrons w2 h2 iso2 tf.

Lemma full_scale_order : 0 < fs2 <= fs1.
Proof.
  split; [apply valid_full_scale_positive; assumption|].
  unfold fs1, fs2, Reference.full_scale_electrons.
  rewrite !mid_tone_electrons_closed by assumption.
  assert (P1 : (0 < iso1 * (w1 * h1))%Z).
  { destruct Hno1 as (? & ? & _). apply Z.mul_pos_pos; [|apply Z.mul_pos_pos]; lia. }
  apply IZR_lt in P1. apply IZR_le in Hle.
  set (a := IZR (iso1 * (w1 * h1))) in *. set (b := IZR (iso2 * (w2 * h2))) in *.
  apply Rmult_le_compat_r; [left; apply Rinv_0_lt_compat; exact Hmid|].
  apply Rmult_le_compat_l; [lra|].
  apply Rinv_le_contravar; lra.
Qed.

Variable i : Z.
Hypothesis Hi : (0 <= i < 14)%Z.
Let l := Reference.linear_light tf i.
Let n1 := Reference.noise_linear w1 h1 iso1 tf i.
Let n2 := Reference.noise_linear w2 h2 iso2 tf i.

Lemma linear_light_unit : 0 <= l <= 1.
Proof. apply Hrange. apply sample_in_unit. exact Hi. Qed.

Lemma noise_linear_order : 0 < n1 <= n2.
Proof.
  pose proof full_scale_order as [Hf2 Hf12].
  pose proof linear_light_unit as Hl.
  split.
  { apply (valid_noise_linear w1 h1 iso1 tf Hno1 Hiso1 Hmid i). fold l. lra. }
  unfold n1, n2, Reference.noise_linear, Reference.noise_electrons,
    Reference.electrons. fold fs1 fs2 l.
  set (A1 := 1.5 ^ 2 + fs1 * l + (0.005 * (fs1 * l)) ^ 2).
  set (A2 := 1.5 ^ 2 + fs2 * l + (0.005 * (fs2 * l)) ^ 2).
  assert (HA1 : 0 <= A1) by (unfold A1; nra).
  assert (HA2 : 0 <= A2) by (unfold A2; nra).
  apply Rmult_le_reg_r with (fs1 * fs2); [nra|].
  replace (sqrt A1 / fs1 * (fs1 * fs2)) with (sqrt A1 * fs2) by (field; lra).
  replace (sqrt A2 / fs2 * (fs1 * fs2)) with (sqrt A2 * fs1) by (field; lra).
  rewrite <- (sqrt_Rsqr fs2) at 1 by lra.
  rewrite <- (sqrt_Rsqr fs1) at 1 by lra.
  rewrite <- !sqrt_mult by (try assumption; apply Rle_0_sqr).
  apply sqrt_le_1_alt. unfold A1, A2, Rsqr.
  assert (Q1 : 0 <= (fs1 - fs2) * (fs1 + fs2)) by (apply Rmult_le_pos; lra).
  assert (Q2 : 0 <= l * (fs1 * fs2) * (fs1 - fs2)).
  { apply Rmult_le_pos; [apply Rmult_le_pos; [lra|]|lra].
    apply Rmult_le_pos; lra. }
  apply Rminus_le.
  match goal with |- ?a - ?b <= 0 =>
    replace (a - b) with
      (- (1.5 ^ 2 * ((fs1 - fs2) * (fs1 + fs2)) + l * (fs1 * fs2) * (fs1 - fs2)))
      by ring
  end.
  lra.
Qed.

Lemma noise_encoded_order :
  Reference.noise_encoded w1 h1 iso1 tf i
  <= Reference.noise_encoded w2 h2 iso2 tf i.
Proof.
  pose proof noise_linear_order as [Hn1 Hn12].
  pose proof linear_light_unit as Hl.
  unfold Reference.noise_encoded, Reference.slope, Reference.interval_hi,
    Reference.interval_lo. fold l n1 n2.
  set (a1 := Rmax 0 (l - 2 * n1)). set (b1 := Rmin 1 (l + 2 * n1)).
  set (a2 := Rmax 0 (l - 2 * n2)). set (b2 := Rmin 1 (l + 2 * n2)).
  assert (Ha : 0 <= a2 /\ a2 <= a1 /\ a1 <= l).
  { unfold a1, a2. split; [apply Rmax_l|]. split.
    - apply Rmax_lub; [apply Rmax_l|].
      eapply Rle_trans; [|apply Rmax_r]. lra.
    - apply Rmax_lub; lra. }
  assert (Hb : l <= b1 /\ b1 <= b2 /\ b2 <= 1).
  { unfold b1, b2. split; [apply Rmin_glb; lra|]. split; [|apply Rmin_l].
    apply Rmin_glb; [apply Rmin_l|].
    eapply Rle_trans; [apply Rmin_r|]. lra. }
  assert (Hw1 : 0 < b1 - a1).
  { assert (a1 < b1); [|lra].
    unfold a1, b1. apply Rmax_lub_lt; apply Rmin_glb_lt; lra. }
  assert (Hw2 : 0 < b2 - a2) by lra.
  pose proof (width_ratio l n1 n2 Hl (conj Hn1 Hn12)) as Hr.
  fold a1 b1 a2 b2 in Hr.
  set (d1 := from_linear tf b1 - from_linear tf a1).
  set (d2 := from_linear tf b2 - from_linear tf a2).
  assert (Hd1 : 0 <= d1).
  { unfold d1. pose proof (Hmono a1 b1). lra. }
  assert (Hd12 : d1 <= d2).
  { unfold d1, d2. pose proof (Hmono a2 a1). pose proof (Hmono b1 b2). lra. }
  apply Rmult_le_reg_r with ((b1 - a1) * (b2 - a2)); [nra|].
  replace (n1 * (d1 / (b1 - a1)) * ((b1 - a1) * (b2 - a2)))
    with (d1 * (n1 * (b2 - a2))) by (field; lra).
  replace (n2 * (d2 / (b2 - a2)) * ((b1 - a1) * (b2 - a2)))
    with (d2 * (n2 * (b1 - a1))) by (field; lra).
  assert (0 <= n1 * (b2 - a2)) by nra.
  nra.
Qed.

Lemma rounded_amplitude_order :
  Rmin 255 (Reference.rounded_amplitude w1 h1 iso1 tf i)
  <= Rmin 255 (Reference.rounded_amplitude w2 h2 iso2 tf i).
Proof.
  pose proof noise_encoded_order as H.
  unfold Reference.rounded_amplitude.
  apply Rle_min_compat_l. apply round_half_away_le. lra.
Qed.
End Rows.

Lemma Forall2_rows {A : Type} (P : A -> A -> Prop) (l1 l2 : list A) :
  List.length l1 = List.length l2 ->
  (forall j a b, nth_error l1 j = Some a -> nth_error l2 j = Some b -> P a b) ->
  Forall2 P l1 l2.
Proof.
  revert l2; induction l1 as [|a l1 IH]; intros [|b l2] Hlen Hrow;
    simpl in Hlen; try discriminate; constructor.
  - apply (Hrow 0%nat); reflexivity.
  - apply IH; [lia|]. intros j x y Hx Hy. apply (Hrow (S j)); assumption.
Qed.

(** On a valid input the amplitude stored in row [i] is the capped rounded
    amplitude of the pipeline. *)
Lemma valid_scaling_point_value (tf : transfer_function_t R) (w h iso i : Z) :
  In tf catalog -> no_overflow w h -> (0 < iso)%Z -> (0 <= i < 14)%Z ->
  exists e : Z,
    IZR e = Rmin 255 (Reference.rounded_amplitude w h iso tf i) /\
    scaling_point (make_args w h iso tf) 14 i
    = Some (nth (Z.to_nat i) x_grid 0%Z, e).
Proof.
  intros Hin Hno Hiso Hi.
  pose proof (sample_in_unit i Hi) as Hs.
  destruct (valid_quantized w h iso tf Hno Hiso
              (catalog_mid_tone_positive tf Hin) i
              (catalog_to_linear_range tf _ Hin Hs)
              (catalog_from_linear_ends tf Hin)
              (catalog_shape tf _ Hin Hs)) as (e & He & Hq).
  exists e. split; [symmetry; exact Hq|].
  unfold scaling_point.
  rewrite ideal_to_int_quantized_x by assumption.
  rewrite ideal_quantized_noise by exact Hno.
  cbn [width height iso_setting transfer_function make_args].
  rewrite Hq. ideal_ops.
  rewrite truncate_IZR; [reflexivity|].
  unfold in_int_range, INT_MIN, INT_MAX.
  apply andb_true_intro. split; apply Z.leb_le; lia.
Qed.

Lemma monotone_curves (tf : transfer_function_t R) :
  In tf [kGamma22TransferFunction; kGamma28TransferFunction;
         kPqTransferFunction] ->
  In tf catalog /\
  (forall x, 0 <= x <= 1 -> 0 <= to_linear tf x <= 1) /\
  nondecreasing_between (from_linear tf) 0 1.
Proof.
  intros [<-|[<-|[<-|[]]]].
  - split; [unfold catalog; cbn [In]; tauto|]. split; [|apply gamma22_monotone].
    intros x Hx. cbn [to_linear kGamma22TransferFunction].
    rewrite ideal_gamma22_to_linear.
    pose proof (power_nonneg x 2.2).
    pose proof (power_le_1 x 2.2 ltac:(lra) Hx). lra.
  - split; [unfold catalog; cbn [In]; tauto|]. split; [|apply gamma28_monotone].
    intros x Hx. cbn [to_linear kGamma28TransferFunction].
    rewrite ideal_gamma28_to_linear.
    pose proof (power_nonneg x 2.8).
    pose proof (power_le_1 x 2.8 ltac:(lra) Hx). lra.
  - split; [unfold catalog; cbn [In]; tauto|]. split; [|apply pq_monotone].
    intros x Hx. exact (pq_to_linear_range x Hx).
Qed.

(** In exact arithmetic, for the two gamma curves and PQ: less light per
    pixel (a higher ISO setting, more pixels, or both: a larger product
    width * height * iso) never lowers an amplitude of the table. *)
Theorem ideal_amplitude_grows_with_iso_and_pixels
        (tf : transfer_function_t R) (w1 h1 iso1 w2 h2 iso2 : Z)
        (fg0 : aom_film_grain_t) :
  In tf [kGamma22TransferFunction; kGamma28TransferFunction;
         kPqTransferFunction] ->
  no_overflow w1 h1 -> no_overflow w2 h2 ->
  (0 < iso1)%Z -> (0 < iso2)%Z ->
  (iso1 * (w1 * h1) <= iso2 * (w2 * h2))%Z ->
  film_grain_wf fg0 ->
  exists fg1 fg2,
    generate_photon_noise (make_args w1 h1 iso1 tf) fg0 = Some fg1 /\
    generate_photon_noise (make_args w2 h2 iso2 tf) fg0 = Some fg2 /\
    Forall2 (fun p q => fst p = fst q /\ (snd p <= snd q)%Z)
            (scaling_points_y fg1) (scaling_points_y fg2).
Proof.
  intros Htf Hno1 Hno2 Hiso1 Hiso2 Hle Hwf.
  destruct (monotone_curves tf Htf) as (Hin & Hrange & Hmono).
  pose proof (catalog_mid_tone_positive tf Hin) as Hmid.
  destruct (generate_photon_noise_defined (make_args w1 h1 iso1 tf) fg0)
    as [fg1 Hg1].
  { intros j Hj.
    destruct (valid_scaling_point tf w1 h1 iso1 j Hin Hno1 Hiso1 Hj)
      as (e & _ & ->). discriminate. }
  destruct (generate_photon_noise_defined (make_args w2 h2 iso2 tf) fg0)
    as [fg2 Hg2].
  { intros j Hj.
    destruct (valid_scaling_point tf w2 h2 iso2 j Hin Hno2 Hiso2 Hj)
      as (e & _ & ->). discriminate. }
  exists fg1, fg2. split; [exact Hg1|]. split; [exact Hg2|].
  destruct (generate_photon_noise_points _ fg0 fg1 Hwf Hg1) as [Hl1 Hp1].
  destruct (generate_photon_noise_points _ fg0 fg2 Hwf Hg2) as [Hl2 Hp2].
  apply Forall2_rows; [congruence|].
  intros j p q Hp Hq.
  assert (Hj : (j < 14)%nat).
  { rewrite <- Hl1. apply nth_error_Some. congruence. }
  assert (Hj' : (0 <= Z.of_nat j < 14)%Z) by lia.
  destruct (Hp1 _ Hj') as (p' & Hs1 & Hn1).
  destruct (Hp2 _ Hj') as (q' & Hs2 & Hn2).
  rewrite Nat2Z.id in Hn1, Hn2.
  assert (p' = p) by congruence. assert (q' = q) by congruence. subst p' q'.
  destruct (valid_scaling_point_value tf w1 h1 iso1 _ Hin Hno1 Hiso1 Hj')
    as (e1 & He1 & Hv1).
  destruct (valid_scaling_point_value tf w2 h2 iso2 _ Hin Hno2 Hiso2 Hj')
    as (e2 & He2 & Hv2).
  rewrite Hv1 in Hs1. rewrite Hv2 in Hs2.
  injection Hs1 as <-. injection Hs2 as <-.
  cbn [fst snd]. split; [reflexivity|].
  apply le_IZR. rewrite He1, He2.
  apply (rounded_amplitude_order w1 h1 iso1 w2 h2 iso2 tf); assumption.
Qed.

Lemma ideal_amplitude_grows_with_iso_and_pixels_witness :
  In (kPqTransferFunction (F := R))
     [kGamma22TransferFunction; kGamma28TransferFunction;
      kPqTransferFunction] /\
  no_overflow 1920 1080 /\ no_overflow 3840 2160 /\
  (0 < 100)%Z /\ (0 < 25600)%Z /\
  (100 * (1920 * 1080) <= 25600 * (3840 * 2160))%Z /\
  film_grain_wf zeroed_film_grain /\
  exists fg1 fg2,
    generate_photon_noise (make_args 1920 1080 100 kPqTransferFunction)
                          zeroed_film_grain = Some fg1 /\
    generate_photon_noise (make_args 3840 2160 25600 kPqTransferFunction)
                          zeroed_film_grain = Some fg2 /\
    Forall2 (fun p q => fst p = fst q /\ (snd p <= snd q)%Z)
            (scaling_points_y fg1) (scaling_points_y fg2).
Proof.
  assert (H0 : In (kPqTransferFunction (F := R))
                  [kGamma22TransferFunction; kGamma28TransferFunction;
                   kPqTransferFunction]) by (cbn [In]; tauto).
  assert (H1 : no_overflow 1920 1080) by (unfold no_overflow, INT_MAX; lia).
  assert (H2 : no_overflow 3840 2160) by (unfold no_overflow, INT_MAX; lia).
  assert (H3 : (0 < 100)%Z) by lia.
  assert (H4 : (0 < 25600)%Z) by lia.
  assert (H5 : (100 * (1920 * 1080) <= 25600 * (3840 * 2160))%Z) by lia.
  repeat (split; [assumption|]).
  split; [exact zeroed_film_grain_wf|].
  exact (ideal_amplitude_grows_with_iso_and_pixels kPqTransferFunction
           1920 1080 100 3840 2160 25600 zeroed_film_grain
           H0 H1 H2 H3 H4 H5 zeroed_film_grain_wf).
Defined.
End Mono.


(** *** The command line *)

Section LookupFacts.
Context {F : Type} {FA : FloatArith F} {LM : Libm F}.
Variables bt470m bt470bg srgb smpte2084 hlg : Z.
Let lookup := find_transfer_function (F := F) bt470m bt470bg srgb smpte2084 hlg.

Lemma lookup_in_catalog (tc : Z) (tf : transfer_function_t F) :
  lookup tc = Returns tf -> In tf catalog.
Proof.
  unfold lookup, find_transfer_function, catalog. cbn [In].
  repeat match goal with |- context [if ?c then _ else _] => destruct c end;
    intros [= <-]; tauto.
Qed.

Lemma lookup_srgb :
  NoDup [bt470m; bt470bg; srgb; smpte2084; hlg] ->
  lookup srgb = Returns kSRgbTransferFunction.
Proof.
  intros Hnd.
  assert (Hd : srgb <> bt470m /\ srgb <> bt470bg).
  { repeat match goal with
           | H : NoDup (_ :: _) |- _ => inversion H; clear H; subst
           end.
    cbn [In] in *. split; intros E; subst; tauto. }
  destruct Hd as [H1 H2].
  unfold lookup, find_transfer_function.
  rewrite (proj2 (Z.eqb_neq _ _) H1), (proj2 (Z.eqb_neq _ _) H2), Z.eqb_refl.
  reflexivity.
Qed.
End LookupFacts.

Section CommandLineFacts.
Context {F : Type} {FA : FloatArith F} {LM : Libm F}.
Variables bt470m bt470bg srgb smpte2084 hlg : Z.
Variable arg : Type.
Variable argv_step : arg -> Z.
Variable set_argv_step : arg -> Z -> arg.
Variable val : arg -> option string.
Variable arg_match : arg -> arg_def_t -> list string -> option (bool * arg).
Variable arg_parse_int : arg -> option Z.
Variable arg_parse_enum : arg -> option Z.
Variable arg_show_usage : list arg_def_t -> string.
Variable argv : list string.

Let argc : Z := Z.of_nat (List.length argv).
Let lookup := find_transfer_function (F := F) bt470m bt470bg srgb smpte2084 hlg.
Let tf_arg := transfer_function_arg bt470m bt470bg srgb smpte2084 hlg.
Let is_matched := matched arg arg_match argv.
Let postcondition :=
  parse_postcondition (F := F) bt470m bt470bg srgb smpte2084 hlg arg val
    arg_match arg_parse_int arg_parse_enum argv.
Let invariant :=
  parse_invariant (F := F) bt470m bt470bg srgb smpte2084 hlg arg val
    arg_match arg_parse_int arg_parse_enum argv.
Let step := parse_arg (F := F) bt470m bt470bg srgb smpte2084 hlg arg
              set_argv_step val arg_match arg_parse_int arg_parse_enum
              arg_show_usage argv.
Let loop := parse_loop (F := F) bt470m bt470bg srgb smpte2084 hlg arg
              argv_step set_argv_step val arg_match arg_parse_int
              arg_parse_enum arg_show_usage argv.

Lemma library_inv {A : Type} (r : option A) (x : A) :
  library r = Return x -> r = Some x.
Proof. destruct r; simpl; congruence. Qed.

Lemma bind_inv {A B : Type} (m : outcome A) (k : A -> outcome B) (b : B) :
  bind m k = Return b -> exists a, m = Return a /\ k a = Return b.
Proof. destruct m; simpl; try discriminate. eauto. Qed.

Lemma of_result_inv {A : Type} (r : result A) (x : A) :
  of_result r = Return x -> r = Returns x.
Proof. destruct r; simpl; congruence. Qed.

Lemma bind_fuel {A B : Type} (m : outcome A) (k : A -> outcome B) :
  bind m k = OutOfFuel ->
  m = OutOfFuel \/ exists a, m = Return a /\ k a = OutOfFuel.
Proof. destruct m; simpl; try discriminate; eauto. Qed.

Lemma library_fuel {A : Type} (r : option A) : library r = OutOfFuel -> False.
Proof. destruct r; discriminate. Qed.

Lemma of_result_fuel {A : Type} (r : result A) :
  of_result r = OutOfFuel -> False.
Proof. destruct r; discriminate. Qed.

Lemma parse_arg_invariant (tf0 : transfer_function_t F) (i : Z) (a a' : arg)
      (st st' : parse_state F) :
  i < argc ->
  step i a st = Return (a', st') ->
  invariant tf0 st -> invariant tf0 st'.
Proof.
  intros Hi Hstep (Iw & Ih & Ii & Io & It).
  unfold step, parse_arg in Hstep.
  destruct (i <? 0) eqn:Hneg; [discriminate|]. apply Z.ltb_ge in Hneg.
  assert (Hrange : 0 <= i < argc) by (unfold argc; lia).
  repeat match type of Hstep with
         | bind (library (arg_match ?x ?d ?l)) _ = Return _ =>
             let r := fresh "r" in
             let M := fresh "M" in
             apply bind_inv in Hstep as (r & M & Hstep);
             apply library_inv in M; destruct r as [[|] ?];
             cbn [fst snd] in Hstep
         end; try discriminate.
  - (* width *)
    apply bind_inv in Hstep as (v & Hv & Hstep). apply library_inv in Hv.
    injection Hstep as <- <-.
    unfold invariant, parse_invariant; cbn.
    repeat split; auto.
    intros _. eexists. split; [|exact Hv]. exists i. eexists. eauto.
  - apply bind_inv in Hstep as (v & Hv & Hstep). apply library_inv in Hv.
    injection Hstep as <- <-.
    unfold invariant, parse_invariant; cbn.
    repeat split; auto.
    intros _. eexists. split; [|exact Hv]. exists i. eexists. eauto.
  - apply bind_inv in Hstep as (v & Hv & Hstep). apply library_inv in Hv.
    injection Hstep as <- <-.
    unfold invariant, parse_invariant; cbn.
    repeat split; auto.
    intros _. eexists. split; [|exact Hv]. exists i. eexists. eauto.
  - injection Hstep as <- <-.
    unfold invariant, parse_invariant; cbn.
    repeat split; auto.
    intros _. eexists. split; [|reflexivity]. exists i. eexists. eauto.
  - apply bind_inv in Hstep as (tc & Hv & Hstep). apply library_inv in Hv.
    apply bind_inv in Hstep as (tf & Htf & Hstep). apply of_result_inv in Htf.
    injection Hstep as <- <-.
    unfold invariant, parse_invariant; cbn.
    repeat split; auto.
    right. eexists. exists tc. split; [|split; [exact Hv|exact Htf]].
    exists i. eexists. eauto.
Qed.

Lemma parse_loop_invariant (tf0 : transfer_function_t F) (fuel : nat) :
  forall (i : Z) (a : arg) (st st' : parse_state F),
    loop fuel i a st = Return st' ->
    invariant tf0 st -> invariant tf0 st'.
Proof.
  induction fuel as [|fuel IH]; intros i a st st' Hrun Hinv;
    unfold loop in Hrun; simpl in Hrun;
    fold argc in Hrun;
    destruct (i <? argc) eqn:Hi; try discriminate;
    try (injection Hrun as <-; exact Hinv).
  apply Z.ltb_lt in Hi.
  apply bind_inv in Hrun as ([a1 st1] & Hstep & Hrun).
  cbn [fst snd] in Hrun.
  eapply IH; [exact Hrun|].
  eapply parse_arg_invariant; eauto.
Qed.

Let run := parse_args (F := F) bt470m bt470bg srgb smpte2084 hlg arg
             argv_step set_argv_step val arg_match arg_parse_int
             arg_parse_enum arg_show_usage argv.

(** A return of [parse_args] comes from a state of the loop in which the
    four flags are set. *)
Lemma parse_args_returns
      (photon_noise_args pa : photon_noise_args_t F) (a : arg) :
  NoDup [bt470m; bt470bg; srgb; smpte2084; hlg] ->
  run photon_noise_args a = Return pa ->
  exists st : parse_state F,
    invariant kSRgbTransferFunction st /\ pa = parsed st /\
    width_set st <> 0 /\ height_set st <> 0 /\
    iso_set st <> 0 /\ output_set st <> 0.
Proof.
  intros Hnd Hrun. unfold run, parse_args in Hrun.
  fold lookup in Hrun. unfold lookup in Hrun.
  rewrite (lookup_srgb _ _ _ _ _ Hnd) in Hrun.
  cbn [of_result bind] in Hrun.
  apply bind_inv in Hrun as (st & Hloop & Hrun).
  apply (parse_loop_invariant kSRgbTransferFunction) in Hloop.
  2:{ unfold invariant, parse_invariant; cbn.
      repeat split; try congruence. auto. }
  destruct (width_set st =? 0) eqn:Ew; [discriminate|].
  destruct (height_set st =? 0) eqn:Eh; [discriminate|].
  destruct (iso_set st =? 0) eqn:Ei; [discriminate|].
  destruct (output_set st =? 0) eqn:Eo; [discriminate|].
  injection Hrun as <-.
  apply Z.eqb_neq in Ew, Eh, Ei, Eo.
  exists st. auto 10.
Qed.

(** [parse_args] returns only on a complete command line. When it
    returns, each of the four required options was matched somewhere on the
    command line and its field holds the value parsed from a matching
    argument (the value itself for the file name); the curve is sRGB
    unless [--transfer-function] was matched, and then it is the curve of
    a parsed identifier; in both cases it is one of the catalog. *)
Theorem parse_args_postcondition
        (photon_noise_args pa : photon_noise_args_t F) (a : arg) :
  NoDup [bt470m; bt470bg; srgb; smpte2084; hlg] ->
  run photon_noise_args a = Return pa ->
  postcondition pa.
Proof.
  intros Hnd Hrun.
  destruct (parse_args_returns _ _ _ Hnd Hrun)
    as (st & (Iw & Ih & Ii & Io & It) & -> & Fw & Fh & Fi & Fo).
  unfold postcondition, parse_postcondition.
  split; [exact (Iw Fw)|]. split; [exact (Ih Fh)|].
  split; [exact (Ii Fi)|]. split; [exact (Io Fo)|].
  split; [exact It|].
  destruct It as [-> | (a' & tc & _ & _ & Htc)].
  - unfold catalog. cbn [In]. tauto.
  - exact (lookup_in_catalog _ _ _ _ _ _ _ Htc).
Qed.

(** The loop ends: when a matched argument advances by at least one and
    at most [max_step] positions and [argc + max_step] fits an [int], the
    [argc] passes given as fuel are enough. *)
Theorem parse_args_terminates
        (max_step : Z) (photon_noise_args : photon_noise_args_t F) (a : arg) :
  (forall a d l a', arg_match a d l = Some (true, a') ->
                    1 <= argv_step a' <= max_step) ->
  argc + max_step <= INT_MAX ->
  run photon_noise_args a <> OutOfFuel.
Proof.
  intros Hstep Hmax.
  assert (Hstep' : forall i a st a' st',
             step i a st = Return (a', st') -> 1 <= argv_step a' <= max_step).
  { intros i a1 st a' st' H. unfold step, parse_arg in H.
    destruct (i <? 0); [discriminate|].
    repeat match type of H with
           | bind (library (arg_match ?x ?d ?l)) _ = Return _ =>
               let r := fresh "r" in
               let M := fresh "M" in
               apply bind_inv in H as (r & M & H);
               apply library_inv in M; destruct r as [[|] ?];
               cbn [fst snd] in H
           end; try discriminate;
      repeat match type of H with
             | bind _ _ = Return _ =>
                 let v := fresh "v" in
                 apply bind_inv in H as (v & _ & H)
             end;
      injection H as <- _; eapply Hstep; eassumption. }
  assert (Hloop : forall fuel i a st,
             1 <= i -> argc - i < Z.of_nat fuel ->
             loop fuel i a st <> OutOfFuel).
  { induction fuel as [|fuel IH]; intros i a1 st Hi Hfuel;
      unfold loop; simpl; fold argc;
      destruct (i <? argc) eqn:Hlt; try discriminate.
    - apply Z.ltb_lt in Hlt. lia.
    - apply Z.ltb_lt in Hlt.
      destruct (step i a1 st) as [[a2 st2]| | | | |] eqn:Hs;
        unfold step in Hs; rewrite Hs; cbn [bind fst snd]; try discriminate.
      + fold step in Hs. apply Hstep' in Hs.
        rewrite int_wrap_id by (unfold INT_MIN, INT_MAX in *; lia).
        apply IH; lia.
      + exfalso. unfold parse_arg in Hs.
        destruct (i <? 0); [discriminate|].
        repeat match type of Hs with
               | bind _ _ = OutOfFuel =>
                   apply bind_fuel in Hs as [Hs | (? & _ & Hs)]
               | (if ?c then _ else _) = OutOfFuel => destruct c
               | library _ = OutOfFuel => exact (library_fuel _ Hs)
               | of_result _ = OutOfFuel => exact (of_result_fuel _ Hs)
               | _ => discriminate Hs
               end. }
  unfold run, parse_args. fold lookup.
  destruct (of_result (lookup srgb)) as [tf| | | | |] eqn:Hl;
    cbn [bind]; try discriminate.
  { match goal with
    | |- bind ?m _ <> _ => destruct m as [st| | | | |] eqn:Hrun
    end; cbn [bind]; try discriminate.
    - repeat match goal with
             | |- (if ?c then _ else _) <> _ => destruct c
             end; discriminate.
    - exfalso. revert Hrun. apply Hloop; [lia|]. unfold argc. lia. }
  destruct (lookup srgb); discriminate.
Qed.
End CommandLineFacts.


(** *** The names of the curves *)

Section Names.
Context {F : Type} {FA : FloatArith F} {LM : Libm F}.
Variables bt470m bt470bg srgb smpte2084 hlg : Z.
Let lookup := find_transfer_function (F := F) bt470m bt470bg srgb smpte2084 hlg.
Let names := transfer_functions bt470m bt470bg srgb smpte2084 hlg.

(** The names of [--transfer-function] and the curves: no name is listed
twice, and looking up the identifiers of the five names, in the order of
the list, gives the five curves of the catalog, none missing and none
ending in [fatal]. *)
Theorem transfer_function_names_resolve :
  NoDup [bt470m; bt470bg; srgb; smpte2084; hlg] ->
  NoDup (map fst names) /\
  map (fun e => lookup (snd e)) names = map Returns catalog.
Proof.
  intros Hnd.
  split.
  - unfold names, transfer_functions. cbn [map fst].
    repeat (apply NoDup_cons; [cbn [In]; intuition discriminate|]).
    apply NoDup_nil.
  - assert (Hd : bt470m <> bt470bg /\ bt470m <> srgb /\ bt470m <> smpte2084 /\
               bt470m <> hlg /\ bt470bg <> srgb /\ bt470bg <> smpte2084 /\
               bt470bg <> hlg /\ srgb <> smpte2084 /\ srgb <> hlg /\
               smpte2084 <> hlg).
    { repeat match goal with
             | H : NoDup (_ :: _) |- _ => inversion H; clear H; subst
             end.
      cbn [In] in *. repeat split; intros E; subst; tauto. }
    destruct Hd as (? & ? & ? & ? & ? & ? & ? & ? & ? & ?).
    unfold names, transfer_functions, catalog, lookup, find_transfer_function.
    cbn [map snd].
    rewrite !Z.eqb_refl.
    rewrite (proj2 (Z.eqb_neq bt470bg bt470m)) by congruence.
    rewrite (proj2 (Z.eqb_neq srgb bt470m)) by congruence.
    rewrite (proj2 (Z.eqb_neq srgb bt470bg)) by congruence.
    rewrite (proj2 (Z.eqb_neq smpte2084 bt470m)) by congruence.
    rewrite (proj2 (Z.eqb_neq smpte2084 bt470bg)) by congruence.
    rewrite (proj2 (Z.eqb_neq smpte2084 srgb)) by congruence.
    rewrite (proj2 (Z.eqb_neq hlg bt470m)) by congruence.
    rewrite (proj2 (Z.eqb_neq hlg bt470bg)) by congruence.
    rewrite (proj2 (Z.eqb_neq hlg srgb)) by congruence.
    rewrite (proj2 (Z.eqb_neq hlg smpte2084)) by congruence.
    reflexivity.
Qed.
End Names.

Lemma binary32_grid (args : photon_noise_args_t spec_float)
      (fg0 fg : aom_film_grain_t) :
  film_grain_wf fg0 ->
  generate_photon_noise (FA := Binary32.arith) args fg0 = Some fg ->
  map fst (scaling_points_y fg) = x_grid.
Proof.
  intros Hwf Hgen.
  destruct (generate_photon_noise_points args fg0 fg Hwf Hgen)
    as [Hlen Hpts].
  apply nth_error_ext.
  - rewrite length_map, Hlen. reflexivity.
  - intros j Hj. rewrite length_map, Hlen in Hj.
    destruct (Hpts (Z.of_nat j) ltac:(lia)) as ([x e] & Hp & Hn).
    rewrite Nat2Z.id in Hn.
    rewrite nth_error_map, Hn. cbn [option_map fst].
    unfold scaling_point in Hp.
    rewrite (binary32_to_int_quantized_x (Z.of_nat j)) in Hp by lia.
    destruct (to_int (quantized_noise args 14 (Z.of_nat j)));
      [|discriminate].
    assert (Hx : nth (Z.to_nat (Z.of_nat j)) x_grid 0 = x) by congruence.
    rewrite Nat2Z.id in Hx. rewrite <- Hx.
    symmetry. apply nth_error_nth'. unfold x_grid. cbn [List.length]. lia.
Qed.

(** *** The whole program *)

Section MainFacts.
Variable L : Libm spec_float.
Variables bt470m bt470bg srgb smpte2084 hlg : Z.
Variable arg : Type.
Variable argv_step : arg -> Z.
Variable set_argv_step : arg -> Z -> arg.
Variable val : arg -> option string.
Variable arg_match : arg -> arg_def_t -> list string -> option (bool * arg).
Variable arg_parse_int : arg -> option Z.
Variable arg_parse_enum : arg -> option Z.
Variable arg_show_usage : list arg_def_t -> string.
Variable table : Type.
Variable zeroed_table : table.
Variable aom_film_grain_table_append :
  table -> Z -> Z -> aom_film_grain_t -> table.
Variable aom_film_grain_table_write :
  table -> option string -> error_info_t -> Z * error_info_t.
Variable AOM_CODEC_OK : Z.

Let run_main :=
  main (F := spec_float) bt470m bt470bg srgb smpte2084 hlg arg argv_step
       set_argv_step val arg_match arg_parse_int arg_parse_enum
       arg_show_usage table zeroed_table aom_film_grain_table_append
       aom_film_grain_table_write AOM_CODEC_OK.
Let postcondition :=
  main_postcondition (F := spec_float) bt470m bt470bg srgb smpte2084 hlg
    arg argv_step set_argv_step val arg_match arg_parse_int arg_parse_enum
    arg_show_usage table zeroed_table aom_film_grain_table_append
    aom_film_grain_table_write AOM_CODEC_OK.

(** A run of [main] that returns, in single precision with any C library:
    the command line was complete, the 14 points are on the grid, the
    table handed to the writer has the one entry for the times 0 to
    2^63 - 1, the file is the one [--output] named, and the status tells
    whether the writer reported [AOM_CODEC_OK]. The curve left by [memset]
    plays no part. *)
Theorem main_returns
        (unassigned : transfer_function_t spec_float)
        (argv : list string) (a : arg)
        (status : exit_status) (printed : list (stream * string)) :
  NoDup [bt470m; bt470bg; srgb; smpte2084; hlg] ->
  run_main unassigned argv a = Return (status, printed) ->
  postcondition argv a status printed.
Proof.
  intros Hnd Hrun. unfold run_main, main in Hrun.
  apply bind_inv in Hrun as (pa & Hparse & Hrun).
  destruct (generate_photon_noise pa zeroed_film_grain) as [fg|] eqn:Hgen;
    [|discriminate].
  exists pa, fg.
  split.
  { intros u. rewrite <- Hparse. unfold parse_args. reflexivity. }
  split; [exact Hgen|].
  destruct (parse_args_returns (F := spec_float) _ _ _ _ _ _ _ _ _ _ _ _ _
              _ _ _ _ Hnd Hparse)
    as (st & (_ & _ & _ & Io & It) & -> & _ & _ & _ & Fo).
  split; [exact (Io Fo)|].
  split.
  { destruct It as [-> | (a' & tc & _ & _ & Htc)].
    - unfold catalog. cbn [In]. tauto.
    - exact (lookup_in_catalog _ _ _ _ _ _ _ Htc). }
  split; [exact (binary32_grid _ _ _ zeroed_film_grain_wf Hgen)|].
  split;
    [exact (generate_photon_noise_fixed _ _ _ zeroed_film_grain_wf Hgen)|].
  split; [exact (generate_photon_noise_frame _ _ _ Hgen)|].
  cbv zeta. change (2 ^ 63 - 1) with 9223372036854775807.
  match type of Hrun with
  | (if ?c then _ else _) = _ => destruct c eqn:Hc
  end; injection Hrun as <- <-.
  - left. apply Z.eqb_eq in Hc. auto.
  - right. apply Z.eqb_neq in Hc. auto.
Qed.
End MainFacts.


(** *** Runs on a sample command line *)

Lemma cicp_distinct :
  NoDup [cicp_bt470m; cicp_bt470bg; cicp_srgb; cicp_smpte2084; cicp_hlg].
Proof.
  repeat (apply NoDup_cons; [cbn; intuition discriminate|]).
  apply NoDup_nil.
Qed.

Lemma sample_run :
  sample_parse_args (F := R) sample_argv
    (zeroed_args kSRgbTransferFunction) (None, 0)
  = Return sample_parsed.
Proof. reflexivity. Qed.

Lemma sample_arg_match_step (a : sample_arg) (d : arg_def_t)
      (l : list string) (a' : sample_arg) :
  sample_arg_match a d l = Some (true, a') -> 1 <= snd a' <= 2.
Proof.
  unfold sample_arg_match. destruct l as [|s rest]; [discriminate|].
  destruct (String.eqb s _); [|discriminate].
  destruct (has_val d =? 0).
  - intros [= <-]. cbn. lia.
  - destruct rest; [discriminate|]. intros [= <-]. cbn. lia.
Qed.

Lemma sample_main_run :
  sample_main linear_curve srgb_argv (None, 0) = Return (EXIT_SUCCESS, []).
Proof. vm_compute. reflexivity. Qed.

Lemma transfer_function_names_resolve_witness :
  NoDup [cicp_bt470m; cicp_bt470bg; cicp_srgb; cicp_smpte2084; cicp_hlg] /\
  NoDup (map fst (transfer_functions cicp_bt470m cicp_bt470bg cicp_srgb
                    cicp_smpte2084 cicp_hlg)) /\
  map (fun e => find_transfer_function (F := R) cicp_bt470m cicp_bt470bg
                  cicp_srgb cicp_smpte2084 cicp_hlg (snd e))
      (transfer_functions cicp_bt470m cicp_bt470bg cicp_srgb
         cicp_smpte2084 cicp_hlg)
  = map Returns catalog.
Proof.
  split; [exact cicp_distinct|].
  exact (transfer_function_names_resolve (F := R) cicp_bt470m cicp_bt470bg
           cicp_srgb cicp_smpte2084 cicp_hlg cicp_distinct).
Defined.

Lemma parse_args_postcondition_witness :
  NoDup [cicp_bt470m; cicp_bt470bg; cicp_srgb; cicp_smpte2084; cicp_hlg] /\
  sample_parse_args (F := R) sample_argv
    (zeroed_args kSRgbTransferFunction) (None, 0)
  = Return sample_parsed /\
  parse_postcondition (F := R) cicp_bt470m cicp_bt470bg cicp_srgb
    cicp_smpte2084 cicp_hlg sample_arg fst sample_arg_match
    sample_arg_parse_int sample_arg_parse_enum sample_argv sample_parsed.
Proof.
  split; [exact cicp_distinct|]. split; [exact sample_run|].
  exact (parse_args_postcondition (F := R) cicp_bt470m cicp_bt470bg
           cicp_srgb cicp_smpte2084 cicp_hlg sample_arg snd
           (fun a n => (fst a, n)) fst sample_arg_match
           sample_arg_parse_int sample_arg_parse_enum (fun _ => ""%string)
           sample_argv (zeroed_args kSRgbTransferFunction) sample_parsed
           (None, 0) cicp_distinct sample_run).
Defined.

Lemma parse_args_terminates_witness :
  (forall a d l a', sample_arg_match a d l = Some (true, a') ->
                    1 <= snd a' <= 2) /\
  Z.of_nat (List.length sample_argv) + 2 <= INT_MAX /\
  sample_parse_args (F := R) sample_argv
    (zeroed_args kSRgbTransferFunction) (None, 0)
  <> OutOfFuel.
Proof.
  assert (Hmax : Z.of_nat (List.length sample_argv) + 2 <= INT_MAX)
    by (unfold INT_MAX; cbn; lia).
  split; [exact sample_arg_match_step|]. split; [exact Hmax|].
  exact (parse_args_terminates (F := R) cicp_bt470m cicp_bt470bg
           cicp_srgb cicp_smpte2084 cicp_hlg sample_arg snd
           (fun a n => (fst a, n)) fst sample_arg_match
           sample_arg_parse_int sample_arg_parse_enum (fun _ => ""%string)
           sample_argv 2 (zeroed_args kSRgbTransferFunction) (None, 0)
           sample_arg_match_step Hmax).
Defined.

Lemma main_returns_witness :
  NoDup [cicp_bt470m; cicp_bt470bg; cicp_srgb; cicp_smpte2084; cicp_hlg] /\
  sample_main linear_curve srgb_argv (None, 0) = Return (EXIT_SUCCESS, []) /\
  main_postcondition (F := spec_float) (LM := sample_libm)
    cicp_bt470m cicp_bt470bg cicp_srgb cicp_smpte2084 cicp_hlg
    sample_arg snd (fun a n => (fst a, n)) fst sample_arg_match
    sample_arg_parse_int sample_arg_parse_enum (fun _ => ""%string)
    sample_table [] (fun t t0 t1 fg => t ++ [(t0, t1, fg)])
    (fun _ _ e => (0, e)) 0
    srgb_argv (None, 0) EXIT_SUCCESS [].
Proof.
  split; [exact cicp_distinct|]. split; [exact sample_main_run|].
  exact (main_returns sample_libm cicp_bt470m cicp_bt470bg cicp_srgb
           cicp_smpte2084 cicp_hlg sample_arg snd (fun a n => (fst a, n))
           fst sample_arg_match sample_arg_parse_int sample_arg_parse_enum
           (fun _ => ""%string) sample_table []
           (fun t t0 t1 fg => t ++ [(t0, t1, fg)]) (fun _ _ e => (0, e)) 0
           linear_curve srgb_argv (None, 0) EXIT_SUCCESS []
           cicp_distinct sample_main_run).
Defined.
